(** * kohinata-plugin-adapter-qqbot: configuration file, gateway session
      manager and outbound message composer

    A shallow embedding of
    - [src/utils/config.ts]            (formatConfig, cleanConfigForWrite),
    - [src/connection/webSocket.ts]    (createWebSocketConnection,
      attemptReconnect, handleWebSocketMessage, buildIntents,
      stopWebSocketConnection), together with the older copy of that file
      that hard-codes the intents of its Identify frame,
    - [src/core/adapter/normal.ts] and [src/core/adapter/markdown.ts]
      (sendQQMsg, sendGuildMsg, the passive-reply closures and
      detectImageType),
    - the configuration store of [src/utils/config.ts] (config, getConfig),
    - the registry of bot instances (createBot, createClient, stopRuntime),
    - the settings page (save, and the regex field of components).

    JavaScript numbers are modelled by [Z] and [nat]; every counter of the
    program stays far below 2^53, where the two agree.  Strings are Rocq
    strings, read as UTF-8. *)

From Stdlib Require Import ZArith String Ascii List Lia Bool.
From stdpp Require Import base tactics option list gmap strings pretty.

Open Scope string_scope.
Open Scope Z_scope.
Open Scope list_scope.

(** ** 1. The persisted configuration ([utils/config.ts]) *)

Module Config.

(** Modelled from the spec: the type [QQBotConfig] ([types/config.ts] is
    not among the sources).  Its fields are those of [getDefaultConfig],
    and [enableConvert], which [markdown.ts] reads.  A value of this type is
    a formatted record: what [formatConfig] builds and what the rest of the
    program reads. *)
Record EventConfig := mkEvent {
  ev_type : Z;
  wsUrl : string;
  wsToken : string
}.

Record MarkdownConfig := mkMarkdown {
  md_mode : Z;
  md_id : string;
  md_kv : list string
}.

Record QQBotConfig := mkConfig {
  appId : string;
  secret : string;
  prodApi : string;
  sandboxApi : string;
  tokenApi : string;
  sandbox : bool;
  qqEnable : bool;
  guildEnable : bool;
  guildMode : Z;
  exclude : list string;
  regex : list (string * string);
  markdown : MarkdownConfig;
  event : EventConfig;
  enableConvert : option bool
}.

(** What the JSON file holds: the same keys, each one possibly absent.  This
    is the argument of [formatConfig] and the result of
    [cleanConfigForWrite]. *)
Record RawEvent := mkRawEvent {
  r_type : option Z;
  r_wsUrl : option string;
  r_wsToken : option string
}.

Record RawMarkdown := mkRawMarkdown {
  r_mode : option Z;
  r_id : option string;
  r_kv : option (list string)
}.

Record RawConfig := mkRaw {
  r_appId : option string;
  r_secret : option string;
  r_prodApi : option string;
  r_sandboxApi : option string;
  r_tokenApi : option string;
  r_sandbox : option bool;
  r_qqEnable : option bool;
  r_guildEnable : option bool;
  r_guildMode : option Z;
  r_exclude : option (list string);
  r_regex : option (list (string * string));
  r_markdown : option RawMarkdown;
  r_event : option RawEvent;
  r_enableConvert : option bool
}.

(** [getDefaultConfig()[0]] *)
Definition getDefaultConfig : QQBotConfig := {|
  appId := "";
  secret := "";
  prodApi := "https://api.sgroup.qq.com";
  sandboxApi := "https://sandbox.api.sgroup.qq.com";
  tokenApi := "https://bots.qq.com/app/getAppAccessToken";
  sandbox := false;
  qqEnable := true;
  guildEnable := true;
  guildMode := 0;
  exclude := [];
  regex := [("^/", "#")];
  markdown := {| md_mode := 0; md_id := "";
                 md_kv := ["text_start"; "img_dec"; "img_url"; "text_end"] |};
  event := {| ev_type := 0;
              wsUrl := "wss://sandbox.api.sgroup.qq.com/websocket/";
              wsToken := "" |};
  enableConvert := None
|}.

(** [x || d] on an optional string: an absent key and the empty string are
    both falsy. *)
Definition or_default (x : option string) (d : string) : string :=
  match x with
  | Some s => if String.eqb s "" then d else s
  | None => d
  end.

(** A spread [{...def, ...item}] read at one key. *)
Definition spread {A} (item : option A) (d : A) : A :=
  match item with Some a => a | None => d end.

(** [x?.k]: optional chaining into an optional object. *)
Definition chain {A B} (x : option A) (k : A -> option B) : option B :=
  match x with Some a => k a | None => None end.

(** *** [String.prototype.trim] on UTF-8

    The white space and line terminators of ECMAScript: U+0009..U+000D,
    U+0020, U+00A0, U+1680, U+2000..U+200A, U+2028, U+2029, U+202F, U+205F,
    U+3000 and U+FEFF. *)
Definition ws1 (a : N) : bool :=
  ((9 <=? a) && (a <=? 13))%N || (a =? 32)%N.

Definition ws2 (a b : N) : bool := ((a =? 194) && (b =? 160))%N.

Definition ws3 (a b c : N) : bool :=
  ((a =? 225) && (b =? 154) && (c =? 128))%N
  || ((a =? 226) && (b =? 128)
      && (((128 <=? c) && (c <=? 138)) || (c =? 168) || (c =? 169)
          || (c =? 175)))%N
  || ((a =? 226) && (b =? 129) && (c =? 159))%N
  || ((a =? 227) && (b =? 128) && (c =? 128))%N
  || ((a =? 239) && (b =? 187) && (c =? 191))%N.

Fixpoint trimStart (l : list N) : list N :=
  match l with
  | [] => []
  | a :: l1 =>
    if ws1 a then trimStart l1 else
    match l1 with
    | [] => l
    | b :: l2 =>
      if ws2 a b then trimStart l2 else
      match l2 with
      | [] => l
      | c :: l3 => if ws3 a b c then trimStart l3 else l
      end
    end
  end.

(** The same scan on the reversed byte sequence. *)
Fixpoint trimEndRev (l : list N) : list N :=
  match l with
  | [] => []
  | a :: l1 =>
    if ws1 a then trimEndRev l1 else
    match l1 with
    | [] => l
    | b :: l2 =>
      if ws2 b a then trimEndRev l2 else
      match l2 with
      | [] => l
      | c :: l3 => if ws3 c b a then trimEndRev l3 else l
      end
    end
  end.

Definition bytes_of (s : string) : list N :=
  List.map N_of_ascii (list_ascii_of_string s).

Definition string_of (l : list N) : string :=
  string_of_list_ascii (List.map ascii_of_N l).

Definition trim (s : string) : string :=
  string_of (List.rev (trimEndRev (List.rev (trimStart (bytes_of s))))).

(** *** [formatConfig] *)

(** The object literal built for one item of the user's list. *)
Definition formatItem (item : RawConfig) : QQBotConfig :=
  let def := getDefaultConfig in
  {| appId := spread (r_appId item) (appId def);
     secret := spread (r_secret item) (secret def);
     prodApi := or_default (r_prodApi item) (prodApi def);
     sandboxApi := or_default (r_sandboxApi item) (sandboxApi def);
     tokenApi := or_default (r_tokenApi item) (tokenApi def);
     sandbox := spread (r_sandbox item) (sandbox def);
     qqEnable := spread (r_qqEnable item) (qqEnable def);
     guildEnable := spread (r_guildEnable item) (guildEnable def);
     guildMode := spread (r_guildMode item) (guildMode def);
     exclude := spread (r_exclude item) (exclude def);
     regex := spread (r_regex item) (regex def);
     markdown :=
       {| md_mode := spread (chain (r_markdown item) r_mode) (md_mode (markdown def));
          md_id := spread (chain (r_markdown item) r_id) (md_id (markdown def));
          md_kv := spread (chain (r_markdown item) r_kv) (md_kv (markdown def)) |};
     event :=
       {| ev_type := spread (chain (r_event item) r_type) (ev_type (event def));
          wsUrl := or_default (chain (r_event item) r_wsUrl) (wsUrl (event def));
          wsToken := or_default (chain (r_event item) r_wsToken) (wsToken (event def)) |};
     enableConvert := r_enableConvert item |}.

(** A JavaScript [Map] with string keys: [set] on a key that is present
    replaces the value and keeps the position of the first insertion; on a
    new key it appends. *)
Fixpoint map_set {V} (k : string) (v : V) (m : list (string * V)) : list (string * V) :=
  match m with
  | [] => [(k, v)]
  | (k', v') :: m' =>
    if String.eqb k k' then (k, v) :: m' else (k', v') :: map_set k v m'
  end.

Definition map_values {V} (m : list (string * V)) : list V := List.map snd m.

(** [String(cfg.appId || '').trim()] *)
Definition uniq_key (cfg : QQBotConfig) : string := trim (appId cfg).

(** One turn of [result.forEach((cfg) => { ... uniq.set(id, cfg) })]. *)
Definition uniq_step (uniq : list (string * QQBotConfig)) (cfg : QQBotConfig)
  : list (string * QQBotConfig) :=
  let id := uniq_key cfg in
  if String.eqb id "" then uniq else map_set id cfg uniq.

Definition dedupe (result : list QQBotConfig) : list QQBotConfig :=
  map_values (List.fold_left uniq_step result []).

Definition formatConfig (user : list RawConfig) : list QQBotConfig :=
  dedupe (List.map formatItem user).

(** *** [cleanConfigForWrite] *)

Definition strip (v d : string) : option string :=
  if String.eqb v d then None else Some v.

(** [Object.keys(cleaned.event).length] *)
Definition has_key {A} (x : option A) : nat :=
  match x with Some _ => 1%nat | None => 0%nat end.

Definition event_keys (e : RawEvent) : nat :=
  (has_key (r_type e) + has_key (r_wsUrl e) + has_key (r_wsToken e))%nat.

Definition cleanEvent (e : EventConfig) : option RawEvent :=
  let def := getDefaultConfig in
  let e1 := {| r_type := Some (ev_type e);
               r_wsUrl := strip (wsUrl e) (wsUrl (event def));
               r_wsToken := strip (wsToken e) (wsToken (event def)) |} in
  if (ev_type e =? 0) && Nat.eqb (event_keys e1) 1 then None else Some e1.

Definition cleanItem (item : QQBotConfig) : RawConfig :=
  let def := getDefaultConfig in
  {| r_appId := Some (appId item);
     r_secret := Some (secret item);
     r_prodApi := strip (prodApi item) (prodApi def);
     r_sandboxApi := strip (sandboxApi item) (sandboxApi def);
     r_tokenApi := strip (tokenApi item) (tokenApi def);
     r_sandbox := Some (sandbox item);
     r_qqEnable := Some (qqEnable item);
     r_guildEnable := Some (guildEnable item);
     r_guildMode := Some (guildMode item);
     r_exclude := Some (exclude item);
     r_regex := Some (regex item);
     r_markdown := Some {| r_mode := Some (md_mode (markdown item));
                           r_id := Some (md_id (markdown item));
                           r_kv := Some (md_kv (markdown item)) |};
     r_event := cleanEvent (event item);
     r_enableConvert := enableConvert item |}.

Definition cleanConfigForWrite (config : list QQBotConfig) : list RawConfig :=
  List.map cleanItem config.

(** [writeConfig] up to the file write: format, then clean.  (The source
    deletes keys of the event object it shares with its argument; the
    argument is the fresh list [formatConfig] just built, so nothing else
    sees that.) *)
Definition writeConfig (config : list RawConfig) : list RawConfig :=
  cleanConfigForWrite (formatConfig config).

(** *** Notions used in the statements about this part *)

(** What [formatConfig] guarantees of each record it builds: the four
    fields filled by [||] from a non-empty default are non-empty. *)
Definition formatted (y : QQBotConfig) : Prop :=
  prodApi y <> "" /\ sandboxApi y <> "" /\ tokenApi y <> "" /\ wsUrl (event y) <> "".

Definition keys {V} (m : list (string * V)) : list string := List.map fst m.

(** Every entry of the map is filed under the key of its own value, keys are
    non-empty and no key is listed twice. *)
Definition uniq_inv (m : list (string * QQBotConfig)) : Prop :=
  NoDup (keys m) /\ Forall (fun kv => kv.1 = uniq_key kv.2 /\ kv.1 <> "") m.

End Config.

(** ** 2. The gateway session manager ([connection/webSocket.ts])

    The repository holds two copies of this file.  [Current] is the one with
    [attemptReconnect] and [buildIntents]; [Legacy] is the older copy, which
    never reconnects and sends a literal intents value.  The two agree
    everywhere else, so one model covers both, switched by a [Revision].

    The asynchronous program is a transition system: a [State] holding the
    three module-level maps and every closure's captured variables, and one
    [Event] per callback the runtime can invoke.  Logger calls are left out.
    The synchronous [catch] around the gateway request is covered by the
    event of the rejected request, which does the same. *)

Module Gateway.
Import Config.

Inductive Revision := Current | Legacy.

(** Modelled from the spec: the enum [Opcode] ([types/event.ts] is not
    among the sources), by the members the file names; a received [op] equal
    to none of them is [OtherOp]. *)
Inductive Opcode :=
| Dispatch | Heartbeat | Identify | Reconnect | InvalidSession | Hello
| HeartbeatACK | OtherOp (n : Z).

(** The [d] member of a frame, as far as the handler reads it. *)
Inductive Data :=
| DHello (heartbeat_interval : Z)
| DReady (session_id : string)
| DJson (raw : string).

Record Frame := mkFrame {
  f_op : Opcode;
  f_d : Data;
  f_t : option string;
  f_s : option Z
}.

Record IdentifyData := mkIdentify {
  token : string;
  intents : Z;
  shard : list Z;
  properties : list (string * string)
}.

Inductive OutFrame :=
| OutIdentify (d : IdentifyData)
| OutHeartbeat (d : Z).

(** *** Intents *)

(** ToInt32, [<<] and [|] of ECMAScript. *)
Definition to_int32 (z : Z) : Z :=
  let m := z mod 2 ^ 32 in if m <? 2 ^ 31 then m else m - 2 ^ 32.

Definition js_shl (a b : Z) : Z := to_int32 (Z.shiftl (to_int32 a) (b mod 32)).

Definition js_or (a b : Z) : Z := to_int32 (Z.lor (to_int32 a) (to_int32 b)).

Definition buildIntents (cfg : QQBotConfig) : Z :=
  let intents := 0 in
  let intents := js_or intents (js_shl 1 0) in
  let intents := js_or intents (js_shl 1 1) in
  let intents := js_or intents (js_shl 1 12) in
  let intents := js_or intents (js_shl 1 25) in
  if guildMode cfg =? 1
  then js_or intents (js_shl 1 9)
  else js_or intents (js_shl 1 30).

(** The [d] of the Identify frame sent on Hello.  [accessToken] is
    [BotMap.get(appid)], interpolated into the template literal. *)
Definition identify (rev : Revision) (cfg : QQBotConfig) (accessToken : option string)
  : IdentifyData :=
  {| token := "QQBot " +:+ default "undefined" accessToken;
     intents := match rev with
                | Current => buildIntents cfg
                | Legacy => 33558531
                end;
     shard := [0; 1];
     properties := [("$os", "linux"); ("$browser", "karin"); ("$device", "karin")] |}.

(** *** State *)

(** A cache entry.  The socket and the [Symbol] made next to it are both
    named by the index of the open attempt that made them; the entry's
    [close] member is that attempt's [close] closure. *)
Record WSConnection := mkWS {
  ws_socket : nat;
  heartbeatTimer : option nat;
  connectionId : nat
}.

(** The variables captured by the socket's listeners. *)
Record Socket := mkSocket {
  listeners : bool;          (* false after removeAllListeners() *)
  closeCalled : bool;        (* socket.close() was called *)
  isReady : bool;
  lastSeq : Z;
  heartbeatInterval : Z
}.

(** One call of [createWebSocketConnection] that got past its two guards. *)
Record Attempt := mkAttempt {
  config : QQBotConfig;
  attempt : nat;                 (* the captured attempt number *)
  resolved : option bool;        (* [resolved], with the value passed on *)
  connectionTimeout : bool;      (* the 10 s timer is armed *)
  gatewayPending : bool;         (* getGateway() has not settled *)
  waiter : option nat;           (* the attemptReconnect call awaiting it *)
  socket : option Socket
}.

(** An [attemptReconnect] call suspended in its [setTimeout]. *)
Record ReconnectTimer := mkTimer {
  rt_config : QQBotConfig;
  rt_attempt : nat;
  rt_delay : Z;
  rt_armed : bool
}.

Record State := mkState {
  cache : gmap string WSConnection;
  attemptSeq : gmap string nat;
  reconnectAttempts : gmap string nat;
  BotMap : gmap string string;
  attempts : list Attempt;
  intervals : gmap nat nat;          (* live setInterval handles, with their socket *)
  nextInterval : nat;
  reconnectTimers : list ReconnectTimer;
  emitted : list (string * Frame);   (* event.emit(appid, frame) *)
  sent : list (nat * OutFrame);      (* socket.send *)
  jobs : list (nat * bool)           (* promise reactions not yet run *)
}.

Definition init (tokens : gmap string string) : State :=
  {| cache := ∅; attemptSeq := ∅; reconnectAttempts := ∅; BotMap := tokens;
     attempts := []; intervals := ∅; nextInterval := 0; reconnectTimers := [];
     emitted := []; sent := []; jobs := [] |}.

Definition set_cache (f : gmap string WSConnection -> gmap string WSConnection)
  (st : State) : State :=
  mkState (f (cache st)) (attemptSeq st) (reconnectAttempts st) (BotMap st)
    (attempts st) (intervals st) (nextInterval st) (reconnectTimers st)
    (emitted st) (sent st) (jobs st).

Definition set_attemptSeq (f : gmap string nat -> gmap string nat) (st : State) : State :=
  mkState (cache st) (f (attemptSeq st)) (reconnectAttempts st) (BotMap st)
    (attempts st) (intervals st) (nextInterval st) (reconnectTimers st)
    (emitted st) (sent st) (jobs st).

Definition set_reconnectAttempts (f : gmap string nat -> gmap string nat)
  (st : State) : State :=
  mkState (cache st) (attemptSeq st) (f (reconnectAttempts st)) (BotMap st)
    (attempts st) (intervals st) (nextInterval st) (reconnectTimers st)
    (emitted st) (sent st) (jobs st).

Definition set_attempts (f : list Attempt -> list Attempt) (st : State) : State :=
  mkState (cache st) (attemptSeq st) (reconnectAttempts st) (BotMap st)
    (f (attempts st)) (intervals st) (nextInterval st) (reconnectTimers st)
    (emitted st) (sent st) (jobs st).

Definition set_intervals (f : gmap nat nat -> gmap nat nat) (st : State) : State :=
  mkState (cache st) (attemptSeq st) (reconnectAttempts st) (BotMap st)
    (attempts st) (f (intervals st)) (nextInterval st) (reconnectTimers st)
    (emitted st) (sent st) (jobs st).

Definition set_nextInterval (n : nat) (st : State) : State :=
  mkState (cache st) (attemptSeq st) (reconnectAttempts st) (BotMap st)
    (attempts st) (intervals st) n (reconnectTimers st)
    (emitted st) (sent st) (jobs st).

Definition set_reconnectTimers (f : list ReconnectTimer -> list ReconnectTimer)
  (st : State) : State :=
  mkState (cache st) (attemptSeq st) (reconnectAttempts st) (BotMap st)
    (attempts st) (intervals st) (nextInterval st) (f (reconnectTimers st))
    (emitted st) (sent st) (jobs st).

Definition set_emitted (f : list (string * Frame) -> list (string * Frame))
  (st : State) : State :=
  mkState (cache st) (attemptSeq st) (reconnectAttempts st) (BotMap st)
    (attempts st) (intervals st) (nextInterval st) (reconnectTimers st)
    (f (emitted st)) (sent st) (jobs st).

Definition set_sent (f : list (nat * OutFrame) -> list (nat * OutFrame))
  (st : State) : State :=
  mkState (cache st) (attemptSeq st) (reconnectAttempts st) (BotMap st)
    (attempts st) (intervals st) (nextInterval st) (reconnectTimers st)
    (emitted st) (f (sent st)) (jobs st).

Definition set_jobs (f : list (nat * bool) -> list (nat * bool)) (st : State) : State :=
  mkState (cache st) (attemptSeq st) (reconnectAttempts st) (BotMap st)
    (attempts st) (intervals st) (nextInterval st) (reconnectTimers st)
    (emitted st) (sent st) (f (jobs st)).

Definition upd_attempt (sid : nat) (f : Attempt -> Attempt) (st : State) : State :=
  set_attempts (alter f sid) st.

Definition with_socket (f : Socket -> Socket) (a : Attempt) : Attempt :=
  mkAttempt (config a) (attempt a) (resolved a) (connectionTimeout a)
    (gatewayPending a) (waiter a) (f <$> socket a).

Definition upd_socket (sid : nat) (f : Socket -> Socket) (st : State) : State :=
  upd_attempt sid (with_socket f) st.

Definition appid_of (a : Attempt) : string := appId (config a).

(** *** The closures of one open attempt *)

(** [isStale = () => attemptSeq.get(appid) !== attempt] *)
Definition isStale (st : State) (a : Attempt) : bool :=
  negb (bool_decide (attemptSeq st !! appid_of a = Some (attempt a))).

Definition clearInterval (tm : nat) (st : State) : State :=
  set_intervals (delete tm) st.

(** [socket.close()] on its own: the listeners stay. *)
Definition socket_close (sid : nat) (st : State) : State :=
  upd_socket sid
    (fun k => mkSocket (listeners k) true (isReady k) (lastSeq k) (heartbeatInterval k))
    st.

(** [socket.removeAllListeners()] *)
Definition removeAllListeners (sid : nat) (st : State) : State :=
  upd_socket sid
    (fun k => mkSocket false (closeCalled k) (isReady k) (lastSeq k) (heartbeatInterval k))
    st.

(** The [close] closure of attempt [sid]: drop the listeners, close the
    socket, and clear the cache entry only if it still carries this
    attempt's [connectionId]. *)
Definition close (sid : nat) (st : State) : State :=
  match attempts st !! sid with
  | None => st
  | Some a =>
    let st := socket_close sid (removeAllListeners sid st) in
    match cache st !! appid_of a with
    | Some ws =>
      if Nat.eqb (connectionId ws) sid then
        let st := match heartbeatTimer ws with
                  | Some tm => clearInterval tm st
                  | None => st
                  end in
        set_cache (delete (appid_of a)) st
      else st
    | None => st
    end
  end.

(** [resolveOnce]: the first call settles the promise, which also clears the
    10 s timer (the wrapped [resolve]); the reaction of whoever awaits the
    promise is queued. *)
Definition resolveOnce (sid : nat) (success : bool) (st : State) : State :=
  match attempts st !! sid with
  | None => st
  | Some a =>
    match resolved a with
    | Some _ => st
    | None =>
      set_jobs (fun q => q ++ [(sid, success)])
        (upd_attempt sid
           (fun a => mkAttempt (config a) (attempt a) (Some success) false
                       (gatewayPending a) (waiter a) (socket a)) st)
    end
  end.

(** *** [attemptReconnect] *)

Definition maxAttempts : nat := 5.

(** [Math.min(1000 * Math.pow(2, currentAttempt), 16000)] *)
Definition backoff (currentAttempt : nat) : Z :=
  Z.min (1000 * 2 ^ Z.of_nat currentAttempt) 16000.

(** Up to the [await] of the delay. *)
Definition attemptReconnect (cfg : QQBotConfig) (currentAttempt : nat) (st : State)
  : State :=
  let appid := appId cfg in
  if (maxAttempts <=? currentAttempt)%nat then
    set_reconnectAttempts (delete appid) st
  else
    let attempt := S currentAttempt in
    let st := set_reconnectAttempts (<[appid := attempt]>) st in
    set_reconnectTimers
      (fun l => l ++ [mkTimer cfg attempt (backoff currentAttempt) true]) st.

(** After [await createWebSocketConnection(config, client)]. *)
Definition reconnect_settled (cfg : QQBotConfig) (attempt : nat) (success : bool)
  (st : State) : State :=
  if success then set_reconnectAttempts (delete (appId cfg)) st
  else attemptReconnect cfg attempt st.

(** *** [createWebSocketConnection] *)

Inductive OpenResult :=
| Resolved (success : bool)      (* the promise is already settled *)
| Pending (sid : nat).           (* the promise of attempt [sid] *)

(** The synchronous part: the two guards, the attempt counter, the close of
    the cached connection, and the executor of the promise, which arms the
    10 s timer and issues [getGateway()]. *)
Definition createWebSocketConnection (cfg : QQBotConfig) (awaited_by : option nat)
  (st : State) : State * OpenResult :=
  if String.eqb (appId cfg) "default" then (st, Resolved false)
  else if negb (ev_type (event cfg) =? 2) then (st, Resolved false)
  else
    let appid := appId cfg in
    let attempt := (default 0%nat (attemptSeq st !! appid) + 1)%nat in
    let st := set_attemptSeq (<[appid := attempt]>) st in
    let st := match cache st !! appid with
              | Some existingConnection => close (connectionId existingConnection) st
              | None => st
              end in
    let sid := length (attempts st) in
    (set_attempts
       (fun l => l ++ [mkAttempt cfg attempt None true true awaited_by None]) st,
     Pending sid).

(** [api.getGateway().then(...)] *)
Definition on_gateway (sid : nat) (url : option string) (st : State) : State :=
  match attempts st !! sid with
  | None => st
  | Some a =>
    if negb (gatewayPending a) then st else
    let st := upd_attempt sid
                (fun a => mkAttempt (config a) (attempt a) (resolved a)
                            (connectionTimeout a) false (waiter a) (socket a)) st in
    if isStale st a then resolveOnce sid false st
    else if String.eqb (default "" url) "" then resolveOnce sid false st
    else if String.eqb (default "" (BotMap st !! appid_of a)) "" then
      resolveOnce sid false st
    else
      upd_attempt sid
        (fun a => mkAttempt (config a) (attempt a) (resolved a)
                    (connectionTimeout a) (gatewayPending a) (waiter a)
                    (Some (mkSocket true false false 0 0))) st
  end.

(** [.catch(...)]: the gateway request failed, or the socket could not be
    constructed. *)
Definition on_gateway_error (sid : nat) (st : State) : State :=
  match attempts st !! sid with
  | None => st
  | Some a =>
    if negb (gatewayPending a) then st else
    let st := upd_attempt sid
                (fun a => mkAttempt (config a) (attempt a) (resolved a)
                            (connectionTimeout a) false (waiter a) (socket a)) st in
    if isStale st a then st else resolveOnce sid false st
  end.

(** The 10 s [connectionTimeout] fires. *)
Definition on_timeout (sid : nat) (st : State) : State :=
  match attempts st !! sid with
  | None => st
  | Some a =>
    if connectionTimeout a then
      resolveOnce sid false
        (upd_attempt sid
           (fun a => mkAttempt (config a) (attempt a) (resolved a) false
                       (gatewayPending a) (waiter a) (socket a)) st)
    else st
  end.

(** Does the socket of attempt [sid] still deliver events to its listeners? *)
Definition listening (st : State) (sid : nat) : option (Attempt * Socket) :=
  match attempts st !! sid with
  | Some a =>
    match socket a with
    | Some k => if listeners k then Some (a, k) else None
    | None => None
    end
  | None => None
  end.

Section Handlers.
Variable rev : Revision.

(** [socket.on('close', (code, reason) => ...)] *)
Definition on_close (sid : nat) (code : Z) (st : State) : State :=
  match listening st sid with
  | None => st
  | Some (a, k) =>
    if isStale st a then st else
    let wasReady := isReady k in
    let st := close sid st in
    let st := resolveOnce sid false st in
    match rev with
    | Current =>
      if wasReady && negb (code =? 1000) && negb (code =? 1001)
      then attemptReconnect (config a) 0 st
      else st
    | Legacy => st
    end
  end.

(** [socket.on('error', ...)] *)
Definition on_error (sid : nat) (st : State) : State :=
  match listening st sid with
  | None => st
  | Some (a, k) =>
    if isStale st a then st else
    resolveOnce sid false (close sid st)
  end.

(** [socket.on('open', ...)] *)
Definition on_open (sid : nat) (st : State) : State :=
  match listening st sid with
  | None => st
  | Some (a, k) =>
    if isStale st a then socket_close sid (removeAllListeners sid st)
    else set_cache (<[appid_of a := mkWS sid None sid]>) st
  end.

(** The third callback handed to [handleWebSocketMessage]: record the
    interval and (re)start the heartbeat ticker. *)
Definition setHeartbeatInterval (sid : nat) (appid : string) (interval : Z)
  (st : State) : State :=
  let st := upd_socket sid
              (fun k => mkSocket (listeners k) (closeCalled k) (isReady k)
                          (lastSeq k) interval) st in
  let st := match cache st !! appid with
            | Some ws =>
              match heartbeatTimer ws with
              | Some tm => clearInterval tm st
              | None => st
              end
            | None => st
            end in
  let heartbeatTimer := nextInterval st in
  let st := set_nextInterval (S heartbeatTimer)
              (set_intervals (<[heartbeatTimer := sid]>) st) in
  match cache st !! appid with
  | Some wsData =>
    set_cache (<[appid := mkWS (ws_socket wsData) (Some heartbeatTimer)
                            (connectionId wsData)]>) st
  | None => st
  end.

Definition setSeq (sid : nat) (seq : Z) (st : State) : State :=
  upd_socket sid
    (fun k => mkSocket (listeners k) (closeCalled k) (isReady k) seq
                (heartbeatInterval k)) st.

Definition heartbeat_interval_of (d : Data) : Z :=
  match d with DHello n => n | _ => 0 end.

Definition handleWebSocketMessage (cfg : QQBotConfig) (sid : nat) (data : Frame)
  (st : State) : State :=
  let appid := appId cfg in
  let accessToken := BotMap st !! appid in
  let st := match f_s data with
            | Some seq => setSeq sid seq st
            | None => st
            end in
  match f_op data with
  | Hello =>
    let st := setHeartbeatInterval sid appid (heartbeat_interval_of (f_d data)) st in
    set_sent (fun l => l ++ [(sid, OutIdentify (identify rev cfg accessToken))]) st
  | Dispatch =>
    set_emitted (fun l => l ++ [(appid, data)]) st
  | HeartbeatACK => st
  | Reconnect =>
    let st := socket_close sid st in
    match rev with
    | Current => attemptReconnect cfg 0 st
    | Legacy => st
    end
  | InvalidSession => socket_close sid st
  | _ => st
  end.

Definition is_ready_frame (data : Frame) : bool :=
  match f_op data with
  | Dispatch => bool_decide (f_t data = Some "READY")
  | _ => false
  end.

(** Does the message listener of attempt [sid] get past its two guards? *)
Definition accepts (st : State) (sid : nat) : bool :=
  match listening st sid with
  | None => false
  | Some (a, k) =>
    negb (isStale st a) &&
    match cache st !! appid_of a with
    | Some current => Nat.eqb (ws_socket current) sid && Nat.eqb (connectionId current) sid
    | None => false
    end
  end.

(** [socket.on('message', ...)] *)
Definition on_message (sid : nat) (data : Frame) (st : State) : State :=
  match listening st sid with
  | None => st
  | Some (a, k) =>
    if isStale st a then st else
    match cache st !! appid_of a with
    | None => st
    | Some current =>
      if negb (Nat.eqb (ws_socket current) sid && Nat.eqb (connectionId current) sid)
      then st
      else
        let st := if is_ready_frame data then
                    resolveOnce sid true
                      (upd_socket sid
                         (fun k => mkSocket (listeners k) (closeCalled k) true
                                     (lastSeq k) (heartbeatInterval k)) st)
                  else st in
        handleWebSocketMessage (config a) sid data st
    end
  end.

(** One tick of a heartbeat [setInterval]. *)
Definition on_heartbeat (tm : nat) (st : State) : State :=
  match intervals st !! tm with
  | None => st
  | Some sid =>
    match attempts st !! sid with
    | Some a =>
      match socket a with
      | Some k => set_sent (fun l => l ++ [(sid, OutHeartbeat (lastSeq k))]) st
      | None => st
      end
    | None => st
    end
  end.

(** [attemptReconnect] from the end of its delay to its next suspension. *)
Definition on_reconnect_delay (rid : nat) (st : State) : State :=
  match reconnectTimers st !! rid with
  | None => st
  | Some tm =>
    if negb (rt_armed tm) then st else
    let st := set_reconnectTimers
                (alter (fun tm => mkTimer (rt_config tm) (rt_attempt tm)
                                    (rt_delay tm) false) rid) st in
    let cfg := rt_config tm in
    if negb (bool_decide (reconnectAttempts st !! appId cfg = Some (rt_attempt tm)))
    then st
    else
      match createWebSocketConnection cfg (Some (rt_attempt tm)) st with
      | (st, Resolved success) => reconnect_settled cfg (rt_attempt tm) success st
      | (st, Pending _) => st
      end
  end.

(** [stopWebSocketConnection]; its boolean result is [stop_result]. *)
Definition stopWebSocketConnection (appid : string) (st : State) : State :=
  let st := set_attemptSeq
              (<[appid := (default 0%nat (attemptSeq st !! appid) + 1)%nat]>) st in
  let st := match rev with
            | Current => set_reconnectAttempts (delete appid) st
            | Legacy => st
            end in
  match cache st !! appid with
  | Some result => close (connectionId result) st
  | None => st
  end.

Definition stop_result (appid : string) (st : State) : bool :=
  match cache st !! appid with Some _ => true | None => false end.

(** The reaction queued by a settled promise: only [attemptReconnect] awaits
    one inside this file. *)
Definition run_job (st : State) (job : nat * bool) : State :=
  match attempts st !! job.1 with
  | Some a =>
    match waiter a with
    | Some n => reconnect_settled (config a) n job.2 st
    | None => st
    end
  | None => st
  end.

(** The reactions run once the current callback has returned. *)
Definition drain (st : State) : State :=
  List.fold_left run_job (jobs st) (set_jobs (fun _ => []) st).

Inductive Event :=
| Open (cfg : QQBotConfig)                  (* a caller outside this file *)
| Stop (appid : string)
| GatewayReply (sid : nat) (url : option string)
| GatewayError (sid : nat)
| ConnTimeout (sid : nat)
| SocketOpen (sid : nat)
| SocketMessage (sid : nat) (data : Frame)
| SocketClose (sid : nat) (code : Z)
| SocketError (sid : nat)
| HeartbeatTick (tm : nat)
| ReconnectDelay (rid : nat).

Definition handle (e : Event) (st : State) : State :=
  match e with
  | Open cfg => (createWebSocketConnection cfg None st).1
  | Stop appid => stopWebSocketConnection appid st
  | GatewayReply sid url => on_gateway sid url st
  | GatewayError sid => on_gateway_error sid st
  | ConnTimeout sid => on_timeout sid st
  | SocketOpen sid => on_open sid st
  | SocketMessage sid data => on_message sid data st
  | SocketClose sid code => on_close sid code st
  | SocketError sid => on_error sid st
  | HeartbeatTick tm => on_heartbeat tm st
  | ReconnectDelay rid => on_reconnect_delay rid st
  end.

Definition step (st : State) (e : Event) : State := drain (handle e st).

Definition run (evs : list Event) (st : State) : State := List.fold_left step evs st.

Inductive reachable : State -> Prop :=
| reach_init tokens : reachable (init tokens)
| reach_step st e : reachable st -> reachable (step st e).

End Handlers.

(** *** Notions used in the statements about this part *)

(** The pair that never changes once an attempt exists. *)
Definition key (a : Attempt) : QQBotConfig * nat := (config a, attempt a).

(** The attempts made so far, by that pair. *)
Definition ids (st : State) : list (QQBotConfig * nat) := key <$> attempts st.

(** The attempt a callback belongs to: the reply of its gateway request,
    its 10 s timer, or a listener of its socket. *)
Definition callback (e : Event) : option nat :=
  match e with
  | GatewayReply sid _ | GatewayError sid | ConnTimeout sid | SocketOpen sid
  | SocketMessage sid _ | SocketClose sid _ | SocketError sid => Some sid
  | _ => None
  end.

(** The current attempt number of an identity, 0 when it has none. *)
Definition seq_of (st : State) (appid : string) : nat :=
  default 0%nat (attemptSeq st !! appid).

(** Every attempt carries a number between 1 and the current number of its
    identity. *)
Definition numbered (st : State) : Prop :=
  forall sid cfg n, ids st !! sid = Some (cfg, n) ->
    (1 <= n <= seq_of st (appId cfg))%nat.


(** No two attempts of one identity carry the same number. *)
Definition distinct (st : State) : Prop :=
  forall i j cfg cfg' n,
    ids st !! i = Some (cfg, n) -> ids st !! j = Some (cfg', n) ->
    appId cfg = appId cfg' -> i = j.

(** A cache entry belongs to the attempt that is current for its identity. *)
Definition owned (st : State) : Prop :=
  forall a ws, cache st !! a = Some ws ->
    ws_socket ws = connectionId ws
    /\ exists cfg, ids st !! connectionId ws = Some (cfg, seq_of st a) /\ appId cfg = a.

(** The heartbeat timer of a cache entry is live and was started for the
    entry's socket; timer handles are handed out in increasing order. *)
Definition timed (st : State) : Prop :=
  (forall a ws tm, cache st !! a = Some ws -> heartbeatTimer ws = Some tm ->
     intervals st !! tm = Some (connectionId ws))
  /\ (forall tm sid, intervals st !! tm = Some sid -> (tm < nextInterval st)%nat).

(** The invariant of the reachable states that the cache properties rest
    on. *)
Record wf (st : State) : Prop := mkWf {
  wf_numbered : numbered st;
  wf_distinct : distinct st;
  wf_owned : owned st;
  wf_timed : timed st
}.

(** The part of the state these invariants read. *)
Definition footprint (st : State) :=
  (cache st, ids st, attemptSeq st, intervals st, nextInterval st).

(** [clearInterval] of the heartbeat timer of a cache entry, if it has
    one. *)
Definition drop_timer (ws : WSConnection) (m : gmap nat nat) : gmap nat nat :=
  match heartbeatTimer ws with Some tm => delete tm m | None => m end.

(** The entry [ws] of identity [a] and its heartbeat timer survive the
    move from [st] to [st']. *)
Definition spared (st st' : State) (a : string) (ws : WSConnection) : Prop :=
  cache st' !! a = Some ws
  /\ forall tm, heartbeatTimer ws = Some tm -> intervals st' !! tm = intervals st !! tm.

(** What one callback may do to an attempt: its configuration, number and
    awaiting caller stay; a settled promise keeps its value; while it is
    pending its 10 s timer is not touched; and it settles with [true] only
    if [ok] allows it. *)
Record evolves (ok : bool) (a a' : Attempt) : Prop := mkEvolves {
  ev_config : config a' = config a;
  ev_attempt : attempt a' = attempt a;
  ev_waiter : waiter a' = waiter a;
  ev_settled : forall v, resolved a = Some v -> resolved a' = Some v;
  ev_timer : resolved a' = None -> connectionTimeout a' = connectionTimeout a;
  ev_true : resolved a = None -> resolved a' = Some true -> ok = true
}.

(** Every attempt of [st] is still there in [st'], evolved; [ok] says at
    which indices a promise may have settled with [true]. *)
Definition evolving (ok : nat -> bool) (st st' : State) : Prop :=
  forall j a, attempts st !! j = Some a ->
    exists a', attempts st' !! j = Some a' /\ evolves (ok j) a a'.

(** The attempt that [resolveOnce] leaves at each index. *)
Definition settle (v : bool) (a : Attempt) : Attempt :=
  match resolved a with
  | Some _ => a
  | None => mkAttempt (config a) (attempt a) (Some v) false (gatewayPending a)
              (waiter a) (socket a)
  end.

(** Does this callback hand a ready acknowledgment to attempt [sid]: a
    Dispatch frame of type READY, on the socket of [sid], that gets past
    the guards of the message listener? *)
Definition observes_ready (st : State) (e : Event) (sid : nat) : bool :=
  match e with
  | SocketMessage sid' data => Nat.eqb sid sid' && is_ready_frame data && accepts st sid'
  | _ => false
  end.

(** The value the promise of attempt [sid] has settled with, if any. *)
Definition outcome (st : State) (sid : nat) : option bool :=
  match attempts st !! sid with
  | Some a => resolved a
  | None => None
  end.

(** The ready acknowledgment was observed while the promise was pending:
    somewhere in the run, a Dispatch frame of type READY reached the
    message listener of attempt [sid], got past its guards, and found the
    promise not yet settled (in particular, its 10 s timer had not fired). *)
Definition ready_observed (rev : Revision) (sid : nat) (st : State)
  (evs : list Event) : Prop :=
  exists pre data post,
    evs = pre ++ SocketMessage sid data :: post
    /\ observes_ready (run rev pre st) (SocketMessage sid data) sid = true
    /\ outcome (run rev pre st) sid = None.

(** While a promise is pending its 10 s timer is armed. *)
Definition armed (st : State) : Prop :=
  forall sid a, attempts st !! sid = Some a -> resolved a = None ->
    connectionTimeout a = true.

(** The events that fail an open attempt before the ready acknowledgment:
    the socket closes or errors, the gateway request fails, or it answers
    without a URL or while no access token is cached. *)
Definition fails (st : State) (sid : nat) (a : Attempt) (e : Event) : Prop :=
  (exists code, e = SocketClose sid code /\ is_Some (listening st sid))
  \/ (e = SocketError sid /\ is_Some (listening st sid))
  \/ (e = GatewayError sid /\ gatewayPending a = true)
  \/ (exists url, e = GatewayReply sid url /\ gatewayPending a = true
                  /\ (default "" url = ""
                      \/ default "" (BotMap st !! appid_of a) = "")).


(** The part of the state that [bounded] reads. *)
Definition rfoot (st : State) :=
  (reconnectAttempts st, reconnectTimers st, waiter <$> attempts st).

(** GUILDS, GUILD_MEMBERS, DIRECT_MESSAGE and GROUP_AND_C2C_EVENT. *)
Definition base_intents : Z :=
  Z.shiftl 1 0 + Z.shiftl 1 1 + Z.shiftl 1 12 + Z.shiftl 1 25.

(** Every Identify frame that was sent is the one built for the attempt
    it was sent on. *)
Definition identified (rev : Revision) (st : State) : Prop :=
  forall sid d, (sid, OutIdentify d) ∈ sent st ->
    exists a tok, attempts st !! sid = Some a /\ d = identify rev (config a) tok.

End Gateway.

(** ** 3. The outbound message composer ([core/adapter/normal.ts],
       [core/adapter/markdown.ts])

    Awaited calls into the host and the platform are parameters that may
    fail; a failure is an exception that ends the send.  The effects of a
    send are the log lines it writes and the payloads it hands to the
    platform, in order. *)

Module Composer.
Import Config.

Inductive Scene := Friend | Group | Guild | Direct.

Record Contact := mkContact {
  scene : Scene;
  peer : string;
  subPeer : string
}.

Inductive Source := SrcMsg | SrcEvent.

(** [ElementTypes] of the host, by [type] tag.  [EOther] stands for every
    tag that neither adapter file names. *)
Inductive Element :=
| EText (text : string)
| EAt (targetId : string)
| EFace (id : Z)
| EImage (file : string)
| EReply (messageId : string)
| EPasmsg (id : string) (source : Source) (is_wakeup : bool)
| EKeyboard (raw : string)
| EButton (raw : string)
| EMarkdown (raw : string)
| EMarkdownTpl (raw : string)
| EVideo (file : string)
| ERecord (file : string)
| EOther (type : string).

Definition type_of (v : Element) : string :=
  match v with
  | EText _ => "text" | EAt _ => "at" | EFace _ => "face" | EImage _ => "image"
  | EReply _ => "reply" | EPasmsg _ _ _ => "pasmsg" | EKeyboard _ => "keyboard"
  | EButton _ => "button" | EMarkdown _ => "markdown"
  | EMarkdownTpl _ => "markdownTpl" | EVideo _ => "video" | ERecord _ => "record"
  | EOther type => type
  end.

(** [list.pasmsg] *)
Record Pasmsg := mkPasmsg {
  pm_type : Source;
  msg_id : string;
  msg_seq : Z;
  is_wakeup : bool
}.

Inductive QQKind := QText | QMedia.

(** A private/group payload ([SendQQMsg]): what [QQdMsgOptions] was given,
    and the four members the passive-reply closures assign. *)
Record SendQQMsg := mkQQ {
  q_kind : QQKind;
  q_arg : string;
  q_msg_seq : option Z;
  q_msg_id : option string;
  q_event_id : option string;
  q_is_wakeup : bool
}.

Inductive GuildKind := GText | GImage.

Record SendGuildMsg := mkGuild {
  g_kind : GuildKind;
  g_arg : string;
  g_image : option string;
  g_msg_id : option string;
  g_event_id : option string
}.

Inductive FormField :=
| FContent (value : string)
| FFileImage (buffer filename contentType : string)
| FMsgId (value : string)
| FEventId (value : string).

(** A guild payload is a JSON object or a multipart form. *)
Inductive GuildPayload :=
| GJson (m : SendGuildMsg)
| GForm (fields : list FormField).

(** The accumulator returned by [initList], over the payload type [P] of the
    surface. *)
Record Draft (P : Type) := mkDraft {
  content : list string;
  image : list string;
  imageUrls : list string;
  imageFiles : list string;
  pasmsg : Pasmsg;
  reply_message_id : string;
  keyboard : list Element;
  button : list Element;
  markdown : list Element;
  markdownTpl : list Element;
  list_ : list P
}.
Arguments mkDraft {P}.
Arguments content {P}.
Arguments image {P}.
Arguments imageUrls {P}.
Arguments imageFiles {P}.
Arguments pasmsg {P}.
Arguments reply_message_id {P}.
Arguments keyboard {P}.
Arguments button {P}.
Arguments markdown {P}.
Arguments markdownTpl {P}.
Arguments list_ {P}.

(** Modelled from the spec: [initList] ([core/adapter/adapter.ts] is not
    among the sources).  Every bucket starts empty, there is no passive-reply
    id, and the reference type is a message; the starting sequence number is
    whatever the adapter seeds it with. *)
Definition initList {P} (seq0 : Z) : Draft P :=
  mkDraft [] [] [] [] (mkPasmsg SrcMsg "" seq0 false) "" [] [] [] [] [].

(** Modelled from the spec: [QQdMsgOptions] and [GuildMsgOptions]
    ([core/adapter/adapter.ts]): a payload of the given kind around the
    given argument, with no passive-reply member set. *)
Definition QQdMsgOptions (kind : QQKind) (arg : string) : SendQQMsg :=
  mkQQ kind arg None None None false.

Definition GuildMsgOptions (kind : GuildKind) (arg : string) (img : option string)
  : SendGuildMsg :=
  mkGuild kind arg img None None.

Inductive Api := SendFriendMsg | SendGroupMsg | SendChannelMsg | SendDmsMsg.

Record World := mkWorld {
  log : list (string * string);                      (* level, message *)
  sentQQ : list (Api * string * SendQQMsg);
  sentGuild : list (Api * string * GuildPayload)
}.

Definition world0 : World := mkWorld [] [] [].

(** Computations that write to the world and may throw. *)
Definition M (A : Type) : Type := World -> option A * World.

Definition ret {A} (a : A) : M A := fun w => (Some a, w).

Definition bind {A B} (m : M A) (k : A -> M B) : M B :=
  fun w => match m w with
           | (Some a, w') => k a w'
           | (None, w') => (None, w')
           end.

Definition lift {A} (o : option A) : M A := fun w => (o, w).

Definition logger (level msg : string) : M unit :=
  fun w => (Some tt, mkWorld (log w ++ [(level, msg)]) (sentQQ w) (sentGuild w)).

Declare Scope composer_scope.
Delimit Scope composer_scope with comp.
Notation "x <- m ;; k" := (bind m (fun x => k))
  (at level 100, m at next level, right associativity) : composer_scope.
Notation "m ;;; k" := (bind m (fun _ => k))
  (at level 100, right associativity) : composer_scope.
Open Scope composer_scope.

(** [for (const x of l) { s = await f(s, x) }] *)
Fixpoint foldM {A S} (f : S -> A -> M S) (l : list A) (s : S) : M S :=
  match l with
  | [] => ret s
  | x :: l' => s' <- f s x ;; foldM f l' s'
  end.

Definition join (l : list string) : string := String.concat "" l.

Definition unsupported_text : string := "不支持发送的消息类型".

Definition unsupported_log (v : Element) : string :=
  "[QQBot][" +:+ type_of v +:+ "] " +:+ unsupported_text.

Definition set_pasmsg {P} (p : Pasmsg) (l : Draft P) : Draft P :=
  mkDraft (content l) (image l) (imageUrls l) (imageFiles l) p
    (reply_message_id l) (keyboard l) (button l) (markdown l) (markdownTpl l)
    (list_ l).

Definition set_list {P} (x : list P) (l : Draft P) : Draft P :=
  mkDraft (content l) (image l) (imageUrls l) (imageFiles l) (pasmsg l)
    (reply_message_id l) (keyboard l) (button l) (markdown l) (markdownTpl l) x.

Definition push_content {P} (x : string) (l : Draft P) : Draft P :=
  mkDraft (content l ++ [x]) (image l) (imageUrls l) (imageFiles l) (pasmsg l)
    (reply_message_id l) (keyboard l) (button l) (markdown l) (markdownTpl l)
    (list_ l).

Definition push_images {P} (x : list string) (l : Draft P) : Draft P :=
  mkDraft (content l) (image l ++ x) (imageUrls l) (imageFiles l) (pasmsg l)
    (reply_message_id l) (keyboard l) (button l) (markdown l) (markdownTpl l)
    (list_ l).

Definition set_imageUrls {P} (x : list string) (l : Draft P) : Draft P :=
  mkDraft (content l) (image l) x (imageFiles l) (pasmsg l)
    (reply_message_id l) (keyboard l) (button l) (markdown l) (markdownTpl l)
    (list_ l).

Definition set_imageFiles {P} (x : list string) (l : Draft P) : Draft P :=
  mkDraft (content l) (image l) (imageUrls l) x (pasmsg l)
    (reply_message_id l) (keyboard l) (button l) (markdown l) (markdownTpl l)
    (list_ l).

Definition set_reply {P} (x : string) (l : Draft P) : Draft P :=
  mkDraft (content l) (image l) (imageUrls l) (imageFiles l) (pasmsg l) x
    (keyboard l) (button l) (markdown l) (markdownTpl l) (list_ l).

(** The four buckets that only collect elements. *)
Definition push_form {P} (v : Element) (l : Draft P) : Draft P :=
  match v with
  | EKeyboard _ =>
    mkDraft (content l) (image l) (imageUrls l) (imageFiles l) (pasmsg l)
      (reply_message_id l) (keyboard l ++ [v]) (button l) (markdown l)
      (markdownTpl l) (list_ l)
  | EButton _ =>
    mkDraft (content l) (image l) (imageUrls l) (imageFiles l) (pasmsg l)
      (reply_message_id l) (keyboard l) (button l ++ [v]) (markdown l)
      (markdownTpl l) (list_ l)
  | EMarkdown _ =>
    mkDraft (content l) (image l) (imageUrls l) (imageFiles l) (pasmsg l)
      (reply_message_id l) (keyboard l) (button l) (markdown l ++ [v])
      (markdownTpl l) (list_ l)
  | EMarkdownTpl _ =>
    mkDraft (content l) (image l) (imageUrls l) (imageFiles l) (pasmsg l)
      (reply_message_id l) (keyboard l) (button l) (markdown l)
      (markdownTpl l ++ [v]) (list_ l)
  | _ => l
  end.

(** [x] is truthy, for a string that may be null. *)
Definition truthy (x : option string) : bool :=
  match x with Some s => negb (String.eqb s "") | None => false end.

Definition startsWith (pre s : string) : bool := String.prefix pre s.

Definition media_type (v : Element) : string := type_of v.

(** *** The passive-reply closures *)

Definition is_friend (contact : Contact) : bool :=
  match scene contact with Friend => true | _ => false end.

(** [normal.ts], [sendQQMsg]: the closure built once per send.  The only
    [msg_seq++] sits outside the returned function. *)
Definition qq_pasmsg (contact : Contact) (p : Pasmsg)
  : Pasmsg * (SendQQMsg -> SendQQMsg) :=
  if is_wakeup p && is_friend contact then
    (p, fun item => mkQQ (q_kind item) (q_arg item) (q_msg_seq item) (q_msg_id item)
                      (q_event_id item) true)
  else if String.eqb (msg_id p) "" then (p, fun item => item)
  else
    let p := mkPasmsg (pm_type p) (msg_id p) (msg_seq p + 1) (is_wakeup p) in
    match pm_type p with
    | SrcMsg =>
      (p, fun item => mkQQ (q_kind item) (q_arg item) (Some (msg_seq p))
                        (Some (msg_id p)) (q_event_id item) (q_is_wakeup item))
    | SrcEvent =>
      (p, fun item => mkQQ (q_kind item) (q_arg item) (Some (msg_seq p))
                        (q_msg_id item) (Some (msg_id p)) (q_is_wakeup item))
    end.

(** [markdown.ts], [sendQQMsg]: the closure shares the counter
    [msgSeqCounter] with its later calls; a call takes the counter and gives
    back the next one.  [now] is [Date.now()]. *)
Definition md_qq_pasmsg (contact : Contact) (now : Z) (p : Pasmsg)
  : SendQQMsg -> Z -> SendQQMsg * Z :=
  if is_wakeup p && is_friend contact then
    fun item msgSeqCounter =>
      (mkQQ (q_kind item) (q_arg item) (q_msg_seq item) (q_msg_id item)
         (q_event_id item) true, msgSeqCounter)
  else if String.eqb (msg_id p) "" then
    let baseSeq := now mod 4294967295 in
    fun item msgSeqCounter =>
      (mkQQ (q_kind item) (q_arg item) (Some (baseSeq + msgSeqCounter))
         (q_msg_id item) (q_event_id item) (q_is_wakeup item), msgSeqCounter + 1)
  else
    let baseSeq := msg_seq p in
    fun item msgSeqCounter =>
      let currentSeq := baseSeq + msgSeqCounter in
      (match pm_type p with
       | SrcMsg => mkQQ (q_kind item) (q_arg item) (Some currentSeq)
                     (Some (msg_id p)) (q_event_id item) (q_is_wakeup item)
       | SrcEvent => mkQQ (q_kind item) (q_arg item) (Some currentSeq)
                       (q_msg_id item) (Some (msg_id p)) (q_is_wakeup item)
       end, msgSeqCounter + 1).

(** A stateful closure called on each payload of a list in turn. *)
Fixpoint call_each {P} (f : P -> Z -> P * Z) (items : list P) (counter : Z) : list P :=
  match items with
  | [] => []
  | item :: rest =>
    let '(item', counter') := f item counter in
    item' :: call_each f rest counter'
  end.

(** [sendGuildMsg], both files. *)
Definition guild_pasmsg (p : Pasmsg) : GuildPayload -> GuildPayload :=
  if String.eqb (msg_id p) "" then fun item => item
  else
    match pm_type p with
    | SrcMsg => fun item =>
      match item with
      | GForm fields => GForm (fields ++ [FMsgId (msg_id p)])
      | GJson m => GJson (mkGuild (g_kind m) (g_arg m) (g_image m)
                            (Some (msg_id p)) (g_event_id m))
      end
    | SrcEvent => fun item =>
      match item with
      | GForm fields => GForm (fields ++ [FEventId (msg_id p)])
      | GJson m => GJson (mkGuild (g_kind m) (g_arg m) (g_image m) (g_msg_id m)
                            (Some (msg_id p)))
      end
    end.

(** The [pasmsg] element, private/group surface, both files. *)
Definition qq_on_pasmsg (contact : Contact) (id : string) (source : Source)
  (wakeup : bool) (p : Pasmsg) : Pasmsg :=
  let type := match source with SrcEvent => SrcEvent | SrcMsg => pm_type p end in
  if wakeup && is_friend contact
  then mkPasmsg type "" (msg_seq p) true
  else mkPasmsg type id (msg_seq p) (is_wakeup p).

(** The [pasmsg] element, guild surface. *)
Definition guild_on_pasmsg (id : string) (source : Source) (p : Pasmsg) : Pasmsg :=
  let type := match source with SrcEvent => SrcEvent | SrcMsg => pm_type p end in
  mkPasmsg type id (msg_seq p) (is_wakeup p).

(** The adapter's configuration, the starting [msg_seq] of [initList], and
    the calls into the host and the platform.  [None] is a thrown exception
    or a rejected promise. *)
Record Host := mkHost {
  config : QQBotConfig;
  seq0 : Z;
  handleUrl : string -> list string -> list string;
  replaceAll : string -> string -> string -> option string;
  qrs : list string -> option (list string);
  mergeImage : list string -> option string;
  base64 : string -> option string;
  buffer : string -> option string;
  fileToUrl : string -> string -> string -> option string;
  uploadMedia : string -> string -> string -> string -> option string;
  detectImageType : string -> string -> string * string;
  markdownToButtonQQ : Draft SendQQMsg -> option (Draft SendQQMsg);
  markdownToButtonGuild : Draft GuildPayload -> option (Draft GuildPayload);
  responseQQ : Api -> string -> SendQQMsg -> option string;
  responseGuild : Api -> string -> GuildPayload -> option string;
  textToButton : string -> bool -> string * option (list Element)
}.

Section Pipelines.

Variable host : Host.

Definition sendQQ (api : Api) (target : string) (item : SendQQMsg) : M string :=
  fun w => (responseQQ host api target item,
            mkWorld (log w) (sentQQ w ++ [(api, target, item)]) (sentGuild w)).

Definition sendGuild (api : Api) (target : string) (item : GuildPayload) : M string :=
  fun w => (responseGuild host api target item,
            mkWorld (log w) (sentQQ w) (sentGuild w ++ [(api, target, item)])).

(** [urls.forEach(url => text = text.replace(new RegExp(url, 'g'), by))] *)
Fixpoint replaceUrls (urls : list string) (by_ text : string) : option string :=
  match urls with
  | [] => Some text
  | url :: rest =>
    match replaceAll host url by_ text with
    | Some text' => replaceUrls rest by_ text'
    | None => None
    end
  end.

(** [normal.ts], [hendleText]: the text, [qr] and [qrs] of its result. *)
Definition hendleText (text : string)
  : M (string * option string * option (list string)) :=
  let urls := handleUrl host text (Config.exclude (config host)) in
  match urls with
  | [] => ret (text, None, None)
  | _ =>
    text <- lift (replaceUrls urls "[请扫码查看]" text) ;;
    codes <- lift (qrs host urls) ;;
    match codes with
    | [q] => ret (text, Some q, None)
    | _ =>
      match mergeImage host codes with
      | Some merged => ret (text, Some merged, None)
      | None =>
        logger "warn"
          ("二维码合并失败，将发送 " +:+ pretty (length codes) +:+ " 个单独的二维码:") ;;;
        ret (text, None, Some codes)
      end
    end
  end.

(** The [text] branch of both loops of [normal.ts]. *)
Definition on_text {P} (text : string) (draft : Draft P) : M (Draft P) :=
  r <- hendleText text ;;
  let '(text, qr, qrs) := r in
  let draft := push_content text draft in
  if truthy qr then ret (push_images [default "" qr] draft)
  else
    match qrs with
    | Some (q :: more) => ret (push_images (q :: more) draft)
    | _ => ret draft
    end.

(** The [video]/[record] branch of the private/group loops. *)
Definition on_media (contact : Contact) (target : string) (v : Element) (file : string)
  (draft : Draft SendQQMsg) : M (Draft SendQQMsg) :=
  url <- (if startsWith "http" file then ret file
          else lift (fileToUrl host (type_of v) file
                       (type_of v +:+ "." +:+
                        match v with ERecord _ => "mp3" | _ => "mp4" end))) ;;
  res <- lift (uploadMedia host target (peer contact) (type_of v) url) ;;
  ret (set_list (list_ draft ++ [QQdMsgOptions QMedia res]) draft).

(** [normal.ts], [sendQQMsg]: one turn of the loop over the elements. *)
Definition qq_classify (contact : Contact) (target : string)
  (draft : Draft SendQQMsg) (v : Element) : M (Draft SendQQMsg) :=
  match v with
  | EText text => on_text text draft
  | EImage file => ret (push_images [file] draft)
  | EReply messageId =>
    let p := pasmsg draft in
    if String.eqb (msg_id p) ""
    then ret (set_pasmsg (mkPasmsg (pm_type p) messageId (msg_seq p) (is_wakeup p)) draft)
    else ret draft
  | EPasmsg id source wakeup =>
    ret (set_pasmsg (qq_on_pasmsg contact id source wakeup (pasmsg draft)) draft)
  | EKeyboard _ | EButton _ | EMarkdown _ | EMarkdownTpl _ => ret (push_form v draft)
  | EVideo file | ERecord file => on_media contact target v file draft
  | EAt _ | EFace _ | EOther _ =>
    logger "debug" (unsupported_log v) ;;; ret draft
  end.

Definition qq_api (contact : Contact) : Api :=
  if is_friend contact then SendFriendMsg else SendGroupMsg.

Definition qq_target (contact : Contact) : string :=
  if is_friend contact then "user" else "group".

(** [normal.ts], [sendQQMsg], from the end of the loop to the payload list
    that is about to be sent. *)
Definition qq_assemble (contact : Contact) (draft : Draft SendQQMsg)
  : M (Draft SendQQMsg) :=
  let target := qq_target contact in
  let draft := match content draft with
              | [] => draft
              | _ => set_list (QQdMsgOptions QText (join (content draft)) :: list_ draft) draft
              end in
  draft <- foldM (fun draft url =>
                   b64 <- lift (base64 host url) ;;
                   result <- lift (uploadMedia host target (peer contact) "image" b64) ;;
                   ret (set_list (list_ draft ++ [QQdMsgOptions QMedia result]) draft))
            (image draft) draft ;;
  lift (markdownToButtonQQ host draft).

(** The last two statements: the fallback payload and the send loop. *)
Definition qq_deliver (contact : Contact) (draft : Draft SendQQMsg) : M (list string) :=
  let '(p, pasmsg) := qq_pasmsg contact (pasmsg draft) in
  let draft := set_pasmsg p draft in
  let draft := match list_ draft with
              | [] => set_list [QQdMsgOptions QText unsupported_text] draft
              | _ => draft
              end in
  foldM (fun rawData item =>
           res <- sendQQ (qq_api contact) (peer contact) (pasmsg item) ;;
           ret (rawData ++ [res]))
    (list_ draft) [].

(** The loop over the elements and the assembly of the payload list. *)
Definition qq_compose (contact : Contact) (elements : list Element)
  : M (Draft SendQQMsg) :=
  draft <- foldM (qq_classify contact (qq_target contact)) elements
             (initList (seq0 host)) ;;
  qq_assemble contact draft.

Definition sendQQMsg (contact : Contact) (elements : list Element) : M (list string) :=
  draft <- qq_compose contact elements ;;
  qq_deliver contact draft.

(** [normal.ts], [sendGuildMsg]: one turn of the loop. *)
Definition guild_classify (contact : Contact) (draft : Draft GuildPayload) (v : Element)
  : M (Draft GuildPayload) :=
  match v with
  | EText text => on_text text draft
  | EImage file =>
    if startsWith "http" file
    then ret (set_imageUrls (imageUrls draft ++ [file]) draft)
    else ret (set_imageFiles (imageFiles draft ++ [file]) draft)
  | EAt targetId =>
    match scene contact with
    | Guild =>
      ret (push_content (if String.eqb targetId "all" then "@everyone"
                         else "<@" +:+ targetId +:+ ">") draft)
    | _ => ret draft
    end
  | EPasmsg id source _ =>
    ret (set_pasmsg (guild_on_pasmsg id source (pasmsg draft)) draft)
  | EReply messageId => ret (set_reply messageId draft)
  | EFace id => ret (push_content ("<emoji:" +:+ pretty id +:+ ">") draft)
  | EKeyboard _ | EButton _ | EMarkdown _ | EMarkdownTpl _ => ret (push_form v draft)
  | EVideo _ | ERecord _ | EOther _ =>
    logger "debug" (unsupported_log v) ;;; ret draft
  end.

Definition file_form (pre : list FormField) (file : string) : M GuildPayload :=
  buf <- lift (buffer host file) ;;
  let '(filename, contentType) := detectImageType host buf file in
  ret (GForm (pre ++ [FFileImage buf filename contentType])).

Definition guild_assemble (draft : Draft GuildPayload) : M (Draft GuildPayload) :=
  draft <- match content draft with
          | [] => ret draft
          | _ =>
            match imageUrls draft with
            | url :: urls =>
              ret (set_list (GJson (GuildMsgOptions GText (join (content draft)) (Some url))
                             :: list_ draft) (set_imageUrls urls draft))
            | [] =>
              match imageFiles draft with
              | file :: files =>
                formData <- file_form [FContent (join (content draft))] file ;;
                ret (set_list (formData :: list_ draft) (set_imageFiles files draft))
              | [] =>
                ret (set_list (GJson (GuildMsgOptions GText (join (content draft)) None)
                               :: list_ draft) draft)
              end
            end
          end ;;
  let draft := set_list (list_ draft ++
                        List.map (fun url => GJson (GuildMsgOptions GImage url None))
                          (imageUrls draft)) draft in
  draft <- foldM (fun draft file =>
                   formData <- file_form [] file ;;
                   ret (set_list (list_ draft ++ [formData]) draft))
            (imageFiles draft) draft ;;
  lift (markdownToButtonGuild host draft).

Definition guild_send (contact : Contact) (item : GuildPayload) : M string :=
  match scene contact with
  | Guild => sendGuild SendChannelMsg (subPeer contact) item
  | _ => sendGuild SendDmsMsg (peer contact) item
  end.

Definition guild_deliver (contact : Contact) (draft : Draft GuildPayload)
  : M (list string) :=
  let pasmsg := guild_pasmsg (pasmsg draft) in
  let draft := match list_ draft with
              | [] => set_list [GJson (GuildMsgOptions GText unsupported_text None)] draft
              | _ => draft
              end in
  foldM (fun rawData item =>
           res <- guild_send contact (pasmsg item) ;;
           ret (rawData ++ [res]))
    (list_ draft) [].

Definition guild_compose (contact : Contact) (elements : list Element)
  : M (Draft GuildPayload) :=
  draft <- foldM (guild_classify contact) elements (initList (seq0 host)) ;;
  guild_assemble draft.

Definition sendGuildMsg (contact : Contact) (elements : list Element) : M (list string) :=
  draft <- guild_compose contact elements ;;
  guild_deliver contact draft.

(** [markdown.ts], [sendQQMsg]: one turn of the loop.  The [at] branch of a
    group send has no [continue], so it runs on to the final log line. *)
Definition md_qq_classify (contact : Contact) (target : string)
  (draft : Draft SendQQMsg) (v : Element) : M (Draft SendQQMsg) :=
  match v with
  | EText text =>
    let '(text, buttons) := textToButton host text (is_friend contact) in
    let draft := push_content text draft in
    ret (match buttons with
         | Some bs =>
           mkDraft (content draft) (image draft) (imageUrls draft) (imageFiles draft)
             (pasmsg draft) (reply_message_id draft) (keyboard draft)
             (button draft ++ bs) (markdown draft) (markdownTpl draft) (list_ draft)
         | None => draft
         end)
  | EAt targetId =>
    if is_friend contact then ret draft
    else
      let draft := push_content
                    (if String.eqb targetId "all" then "<qqbot-at-everyone />"
                     else "<qqbot-at-user id=" +:+ String (ascii_of_nat 34) "" +:+ targetId
                          +:+ String (ascii_of_nat 34) "" +:+ " />") draft in
      logger "debug" (unsupported_log v) ;;; ret draft
  | EImage file => ret (push_images [file] draft)
  | EPasmsg id source wakeup =>
    ret (set_pasmsg (qq_on_pasmsg contact id source wakeup (pasmsg draft)) draft)
  | EKeyboard _ | EButton _ | EMarkdown _ | EMarkdownTpl _ => ret (push_form v draft)
  | EVideo file | ERecord file => on_media contact target v file draft
  | EFace _ | EReply _ | EOther _ =>
    logger "debug" (unsupported_log v) ;;; ret draft
  end.

(** [markdown.ts], [sendQQMsg] up to the call of the injected strategy: the
    draft and the passive-reply closure it is handed. *)
Definition md_sendQQMsg_prepare (contact : Contact) (now : Z) (elements : list Element)
  : M (Draft SendQQMsg * (SendQQMsg -> Z -> SendQQMsg * Z)) :=
  draft <- foldM (md_qq_classify contact (qq_target contact)) elements (initList (seq0 host)) ;;
  ret (draft, md_qq_pasmsg contact now (pasmsg draft)).

End Pipelines.

(** *** Notions used in the statements about this part *)

(** Two worlds that differ at most in their log. *)
Definition same_wire (w w' : World) : Prop :=
  sentQQ w = sentQQ w' /\ sentGuild w = sentGuild w'.

(** A computation that does not read the log: from worlds with the same
    wire it gives the same result and leaves the same wire. *)
Definition log_blind {A} (m : M A) : Prop :=
  forall w w', same_wire w w' -> (m w).1 = (m w').1 /\ same_wire (m w).2 (m w').2.

(** The tags the direct pipeline has no branch for, per surface. *)
Definition qq_unsupported (v : Element) : bool :=
  match v with EAt _ | EFace _ | EOther _ => true | _ => false end.

Definition guild_unsupported (v : Element) : bool :=
  match v with EVideo _ | ERecord _ | EOther _ => true | _ => false end.

Definition add_log (entry : string * string) (w : World) : World :=
  mkWorld (log w ++ [entry]) (sentQQ w) (sentGuild w).

Definition guild_body (item : GuildPayload) : option (GuildKind * string) :=
  match item with
  | GJson m => Some (g_kind m, g_arg m)
  | GForm _ => None
  end.

End Composer.

(** ** 4. Sample inputs *)

Module Samples.
Import Config.

(** A WebSocket-mode bot in private-domain guild mode. *)
Definition bot : QQBotConfig :=
  mkConfig "102030" "secret" "https://api.sgroup.qq.com"
    "https://sandbox.api.sgroup.qq.com" "https://bots.qq.com/app/getAppAccessToken"
    false true true 1 [] [("^/", "#")]
    (mkMarkdown 0 "" ["text_start"; "img_dec"; "img_url"; "text_end"])
    (mkEvent 2 "wss://sandbox.api.sgroup.qq.com/websocket/" "") None.

(** The same bot with webhook delivery. *)
Definition webhook_bot : QQBotConfig :=
  mkConfig "102030" "secret" "https://api.sgroup.qq.com"
    "https://sandbox.api.sgroup.qq.com" "https://bots.qq.com/app/getAppAccessToken"
    false true true 1 [] [("^/", "#")]
    (mkMarkdown 0 "" ["text_start"; "img_dec"; "img_url"; "text_end"])
    (mkEvent 1 "wss://sandbox.api.sgroup.qq.com/websocket/" "") None.

Definition tokens : gmap string string := {[ "102030" := "access-token" ]}.

Definition gateway_url : option string := Some "wss://api.sgroup.qq.com/websocket".

Definition hello : Gateway.Frame :=
  Gateway.mkFrame Gateway.Hello (Gateway.DHello 30000) None None.

Definition ready : Gateway.Frame :=
  Gateway.mkFrame Gateway.Dispatch (Gateway.DReady "session-1") (Some "READY") (Some 1).

Definition invalid_session : Gateway.Frame :=
  Gateway.mkFrame Gateway.InvalidSession (Gateway.DJson "false") None None.

(** A session brought to Ready: opened, gateway address fetched, socket
    open, Hello and READY received. *)
Definition to_ready : list Gateway.Event :=
  [Gateway.Open bot; Gateway.GatewayReply 0 gateway_url; Gateway.SocketOpen 0;
   Gateway.SocketMessage 0 hello; Gateway.SocketMessage 0 ready].

(** A first attempt still connecting while a second one is open and has
    received Hello. *)
Definition two_attempts : list Gateway.Event :=
  [Gateway.Open bot; Gateway.GatewayReply 0 gateway_url;
   Gateway.Open bot; Gateway.GatewayReply 1 gateway_url; Gateway.SocketOpen 1;
   Gateway.SocketMessage 1 hello].

(** A host whose calls all succeed and which has nothing to post-process. *)
Definition host : Composer.Host :=
  Composer.mkHost getDefaultConfig 100
    (fun _ _ => []) (fun _ _ text => Some text) (fun urls => Some urls)
    (fun _ => None) (fun url => Some url) (fun file => Some file)
    (fun _ file _ => Some file)
    (fun _ _ _ data => Some ("file_info:" +:+ data))
    (fun _ _ => ("image.jpg", "image/jpeg"))
    (fun draft => Some draft) (fun draft => Some draft)
    (fun _ _ _ => Some "ok") (fun _ _ _ => Some "ok")
    (fun text _ => (text, None)).

Definition group : Composer.Contact := Composer.mkContact Composer.Group "group-openid" "".

Definition channel : Composer.Contact :=
  Composer.mkContact Composer.Guild "guild-id" "channel-id".

(** A passive reply to message "msg-1" with a text and an image. *)
Definition reply_with_image : list Composer.Element :=
  [Composer.EPasmsg "msg-1" Composer.SrcMsg false; Composer.EText "hello";
   Composer.EImage "http://x/y.png"].

End Samples.

(** ** 5. The configuration store ([utils/config.ts]: [config],
       [getConfig])

    The watcher of the same file, [applyConfigChange], is not part of the
    model: what it does depends on [common.diffArray] of node-karin. *)

Module Store.
Import Config.

(** The module-level variables [cache], [cacheMap] and [lastApplied]. *)
Record State := mkStore {
  cache : option (list QQBotConfig);
  cacheMap : gmap string QQBotConfig;
  lastApplied : option (list QQBotConfig)
}.

Definition empty : State := mkStore None ∅ None.

(** [config.json] as [config()] finds it once [migrateLegacyConfigIfNeeded]
    and [ensureDir] have run: absent, or present with what [requireFileSync]
    makes of it ([None]: it throws). *)
Inductive File :=
| Absent
| Present (user : option (list RawConfig)).

(** [result.forEach(v => { cacheMap[v.appId] = v })]. An appId that names a
    member of [Object.prototype] is outside this model. *)
Definition remember (result : list QQBotConfig) (m : gmap string QQBotConfig)
  : gmap string QQBotConfig :=
  List.fold_left (fun m v => <[appId v := v]> m) result m.

(** [config()]: the list it returns, [None] when it throws. *)
Definition config (file : File) (st : State) : option (list QQBotConfig) * State :=
  match file with
  | Absent => (Some [], mkStore (Some []) (cacheMap st) (Some []))
  | Present user =>
    match cache st with
    | Some c => (Some c, st)
    | None =>
      match user with
      | None => (None, st)
      | Some user =>
        let result := formatConfig user in
        (Some result,
         mkStore (Some result) (remember result (cacheMap st)) (Some result))
      end
    end
  end.

Definition getConfig (appid : string) (st : State) : option QQBotConfig :=
  cacheMap st !! appid.

(** A formatted record handed back where a user item is expected, as the
    settings page does when it calls [writeConfig]: every key of
    [getDefaultConfig] is present. *)
Definition as_raw (y : QQBotConfig) : RawConfig :=
  {| r_appId := Some (appId y);
     r_secret := Some (secret y);
     r_prodApi := Some (prodApi y);
     r_sandboxApi := Some (sandboxApi y);
     r_tokenApi := Some (tokenApi y);
     r_sandbox := Some (sandbox y);
     r_qqEnable := Some (qqEnable y);
     r_guildEnable := Some (guildEnable y);
     r_guildMode := Some (guildMode y);
     r_exclude := Some (exclude y);
     r_regex := Some (regex y);
     r_markdown := Some {| r_mode := Some (md_mode (markdown y));
                           r_id := Some (md_id (markdown y));
                           r_kv := Some (md_kv (markdown y)) |};
     r_event := Some {| r_type := Some (ev_type (event y));
                        r_wsUrl := Some (wsUrl (event y));
                        r_wsToken := Some (wsToken (event y)) |};
     r_enableConvert := enableConvert y |}.

End Store.

(** ** 6. Image type detection ([core/adapter/normal.ts]:
       [detectImageType]) *)

Module Images.
Import Config.

(** [toLowerCase] on the UTF-8 bytes of a path: the ASCII capitals move
    down.  No other character lowers to one of the letters of the five
    extensions right before the end of the string, so the match below sees
    what the source's regular expression sees. *)
Definition lower (a : N) : N :=
  if ((65 <=? a) && (a <=? 90))%N then (a + 32)%N else a.

Definition toLowerCase (s : string) : list N := List.map lower (bytes_of s).

Fixpoint starts_with (p l : list N) : bool :=
  match p, l with
  | [], _ => true
  | a :: p', b :: l' => (a =? b)%N && starts_with p' l'
  | _ :: _, [] => false
  end.

Definition ends_with (suffix l : list N) : bool :=
  starts_with (List.rev suffix) (List.rev l).

(** The alternatives of [/\.(jpg|jpeg|png|gif|webp)$/], in order. *)
Definition extensions : list string := ["jpg"; "jpeg"; "png"; "gif"; "webp"].

(** [filePath.toLowerCase().match(/\.(jpg|jpeg|png|gif|webp)$/)?.[1]] *)
Definition extension (filePath : string) : option string :=
  List.find (fun ext => ends_with (bytes_of ("." +:+ ext)) (toLowerCase filePath))
    extensions.

Definition mimeMap (ext : string) : option string :=
  if String.eqb ext "jpg" then Some "image/jpeg"
  else if String.eqb ext "jpeg" then Some "image/jpeg"
  else if String.eqb ext "png" then Some "image/png"
  else if String.eqb ext "gif" then Some "image/gif"
  else if String.eqb ext "webp" then Some "image/webp"
  else None.

(** [header[i] === b]; an index past the end reads [undefined]. *)
Definition byte_at (header : list N) (i : nat) (b : N) : bool :=
  match header !! i with
  | Some x => (x =? b)%N
  | None => false
  end.

(** The file name and the content type. *)
Definition detectImageType (buffer : list N) (filePath : option string)
  : string * string :=
  let ext := match filePath with
             | Some p => if String.eqb p "" then None else extension p
             | None => None
             end in
  match ext with
  | Some ext => ("image." +:+ ext, default "image/jpeg" (mimeMap ext))
  | None =>
    let header := take 12 buffer in
    if byte_at header 0 0x89 && byte_at header 1 0x50 && byte_at header 2 0x4E
       && byte_at header 3 0x47
    then ("image.png", "image/png")
    else if byte_at header 0 0xFF && byte_at header 1 0xD8 && byte_at header 2 0xFF
    then ("image.jpg", "image/jpeg")
    else if byte_at header 0 0x47 && byte_at header 1 0x49 && byte_at header 2 0x46
            && byte_at header 3 0x38
    then ("image.gif", "image/gif")
    else if byte_at header 0 0x52 && byte_at header 1 0x49 && byte_at header 2 0x46
            && byte_at header 3 0x46 && byte_at header 8 0x57
            && byte_at header 9 0x45 && byte_at header 10 0x42
            && byte_at header 11 0x50
    then ("image.webp", "image/webp")
    else ("image.jpg", "image/jpeg")
  end.

(** The five results the function can give. *)
Definition image_types : list (string * string) :=
  [("image.jpg", "image/jpeg"); ("image.jpeg", "image/jpeg");
   ("image.png", "image/png"); ("image.gif", "image/gif");
   ("image.webp", "image/webp")].

End Images.

(** ** 7. Bot instances ([createBot], [createClient], [stopRuntime]; in
       the sources they follow [core/adapter/normal.ts])

    One call of [createBot] is followed from its first statement to its
    return or throw; what its awaited calls gave is an argument.  Calls are
    made one after the other, as [applyConfigChange] makes them.  The index
    that [registerBot] returns, stored in [client.adapter.index], is not
    modelled, and neither is [createEvent]. *)

Module Bots.
Import Config.

Inductive AdapterKind :=
| Normal             (* AdapterQQBotNormal *)
| RawMarkdown        (* AdapterQQBotMarkdown around rawMarkdown *)
| GraphicTemplate.   (* AdapterQQBotMarkdown around GraphicTemplateMarkdown *)

(** [createClient]: which adapter is constructed. *)
Definition createClient (cfg : QQBotConfig) : AdapterKind :=
  let mode := md_mode (markdown cfg) in
  if mode =? 0 then Normal
  else if mode =? 1 then RawMarkdown
  else if (3 <=? mode) && (mode <=? 5) then GraphicTemplate
  else Normal.

Inductive RegType := WebSocketClient | Http.

(** What [api.getMe()] resolved with; an absent member is the empty
    string. *)
Record Me := mkMe {
  me_id : string;
  me_username : string;
  me_avatar : string;
  me_share_url : string;
  me_union_openid : string
}.

(** A client object: the adapter that was constructed, the configuration
    it captured, and the members [createBot] assigns. *)
Record Client := mkClient {
  kind : AdapterKind;
  _config : QQBotConfig;
  name : string;
  avatar : string;
  selfId : string;
  sub_id : string;
  sub_qq : string;
  sub_appid : string;
  sub_union_openid : string;
  address : string;
  adapter_secret : string;
  version : string
}.

Record BotInstance := mkInstance {
  client : nat;                       (* the client object, by reference *)
  config : QQBotConfig;
  registered : bool;
  registeredType : option RegType
}.

(** Calls out of this file whose effect lies elsewhere. *)
Inductive Call :=
| StopWebSocketConnection (appId : string)
| CreateWebSocketConnection (bot : QQBotConfig) (client : nat)
| GetAccessToken (appId secret : string)
| GetMe (appId : string).

Record State := mkState {
  botInstances : gmap string BotInstance;
  clients : list Client;                       (* the client objects made so far *)
  listeners : gmap string (list nat);          (* event.on(appId, ...), by client *)
  registry : list (RegType * nat);             (* registerBot(type, client) *)
  calls : list Call
}.

Definition init : State := mkState ∅ [] ∅ [] [].

(** What the awaited calls of one [createBot] gave. *)
Record Net := mkNet {
  token : bool;                                (* getAccessToken fulfilled *)
  me : option Me;                              (* getMe: None when it rejects or gives null *)
  robot_uin : string -> option (option string);
                                               (* new URL(s).searchParams.get('robot_uin');
                                                  None when the URL constructor throws *)
  pkg_version : string;                        (* pkg().version *)
  ws : bool                                    (* createWebSocketConnection resolved true *)
}.

Inductive Outcome := Returned | Threw.

Definition call (c : Call) (st : State) : State :=
  mkState (botInstances st) (clients st) (listeners st) (registry st) (calls st ++ [c]).

(** [stopRuntime] *)
Definition stopRuntime (appId : string) (st : State) : State :=
  let st := call (StopWebSocketConnection appId) st in
  mkState (botInstances st) (clients st) (delete appId (listeners st)) (registry st)
    (calls st).

(** [event.on(appId, evt => createEvent(client, evt))] *)
Definition event_on (appId : string) (c : nat) (st : State) : State :=
  mkState (botInstances st) (clients st)
    (<[appId := default [] (listeners st !! appId) ++ [c]]> (listeners st))
    (registry st) (calls st).

Definition set_instances (f : gmap string BotInstance -> gmap string BotInstance)
  (st : State) : State :=
  mkState (f (botInstances st)) (clients st) (listeners st) (registry st) (calls st).

Definition set_clients (f : list Client -> list Client) (st : State) : State :=
  mkState (botInstances st) (f (clients st)) (listeners st) (registry st) (calls st).

(** [registerBot(type, client)] *)
Definition registerBot (t : RegType) (c : nat) (st : State) : State :=
  mkState (botInstances st) (clients st) (listeners st) (registry st ++ [(t, c)])
    (calls st).

Definition or_else (x d : string) : string := if String.eqb x "" then d else x.

Definition api_url (bot : QQBotConfig) : string :=
  if sandbox bot then sandboxApi bot else prodApi bot.

(** The [catch] block. *)
Definition failed (appId : string) (st : State) : Outcome * State :=
  (Threw, set_instances (delete appId) (stopRuntime appId st)).

Definition createBot (net : Net) (bot : QQBotConfig) (st : State) : Outcome * State :=
  let appId := appId bot in
  if ev_type (event bot) =? 0 then
    (Returned, set_instances (delete appId) (stopRuntime appId st))
  else
    match botInstances st !! appId with
    | Some existing =>
      let st := stopRuntime appId st in
      let st := set_instances
                  (<[appId := mkInstance (client existing) bot (registered existing)
                                (registeredType existing)]>) st in
      let st := set_clients
                  (alter (fun c => mkClient (kind c) (_config c) (name c) (avatar c)
                                     (selfId c) (sub_id c) (sub_qq c) (sub_appid c)
                                     (sub_union_openid c) (api_url bot) (secret bot)
                                     (pkg_version net)) (client existing)) st in
      let st := event_on appId (client existing) st in
      let st := if ev_type (event bot) =? 2
                then call (CreateWebSocketConnection bot (client existing)) st
                else st in
      (Returned, st)
    | None =>
      let st := call (GetAccessToken appId (secret bot)) st in
      if negb (token net) then failed appId st else
      let st := call (GetMe appId) st in
      match me net with
      | None => failed appId st
      | Some data =>
        if String.eqb (me_id data) "" then failed appId st else
        let qq := if String.eqb (me_share_url data) "" then Some appId
                  else match robot_uin net (me_share_url data) with
                       | Some found => Some (or_else (default "" found) appId)
                       | None => None
                       end in
        match qq with
        | None => failed appId st
        | Some qq =>
          let c := length (clients st) in
          let st := set_clients
                      (fun l => l ++ [mkClient (createClient bot) bot
                                        (or_else (me_username data) ("Bot_" +:+ appId))
                                        (me_avatar data) appId (me_id data) qq appId
                                        (or_else (me_union_openid data) appId)
                                        (api_url bot) (secret bot) (pkg_version net)]) st in
          if ev_type (event bot) =? 2 then
            let st := call (CreateWebSocketConnection bot c) st in
            if negb (ws net) then (Returned, st) else
            let st := event_on appId c st in
            let st := registerBot WebSocketClient c st in
            (Returned,
             set_instances (<[appId := mkInstance c bot true (Some WebSocketClient)]>) st)
          else
            let st := event_on appId c st in
            let st := registerBot Http c st in
            (Returned, set_instances (<[appId := mkInstance c bot true (Some Http)]>) st)
        end
      end
    end.

(** Calls of [createBot] made one after the other. *)
Definition run (l : list (Net * QQBotConfig)) (st : State) : State :=
  List.fold_left (fun st c => (createBot c.1 c.2 st).2) l st.

(** *** Notions used in the statements about this part *)

Definition listeners_of (st : State) (appId : string) : list nat :=
  default [] (listeners st !! appId).

(** Every instance is marked registered, with the type and the client of a
    [registerBot] call that was made, and its client is the one and only
    listener of its identity; an identity without an instance has no
    listener. *)
Definition tidy (st : State) : Prop :=
  forall appId,
    match botInstances st !! appId with
    | Some inst =>
      listeners_of st appId = [client inst]
      /\ registered inst = true
      /\ exists t, registeredType inst = Some t /\ (t, client inst) ∈ registry st
    | None => listeners_of st appId = []
    end.

End Bots.

(** ** 8. The settings page ([web.config.ts]: [save], and the regex field
       of [components]; in the sources it follows the older copy of
       [connection/webSocket.ts]) *)

Module WebUI.
Import Config Store.

(** A JavaScript number as far as [save] tells numbers apart: an integer,
    NaN, or any other value (a fraction or an infinity), which is truthy
    and equal to no integer. *)
Inductive JsNumber := JInt (z : Z) | JNaN | JOther.

(** A field typed [string | number]. *)
Inductive Choice := Str (s : string) | Num (n : JsNumber).

(** One item of [config.qqbot], by its declared type. *)
Record Item := mkItem {
  i_appId : string;
  i_secret : string;
  i_sandbox : bool;
  i_qqEnable : bool;
  i_guildEnable : bool;
  i_guildMode : Choice;
  i_exclude : list string;
  i_regex : list string;
  i_markdownMode : Choice;
  i_markdownId : string;
  i_markdownKv : list string;
  i_eventType : Choice
}.

(** *** The regex field: [<reg> <rep>] *)

(** The length in bytes of the white-space character at the head of [l],
    0 when there is none. *)
Definition ws_len (l : list N) : nat :=
  match l with
  | a :: l1 =>
    if ws1 a then 1%nat else
    match l1 with
    | b :: l2 =>
      if ws2 a b then 2%nat else
      match l2 with
      | c :: _ => if ws3 a b c then 3%nat else 0%nat
      | [] => 0%nat
      end
    | [] => 0%nat
    end
  | [] => 0%nat
  end.

(** [split(/\s+/)]: [skip] bytes of the current white-space character are
    still to pass, [in_run] says that the scan is inside a run of white
    space, [cur] is the current piece, reversed. *)
Fixpoint split_go (l : list N) (skip : nat) (in_run : bool) (cur : list N)
  : list (list N) :=
  match l with
  | [] => [List.rev cur]
  | a :: l' =>
    match skip with
    | S k => split_go l' k in_run cur
    | O =>
      match ws_len l with
      | O => split_go l' 0 false (a :: cur)
      | S k =>
        if in_run then split_go l' k true cur
        else List.rev cur :: split_go l' k true []
      end
    end
  end.

Definition split_ws (l : list N) : list (list N) := split_go l 0 false [].

(** [.replace(/^<|>$/g, '')]: one leading [<] and one trailing [>] go. *)
Definition strip_angle (l : list N) : list N :=
  let l1 := match l with
            | a :: t => if (a =? 60)%N then t else l
            | [] => l
            end in
  match List.rev l1 with
  | a :: t => if (a =? 62)%N then List.rev t else l1
  | [] => l1
  end.

(** [.join(' ')] *)
Fixpoint join_sp (parts : list (list N)) : list N :=
  match parts with
  | [] => []
  | [p] => p
  | p :: rest => p ++ 32%N :: join_sp rest
  end.

(** The function mapped over [item.regex]. *)
Definition processRegex (regexItem : string) : string * string :=
  match split_ws (bytes_of (trim regexItem)) with
  | p0 :: p1 :: more =>
    (string_of (strip_angle p0), string_of (strip_angle (join_sp (p1 :: more))))
  | _ => ("", "")
  end.

Definition processedRegex (regex : list string) : list (string * string) :=
  List.filter (fun r => negb (String.eqb r.1 "") && negb (String.eqb r.2 ""))
    (List.map processRegex regex).

(** [components]: how a regex pair is shown,
    [`<${String(r.reg || '')}> <${String(r.rep || '')}>`]. *)
Definition regex_field (r : string * string) : string :=
  "<" +:+ r.1 +:+ "> <" +:+ r.2 +:+ ">".

(** *** [components]: what the page shows *)

(** The item built for one record of [config()].  Its [title] and
    [subtitle] are left out: [save] does not read them.  A record of
    [config()] has every key, so the [!== undefined] tests hold; [String]
    of an integer is its decimal form. *)
Definition item_of (item : QQBotConfig) : Item :=
  {| i_appId := appId item;
     i_secret := secret item;
     i_sandbox := sandbox item;
     i_qqEnable := qqEnable item;
     i_guildEnable := guildEnable item;
     i_guildMode := Num (JInt (guildMode item));
     i_exclude := exclude item;
     i_regex := List.map regex_field (regex item);
     i_markdownMode := Str (pretty (md_mode (markdown item)));
     i_markdownId := md_id (markdown item);
     i_markdownKv := md_kv (markdown item);
     i_eventType := Str (pretty (ev_type (event item))) |}.

(** *** [save] *)

Section Save.

(** [Number] on a string (StringToNumber of ECMAScript). *)
Variable Number : string -> JsNumber.

(** [x || 0] on a number. *)
Definition or_zero (n : JsNumber) : JsNumber :=
  match n with
  | JInt 0 | JNaN => JInt 0
  | _ => n
  end.

(** [typeof x === 'string' ? Number(x) : Number(x) || 0] *)
Definition numeric (x : Choice) : JsNumber :=
  match x with
  | Str s => Number s
  | Num n => or_zero n
  end.

(** [allowed.includes(n) ? n : 0] *)
Definition one_of (allowed : list Z) (n : JsNumber) : Z :=
  match n with
  | JInt z => if bool_decide (z ∈ allowed) then z else 0
  | _ => 0
  end.

Definition guildMode_of (x : Choice) : Z :=
  let guildMode := match x with
                   | Str s => if String.eqb s "1" then JInt 1 else JInt 0
                   | Num n => or_zero n
                   end in
  match guildMode with
  | JInt 1 => 1
  | _ => 0
  end.

(** The record pushed to [data] for an item that has both required
    fields. *)
Definition record_of (item : Item) : QQBotConfig :=
  {| appId := i_appId item;
     secret := i_secret item;
     prodApi := "https://api.sgroup.qq.com";
     sandboxApi := "https://sandbox.api.sgroup.qq.com";
     tokenApi := "https://bots.qq.com/app/getAppAccessToken";
     sandbox := i_sandbox item;
     qqEnable := i_qqEnable item;
     guildEnable := i_guildEnable item;
     guildMode := guildMode_of (i_guildMode item);
     exclude := i_exclude item;
     regex := processedRegex (i_regex item);
     markdown := {| md_mode := one_of [0; 1; 3; 4; 5] (numeric (i_markdownMode item));
                    md_id := i_markdownId item;
                    md_kv := i_markdownKv item |};
     event := {| ev_type := one_of [0; 1; 2] (numeric (i_eventType item));
                 wsUrl := "wss://sandbox.api.sgroup.qq.com/websocket/";
                 wsToken := "" |};
     enableConvert := None |}.

(** [if (!item.appId || !item.secret) return] *)
Definition required (item : Item) : bool :=
  negb (String.eqb (i_appId item) "") && negb (String.eqb (i_secret item) "").

Definition collect (items : list Item) : list QQBotConfig :=
  List.map record_of (List.filter required items).

Record SaveResult := mkResult {
  success : bool;
  message : string
}.

(** [save], with what it handed to [fs.writeFileSync] through
    [writeConfig], if it got that far.  The [catch] branch, reached when
    the write throws, is left out. *)
Definition save (items : list Item) : SaveResult * option (list RawConfig) :=
  let data := collect items in
  match data with
  | [] => (mkResult false "没有有效的配置项可保存", None)
  | _ =>
    let finalData := dedupe data in
    match finalData with
    | [] => (mkResult false "没有有效的配置项可保存（去重后为空）", None)
    | _ =>
      (mkResult true ("成功保存 " +:+ pretty (length data) +:+ " 个配置项"),
       Some (writeConfig (List.map as_raw finalData)))
    end
  end.

End Save.

(** *** Notions used in the statements about this part *)

(** No white-space character begins anywhere in [s]. *)
Definition no_space (s : string) : Prop :=
  forall n, ws_len (drop n (bytes_of s)) = 0%nat.

(** A record with the five endpoint values of [getDefaultConfig] and
    without [enableConvert]. *)
Definition built_in (y : QQBotConfig) : QQBotConfig :=
  let def := getDefaultConfig in
  {| appId := appId y;
     secret := secret y;
     prodApi := prodApi def;
     sandboxApi := sandboxApi def;
     tokenApi := tokenApi def;
     sandbox := sandbox y;
     qqEnable := qqEnable y;
     guildEnable := guildEnable y;
     guildMode := guildMode y;
     exclude := exclude y;
     regex := regex y;
     markdown := markdown y;
     event := {| ev_type := ev_type (event y);
                 wsUrl := wsUrl (event def);
                 wsToken := wsToken (event def) |};
     enableConvert := None |}.

(** A record whose values the fields of the page can hold: a secret, the
    modes and the event type among the choices offered, and regex pairs
    that have two sides without white space. *)
Definition enterable (y : QQBotConfig) : Prop :=
  secret y <> ""
  /\ guildMode y ∈ [0; 1]
  /\ md_mode (markdown y) ∈ [0; 1; 3; 4; 5]
  /\ ev_type (event y) ∈ [0; 1; 2]
  /\ Forall (fun r => r.1 <> "" /\ r.2 <> "" /\ no_space r.1 /\ no_space r.2) (regex y).

End WebUI.

(** ** 9. Further notions about the session manager *)

Module GatewayNotions.
Import Config Gateway.

(** The last sequence number each attempt's socket has recorded. *)
Definition sfoot (st : State) : list (option Z) :=
  (fun a => lastSeq <$> socket a) <$> attempts st.

(** The promise and the 10 s timer of each attempt. *)
Definition tfoot (st : State) : list (option bool * bool) :=
  (fun a => (resolved a, connectionTimeout a)) <$> attempts st.

(** The 10 s timer of an attempt is armed exactly while its promise is
    pending. *)
Definition timer_ok (st : State) : Prop :=
  forall i a, attempts st !! i = Some a ->
    (connectionTimeout a = true <-> resolved a = None).

(** No reconnect is counted, none is suspended, and no attempt is awaited
    by one; [n] attempts have been made. *)
Definition quiet (n : nat) (st : State) : Prop :=
  rfoot st = (∅, [], replicate n None).

End GatewayNotions.

(** ** 10. The rest of the composer ([core/adapter/normal.ts]: the
       payload list of a guild send; [core/adapter/markdown.ts]:
       [sendGuildMsg]) *)

Module ComposerParts.
Import Config Composer.


(** [markdown.ts], [sendGuildMsg]: one turn of the loop. *)
Definition md_guild_classify (host : Host) (contact : Contact)
  (draft : Draft GuildPayload) (v : Element) : M (Draft GuildPayload) :=
  match v with
  | EText text =>
    let '(text, buttons) :=
      textToButton host text (match scene contact with Direct => true | _ => false end) in
    let draft := push_content text draft in
    ret (match buttons with
         | Some bs =>
           mkDraft (content draft) (image draft) (imageUrls draft) (imageFiles draft)
             (pasmsg draft) (reply_message_id draft) (keyboard draft)
             (button draft ++ bs) (markdown draft) (markdownTpl draft) (list_ draft)
         | None => draft
         end)
  | EImage file => ret (push_images [file] draft)
  | EAt targetId =>
    match scene contact with
    | Guild =>
      ret (push_content
             (if String.eqb targetId "all" then "<qqbot-at-everyone />"
              else "<qqbot-at-user id=" +:+ String (ascii_of_nat 34) "" +:+ targetId
                   +:+ String (ascii_of_nat 34) "" +:+ " />") draft)
    | _ => ret draft
    end
  | EPasmsg id source _ =>
    ret (set_pasmsg (guild_on_pasmsg id source (pasmsg draft)) draft)
  | EReply messageId => ret (set_reply messageId draft)
  | EFace id => ret (push_content ("<emoji:" +:+ pretty id +:+ ">") draft)
  | EKeyboard _ | EButton _ | EMarkdown _ | EMarkdownTpl _ => ret (push_form v draft)
  | EVideo _ | ERecord _ | EOther _ =>
    logger "debug" (unsupported_log v) ;;; ret draft
  end.

(** [markdown.ts], [sendGuildMsg] up to the call of the injected strategy:
    the draft and the passive-reply closure it is handed. *)
Definition md_sendGuildMsg_prepare (host : Host) (contact : Contact)
  (elements : list Element)
  : M (Draft GuildPayload * (GuildPayload -> GuildPayload)) :=
  draft <- foldM (md_guild_classify host contact) elements (initList (seq0 host)) ;;
  ret (draft, guild_pasmsg (pasmsg draft)).

(** *** Notions used in the further statements about this part *)

(** A computation that hands nothing to the platform. *)
Definition silent {A} (m : M A) : Prop := forall w, same_wire (m w).2 w.

(** What one turn of the private/group loop of [normal.ts] does to
    [list.pasmsg]. *)
Definition qq_reference (contact : Contact) (p : Pasmsg) (v : Element) : Pasmsg :=
  match v with
  | EReply messageId =>
    if String.eqb (msg_id p) ""
    then mkPasmsg (pm_type p) messageId (msg_seq p) (is_wakeup p)
    else p
  | EPasmsg id source wakeup => qq_on_pasmsg contact id source wakeup p
  | _ => p
  end.

Definition is_pasmsg (v : Element) : bool :=
  match v with EPasmsg _ _ _ => true | _ => false end.

Definition is_reply (v : Element) : bool :=
  match v with EReply _ => true | _ => false end.

Definition from_event (v : Element) : bool :=
  match v with EPasmsg _ SrcEvent _ => true | _ => false end.

(** The tags the loops of [markdown.ts] have no branch for, per surface. *)
Definition md_qq_unsupported (v : Element) : bool :=
  match v with EFace _ | EReply _ | EOther _ => true | _ => false end.

Definition md_guild_unsupported (v : Element) : bool :=
  match v with EVideo _ | ERecord _ | EOther _ => true | _ => false end.

(** The payloads a send loop hands over before it stops: every payload up
    to and including the first one the platform refuses. *)
Fixpoint attempted {P} (ok : P -> bool) (items : list P) : list P :=
  match items with
  | [] => []
  | item :: rest => item :: (if ok item then attempted ok rest else [])
  end.

End ComposerParts.

(** ** 11. More sample inputs *)

Module Cases.
Import Config.

(** [config.json] holding the sample bot with every key written out. *)
Definition file : list RawConfig := [Store.as_raw Samples.bot].

(** A session that has opened its socket and received Hello. *)
Definition to_hello : list Gateway.Event :=
  [Gateway.Open Samples.bot; Gateway.GatewayReply 0 Samples.gateway_url;
   Gateway.SocketOpen 0; Gateway.SocketMessage 0 Samples.hello].

(** The sample host with a [common.base64] and a [common.buffer] that
    fail. *)
Definition offline_host : Composer.Host :=
  Composer.mkHost getDefaultConfig 100
    (fun _ _ => []) (fun _ _ text => Some text) (fun urls => Some urls)
    (fun _ => None) (fun _ => None) (fun _ => None)
    (fun _ file _ => Some file)
    (fun _ _ _ data => Some ("file_info:" +:+ data))
    (fun _ _ => ("image.jpg", "image/jpeg"))
    (fun draft => Some draft) (fun draft => Some draft)
    (fun _ _ _ => Some "ok") (fun _ _ _ => Some "ok")
    (fun text _ => (text, None)).


(** Awaited calls that all succeed. *)
Definition online : Bots.Net :=
  Bots.mkNet true (Some (Bots.mkMe "bot-id" "Sample" "" "" "")) (fun _ => Some None)
    "1.0.0" true.

(** The access token cannot be fetched. *)
Definition no_token : Bots.Net :=
  Bots.mkNet false None (fun _ => Some None) "1.0.0" false.

(** The sample bot switched to the raw markdown adapter. *)
Definition markdown_bot : QQBotConfig :=
  mkConfig "102030" "secret" "https://api.sgroup.qq.com"
    "https://sandbox.api.sgroup.qq.com" "https://bots.qq.com/app/getAppAccessToken"
    false true true 1 [] [("^/", "#")]
    (mkMarkdown 1 "" ["text_start"; "img_dec"; "img_url"; "text_end"])
    (mkEvent 1 "wss://sandbox.api.sgroup.qq.com/websocket/" "") None.

(** [Number] on the strings the settings page sends. *)
Definition Number (s : string) : WebUI.JsNumber :=
  if String.eqb s "0" then WebUI.JInt 0
  else if String.eqb s "1" then WebUI.JInt 1
  else if String.eqb s "2" then WebUI.JInt 2
  else if String.eqb s "3" then WebUI.JInt 3
  else if String.eqb s "4" then WebUI.JInt 4
  else if String.eqb s "5" then WebUI.JInt 5
  else WebUI.JNaN.

(** Two items of the settings page with the same appId, the second one in
    WebSocket mode. *)
Definition items : list WebUI.Item :=
  [WebUI.mkItem "102030" "old-secret" false true true (WebUI.Str "0") [] ["<^/> <#>"]
     (WebUI.Str "0") "" ["text_start"; "img_dec"; "img_url"; "text_end"] (WebUI.Str "1");
   WebUI.mkItem "102030" "secret" false true true (WebUI.Str "1") [] ["<^/> <#>"]
     (WebUI.Str "0") "" ["text_start"; "img_dec"; "img_url"; "text_end"] (WebUI.Str "2")].

End Cases.

(** * Properties *)

(** ** The configuration round trip *)

Module ConfigFacts.
Import Config.

Lemma or_default_nonempty x d : d <> "" -> or_default x d <> "".
Proof.
  intros Hd. unfold or_default. destruct x as [v|]; [|done].
  destruct (String.eqb_spec v ""); done.
Qed.

Lemma formatItem_formatted item : formatted (formatItem item).
Proof.
  unfold formatted, formatItem; cbn [prodApi sandboxApi tokenApi event wsUrl].
  repeat split; apply or_default_nonempty; discriminate.
Qed.

Lemma or_default_strip v d : v <> "" -> or_default (strip v d) d = v.
Proof.
  intros Hv. unfold strip, or_default.
  destruct (String.eqb_spec v d) as [->|Hne]; [done|].
  destruct (String.eqb_spec v ""); done.
Qed.

Lemma or_default_strip_empty v : or_default (strip v "") "" = v.
Proof.
  unfold strip, or_default.
  destruct (String.eqb_spec v "") as [->|Hne]; [done|].
  destruct (String.eqb_spec v ""); done.
Qed.

(** Re-reading a cleaned event gives the event back. *)
Lemma event_roundtrip (e : EventConfig) :
  wsUrl e <> "" ->
  let def := event getDefaultConfig in
  mkEvent (spread (chain (cleanEvent e) r_type) (ev_type def))
          (or_default (chain (cleanEvent e) r_wsUrl) (wsUrl def))
          (or_default (chain (cleanEvent e) r_wsToken) (wsToken def)) = e.
Proof.
  intros Hurl def. destruct e as [ty url tok]; cbn [wsUrl] in Hurl.
  unfold cleanEvent; cbn [ev_type wsUrl wsToken].
  change (wsToken (event getDefaultConfig)) with "".
  set (d := wsUrl (event getDefaultConfig)).
  unfold event_keys; cbn [r_type r_wsUrl r_wsToken has_key].
  destruct ((ty =? 0) && _) eqn:Hk.
  - apply andb_true_iff in Hk as [Hty Hkeys].
    apply Z.eqb_eq in Hty. subst ty.
    cbn [chain spread or_default].
    unfold strip in Hkeys.
    destruct (String.eqb_spec url d) as [->|]; [|destruct (String.eqb tok ""); done].
    destruct (String.eqb_spec tok "") as [->|]; done.
  - cbn [chain spread r_type r_wsUrl r_wsToken].
    subst def. cbn [ev_type].
    rewrite or_default_strip by done.
    change (wsToken (event getDefaultConfig)) with "".
    by rewrite or_default_strip_empty.
Qed.

(** One record: formatting what [cleanConfigForWrite] left of a formatted
    record restores it. *)
Lemma formatItem_cleanItem y : formatted y -> formatItem (cleanItem y) = y.
Proof.
  intros (Hp & Hs & Ht & Hw).
  destruct y as [aid sec pa sa ta sb qe ge gm ex re [mm mi mk] ev ec].
  cbn [prodApi sandboxApi tokenApi event] in *.
  unfold formatItem, cleanItem.
  cbn [r_appId r_secret r_prodApi r_sandboxApi r_tokenApi r_sandbox r_qqEnable
       r_guildEnable r_guildMode r_exclude r_regex r_markdown r_event
       r_enableConvert appId secret prodApi sandboxApi tokenApi sandbox qqEnable
       guildEnable guildMode exclude regex markdown event enableConvert
       md_mode md_id md_kv spread chain r_mode r_id r_kv].
  rewrite !or_default_strip by done.
  f_equal. by apply event_roundtrip.
Qed.

(** *** The [Map] used for de-duplication *)

Lemma map_set_fresh {V} k (v : V) m : k ∉ keys m -> map_set k v m = m ++ [(k, v)].
Proof.
  induction m as [|[k' v'] m IH]; intros Hk; [done|].
  cbn in *. apply not_elem_of_cons in Hk as [Hne Hk].
  destruct (String.eqb_spec k k'); [done|]. by rewrite IH.
Qed.

Lemma map_set_keys {V} k (v : V) m :
  keys (map_set k v m) = if bool_decide (k ∈ keys m) then keys m else keys m ++ [k].
Proof.
  induction m as [|[k' v'] m IH]; [done|].
  cbn. destruct (String.eqb_spec k k') as [->|Hne].
  - rewrite bool_decide_true by (apply elem_of_cons; by left). done.
  - cbn. fold (keys m). fold (keys (map_set k v m)). rewrite IH.
    destruct (bool_decide_reflect (k ∈ keys m)) as [Hin|Hout].
    + rewrite bool_decide_true by (apply elem_of_cons; by right). done.
    + rewrite bool_decide_false; [done|].
      intros [?|?]%elem_of_cons; done.
Qed.

Lemma map_set_values_in {V} k (v : V) m x :
  x ∈ map_values (map_set k v m) -> x = v \/ x ∈ map_values m.
Proof.
  induction m as [|[k' v'] m IH]; cbn.
  - intros H. apply list_elem_of_singleton in H. by left.
  - destruct (String.eqb_spec k k'); cbn; intros H;
      apply elem_of_cons in H as [->|H]; try (by left).
    + right. apply elem_of_cons. by right.
    + right. apply elem_of_cons. by left.
    + destruct (IH H); [by left|right]. apply elem_of_cons. by right.
Qed.

Lemma map_set_entries k (v : QQBotConfig) m :
  k = uniq_key v -> k <> "" ->
  Forall (fun kv => kv.1 = uniq_key kv.2 /\ kv.1 <> "") m ->
  Forall (fun kv => kv.1 = uniq_key kv.2 /\ kv.1 <> "") (map_set k v m).
Proof.
  intros Hk Hne. induction 1 as [|[k' v'] m Hkv Hm IH]; cbn.
  - by constructor.
  - destruct (String.eqb_spec k k'); constructor; auto.
Qed.

Lemma uniq_step_inv m cfg : uniq_inv m -> uniq_inv (uniq_step m cfg).
Proof.
  intros [Hnd Hall]. unfold uniq_step.
  destruct (String.eqb_spec (uniq_key cfg) "") as [|Hne]; [done|].
  split.
  - rewrite map_set_keys. case_bool_decide; [done|].
    apply NoDup_app. split_and!; [done| |apply NoDup_singleton].
    intros x Hx Hx'. apply list_elem_of_singleton in Hx'. by subst.
  - by apply map_set_entries.
Qed.

Lemma fold_uniq_inv l m : uniq_inv m -> uniq_inv (List.fold_left uniq_step l m).
Proof.
  revert m. induction l as [|cfg l IH]; intros m Hm; [done|].
  cbn. apply IH. by apply uniq_step_inv.
Qed.

Lemma fold_uniq_values (Q : QQBotConfig -> Prop) l m :
  Forall Q l -> Forall Q (map_values m) ->
  Forall Q (map_values (List.fold_left uniq_step l m)).
Proof.
  revert m. induction l as [|cfg l IH]; intros m Hl Hm; [done|].
  apply Forall_cons in Hl as [Hc Hl]. cbn. apply IH; [done|].
  unfold uniq_step. destruct (String.eqb (uniq_key cfg) ""); [done|].
  apply Forall_forall. intros x Hx.
  apply map_set_values_in in Hx as [->|Hx]; [done|].
  by eapply Forall_forall in Hm.
Qed.

(** Feeding the values of a well-formed map back in rebuilds the map. *)
Lemma fold_uniq_rebuild m2 m1 :
  uniq_inv (m1 ++ m2) ->
  List.fold_left uniq_step (map_values m2) m1 = m1 ++ m2.
Proof.
  revert m1. induction m2 as [|[k v] m2 IH]; intros m1 Hinv.
  - by rewrite app_nil_r.
  - cbn. destruct Hinv as [Hnd Hall].
    assert (Hkv : k = uniq_key v /\ k <> "").
    { apply Forall_app in Hall as [_ Hall]. by apply Forall_cons in Hall as [? _]. }
    destruct Hkv as [Hk Hne].
    unfold uniq_step at 2. rewrite <- Hk.
    destruct (String.eqb_spec k ""); [done|].
    rewrite map_set_fresh.
    + rewrite IH; rewrite <- app_assoc; [done|]. by split.
    + unfold keys in Hnd. rewrite map_app in Hnd. cbn in Hnd.
      apply NoDup_app in Hnd as (_ & Hdis & _).
      intros Hin. apply (Hdis k Hin). apply elem_of_cons. by left.
Qed.

Lemma dedupe_idempotent l : dedupe (dedupe l) = dedupe l.
Proof.
  unfold dedupe.
  rewrite (fold_uniq_rebuild (List.fold_left uniq_step l []) []); [done|].
  cbn. apply fold_uniq_inv. split; [constructor|constructor].
Qed.

Lemma dedupe_Forall (Q : QQBotConfig -> Prop) l : Forall Q l -> Forall Q (dedupe l).
Proof. intros H. apply fold_uniq_values; [done|constructor]. Qed.

Lemma map_id_on {A} (f : A -> A) l : Forall (fun x => f x = x) l -> List.map f l = l.
Proof. induction 1; cbn; congruence. Qed.

(** C8: For every configuration list [c], formatting what the save path
    wrote gives the formatted list back:
    [formatConfig (cleanConfigForWrite (formatConfig c)) = formatConfig c].
    Every field that [cleanConfigForWrite] stripped (prodApi, sandboxApi,
    tokenApi, event.wsUrl, event.wsToken, a wholly removed default event)
    reappears with its default value. *)
Theorem formatConfig_roundtrip (c : list RawConfig) :
  formatConfig (cleanConfigForWrite (formatConfig c)) = formatConfig c.
Proof.
  unfold cleanConfigForWrite.
  unfold formatConfig at 1.
  rewrite List.map_map.
  rewrite (map_id_on (fun y => formatItem (cleanItem y))).
  - unfold formatConfig. apply dedupe_idempotent.
  - unfold formatConfig.
    apply (dedupe_Forall (fun y => formatItem (cleanItem y) = y)).
    apply Forall_forall. intros y Hy.
    apply list_elem_of_In, in_map_iff in Hy as (item & <- & _).
    apply formatItem_cleanItem, formatItem_formatted.
Qed.

End ConfigFacts.

(** ** The gateway session manager *)

Module GatewayFacts.
Import Config Gateway.

(** Case analysis on every [match] and [if] of the goal. *)
Ltac split_goal :=
  repeat (cbn -[String.eqb Nat.eqb Z.eqb Z.min Z.pow];
          match goal with
          | |- context [match ?x with _ => _ end] => destruct x eqn:?
          end);
  cbn -[String.eqb Nat.eqb Z.eqb Z.min Z.pow].

(** *** What the operations leave alone *)

Lemma fmap_alter_same {A B} (g : A -> B) (f : A -> A) i (l : list A) :
  (forall a, g (f a) = g a) -> g <$> alter f i l = g <$> l.
Proof.
  intros Hf. revert i. induction l as [|x l IH]; intros [|i]; cbn; [done..| |].
  - by rewrite Hf.
  - by rewrite IH.
Qed.

Lemma ids_upd sid f st :
  (forall a, key (f a) = key a) -> ids (upd_attempt sid f st) = ids st.
Proof. intros Hf. unfold ids, upd_attempt. cbn. by apply fmap_alter_same. Qed.

Lemma ids_lookup st sid a :
  attempts st !! sid = Some a -> ids st !! sid = Some (key a).
Proof. intros H. unfold ids. by rewrite list_lookup_fmap, H. Qed.

Lemma ids_lookup_inv st sid k :
  ids st !! sid = Some k -> exists a, attempts st !! sid = Some a /\ key a = k.
Proof.
  unfold ids. rewrite list_lookup_fmap. destruct (attempts st !! sid) as [a|]; [|done].
  cbn. intros [= <-]. eauto.
Qed.

Ltac unfold_prims :=
  unfold close, resolveOnce, reconnect_settled, attemptReconnect,
    setHeartbeatInterval, setSeq, socket_close, removeAllListeners, clearInterval,
    upd_socket, upd_attempt, with_socket in *.

Ltac same_ids :=
  unfold ids; cbn; rewrite ?fmap_alter_same by (by intros []); try done.

Lemma attemptSeq_close sid st : attemptSeq (close sid st) = attemptSeq st.
Proof. unfold_prims. by split_goal. Qed.

Lemma ids_close sid st : ids (close sid st) = ids st.
Proof. unfold_prims. split_goal; same_ids. Qed.

Lemma attemptSeq_resolveOnce sid v st : attemptSeq (resolveOnce sid v st) = attemptSeq st.
Proof. unfold_prims. by split_goal. Qed.

Lemma ids_resolveOnce sid v st : ids (resolveOnce sid v st) = ids st.
Proof. unfold_prims. split_goal; same_ids. Qed.



Lemma attemptSeq_attemptReconnect cfg n st :
  attemptSeq (attemptReconnect cfg n st) = attemptSeq st.
Proof. unfold_prims. by split_goal. Qed.

Lemma ids_attemptReconnect cfg n st : ids (attemptReconnect cfg n st) = ids st.
Proof. unfold_prims. by split_goal. Qed.



(** A property of the state that every queued reaction preserves is
    preserved by [drain]. *)
Lemma fold_run_job {A} (g : State -> A) q st :
  (forall st job, g (run_job st job) = g st) ->
  g (List.fold_left run_job q st) = g st.
Proof.
  intros Hg. revert st. induction q as [|job q IH]; intros st; [done|].
  cbn. by rewrite IH, Hg.
Qed.



Ltac unfold_handlers :=
  unfold on_gateway, on_gateway_error, on_timeout, on_close, on_error, on_open,
    on_message, on_heartbeat, handleWebSocketMessage, listening in *.


Lemma ids_callback rev e st :
  is_Some (callback e) \/ (exists tm, e = HeartbeatTick tm) ->
  ids (handle rev e st) = ids st.
Proof.
  intros [[sid He]|[tm ->]]; [destruct e; try done|];
    cbn [handle]; unfold_handlers; unfold_prims; split_goal; same_ids.
Qed.





Lemma stop_ids rev appid st : ids (stopWebSocketConnection rev appid st) = ids st.
Proof.
  unfold stopWebSocketConnection.
  destruct (cache _ !! _); [rewrite ids_close|]; by destruct rev.
Qed.





(** *** Attempt numbers *)

Lemma ids_length st st' : ids st' = ids st -> length (attempts st') = length (attempts st).
Proof. unfold ids. intros H. apply (f_equal length) in H. by rewrite !length_fmap in H. Qed.

(** What a call of [createWebSocketConnection] does to the counters. *)
Lemma create_spec cfg w st :
  let n := S (seq_of st (appId cfg)) in
  (createWebSocketConnection cfg w st = (st, Resolved false)
   /\ (appId cfg = "default" \/ ev_type (event cfg) <> 2))
  \/ (exists st', createWebSocketConnection cfg w st = (st', Pending (length (attempts st)))
      /\ appId cfg <> "default" /\ ev_type (event cfg) = 2
      /\ ids st' = ids st ++ [(cfg, n)]
      /\ attemptSeq st' = <[appId cfg := n]> (attemptSeq st)).
Proof.
  intros n. unfold createWebSocketConnection.
  destruct (String.eqb_spec (appId cfg) "default") as [Hd|Hd]; [left; auto|].
  destruct (Z.eqb_spec (ev_type (event cfg)) 2) as [He|He]; cbn [negb]; [|left; auto].
  right. eexists. split_and!; [|done|done| |].
  - f_equal. f_equal. cbn [attempts set_attempts]. apply ids_length.
    destruct (cache _ !! _); [by rewrite ids_close|done].
  - unfold ids at 1. cbn [attempts set_attempts]. rewrite fmap_app. f_equal.
    + destruct (cache _ !! _) as [ex|]; [|done].
      fold (ids (close (connectionId ex) (set_attemptSeq
        (<[appId cfg := (default 0 (attemptSeq st !! appId cfg) + 1)%nat]>) st))).
      by rewrite ids_close.
    + cbn. unfold key, n, seq_of. cbn. do 3 f_equal. lia.
  - cbn [attemptSeq set_attempts].
    destruct (cache _ !! _); [rewrite attemptSeq_close|]; cbn; unfold n, seq_of;
      f_equal; lia.
Qed.

Lemma numbered_extend st st' :
  numbered st ->
  (forall a, (seq_of st a <= seq_of st' a)%nat) ->
  (ids st' = ids st
   \/ exists cfg, ids st' = ids st ++ [(cfg, seq_of st' (appId cfg))]
                  /\ (1 <= seq_of st' (appId cfg))%nat) ->
  numbered st'.
Proof.
  intros Hn Hle Hids sid cfg n Hsid.
  destruct Hids as [Heq|(cfg' & Heq & Hpos)]; rewrite Heq in Hsid.
  - specialize (Hn _ _ _ Hsid). specialize (Hle (appId cfg)). lia.
  - apply lookup_app_Some in Hsid as [Hsid|[_ Hsid]].
    + specialize (Hn _ _ _ Hsid). specialize (Hle (appId cfg)). lia.
    + apply list_lookup_singleton_Some in Hsid as [_ [= <- <-]]. lia.
Qed.


Lemma numbered_same st st' :
  numbered st -> ids st' = ids st -> attemptSeq st' = attemptSeq st -> numbered st'.
Proof.
  intros Hn Hids Hseq. eapply numbered_extend; [done| |by left].
  intros a. unfold seq_of. by rewrite Hseq.
Qed.



(** *** Staleness *)





(** The reaction queue is empty between two callbacks. *)
Lemma jobs_run_job st job : jobs (run_job st job) = jobs st.
Proof. unfold run_job. unfold_prims. by split_goal. Qed.

Lemma jobs_step rev st e : jobs (step rev st e) = [].
Proof. unfold step, drain. by rewrite (fold_run_job jobs) by apply jobs_run_job. Qed.

Lemma reachable_jobs rev st : reachable rev st -> jobs st = [].
Proof. destruct 1; [done|apply jobs_step]. Qed.

Lemma drain_idle st : jobs st = [] -> drain st = st.
Proof. destruct st; cbn. intros ->. done. Qed.


Lemma emitted_run_job st job : emitted (run_job st job) = emitted st.
Proof. unfold run_job. unfold_prims. by split_goal. Qed.


Lemma emitted_drain st : emitted (drain st) = emitted st.
Proof. unfold drain. by rewrite (fold_run_job emitted) by apply emitted_run_job. Qed.

Lemma listening_Some st sid a k :
  listening st sid = Some (a, k) <->
  attempts st !! sid = Some a /\ socket a = Some k /\ listeners k = true.
Proof.
  unfold listening. destruct (attempts st !! sid) as [a'|].
  - destruct (socket a') as [k'|] eqn:Hs.
    + destruct (listeners k') eqn:Hk; split.
      * by intros [= <- <-].
      * intros ([= <-] & Hs' & _). congruence.
      * done.
      * intros ([= <-] & Hs' & Hl). congruence.
    + split; [done|]. intros ([= <-] & Hs' & _). congruence.
  - split; [done|]. by intros (? & _).
Qed.

(** How a listener of attempt [sid] starts: nothing happens unless the
    socket exists and still has its listeners. *)
Ltac on_listening st sid :=
  let Hl := fresh "Hl" in
  destruct (listening st sid) as [[? ?]|] eqn:Hl;
  [apply listening_Some in Hl as (? & ? & ?); simplify_eq|].




(** *** Who owns a cache entry *)

Lemma wf_footprint st st' : footprint st' = footprint st -> wf st -> wf st'.
Proof.
  unfold footprint. intros [= Hc Hi Hs Ht Hn] [H1 H2 H3 H4].
  split; unfold numbered, distinct, owned, timed, seq_of in *;
    rewrite ?Hc, ?Hi, ?Hs, ?Ht, ?Hn; done.
Qed.

Ltac same_footprint :=
  unfold footprint, ids; unfold_prims; split_goal;
  rewrite ?fmap_alter_same by (by intros []); try done.

Lemma footprint_upd_socket sid f st : footprint (upd_socket sid f st) = footprint st.
Proof. same_footprint. Qed.

Lemma footprint_resolveOnce sid v st : footprint (resolveOnce sid v st) = footprint st.
Proof. same_footprint. Qed.

Lemma footprint_attemptReconnect cfg n st :
  footprint (attemptReconnect cfg n st) = footprint st.
Proof. same_footprint. Qed.

Lemma footprint_reconnect_settled cfg n v st :
  footprint (reconnect_settled cfg n v st) = footprint st.
Proof. same_footprint. Qed.

Lemma footprint_run_job st job : footprint (run_job st job) = footprint st.
Proof. unfold run_job. split_goal; try done. apply footprint_reconnect_settled. Qed.

Lemma footprint_drain st : footprint (drain st) = footprint st.
Proof. unfold drain. by rewrite (fold_run_job footprint) by apply footprint_run_job. Qed.

Lemma wf_init tokens : wf (init tokens).
Proof.
  split.
  - intros sid cfg n H. unfold ids in H. cbn in H. by rewrite lookup_nil in H.
  - intros i j cfg cfg' n H. unfold ids in H. cbn in H. by rewrite lookup_nil in H.
  - intros a ws H. cbn in H. by rewrite lookup_empty in H.
  - split.
    + intros a ws tm H. cbn in H. by rewrite lookup_empty in H.
    + intros tm sid H. cbn in H. by rewrite lookup_empty in H.
Qed.

(** The owner of an entry, as an attempt. *)
Lemma owner_attempt st a ws :
  wf st -> cache st !! a = Some ws ->
  exists att, attempts st !! connectionId ws = Some att /\ appid_of att = a
              /\ attempt att = seq_of st a.
Proof.
  intros Hwf Hc. destruct (wf_owned _ Hwf _ _ Hc) as (_ & cfg & Hid & Happ).
  destruct (ids_lookup_inv _ _ _ Hid) as (att & Hatt & Hk).
  exists att. unfold key in Hk. injection Hk as Hcfg Hn.
  unfold appid_of. by rewrite Hcfg.
Qed.

(** Two entries with the same [connectionId] are one entry. *)
Lemma owner_unique st a b ws ws' :
  wf st -> cache st !! a = Some ws -> cache st !! b = Some ws' ->
  connectionId ws = connectionId ws' -> a = b.
Proof.
  intros Hwf Ha Hb Heq.
  destruct (wf_owned _ Hwf _ _ Ha) as (_ & cfg & Hid & Happ).
  destruct (wf_owned _ Hwf _ _ Hb) as (_ & cfg' & Hid' & Happ').
  rewrite Heq in Hid. rewrite Hid in Hid'. injection Hid' as -> _. congruence.
Qed.

(** The general shape of an eviction: the entry of identity [a] goes, its
    heartbeat timer may go with it, the identity's attempt number may grow
    and one attempt carrying the new number may be added. *)
Lemma wf_evict st st' a :
  wf st ->
  cache st' = delete a (cache st) ->
  (intervals st' = intervals st
   \/ exists ws tm, cache st !! a = Some ws /\ heartbeatTimer ws = Some tm
                    /\ intervals st' = delete tm (intervals st)) ->
  nextInterval st' = nextInterval st ->
  (forall b, b <> a -> seq_of st' b = seq_of st b) ->
  (ids st' = ids st /\ (seq_of st a <= seq_of st' a)%nat
   \/ exists cfg, ids st' = ids st ++ [(cfg, seq_of st' a)] /\ appId cfg = a
                  /\ (seq_of st a < seq_of st' a)%nat) ->
  wf st'.
Proof.
  intros [Hnum Hdis Hown [Htm Hfresh]] Hc Hi Hn Hseq Hids.
  assert (Hle : forall b, (seq_of st b <= seq_of st' b)%nat).
  { intros b. destruct (decide (b = a)) as [->|Hne]; [|by rewrite Hseq].
    destruct Hids as [[_ ?]|(? & _ & _ & ?)]; lia. }
  assert (Hpre : forall i k, ids st !! i = Some k -> ids st' !! i = Some k).
  { intros i k Hi'. destruct Hids as [[-> _]|(cfg & -> & _)]; [done|].
    by apply lookup_app_l_Some. }
  split.
  - eapply numbered_extend; [done|done|].
    destruct Hids as [[? _]|(cfg & ? & <- & ?)]; [by left|right].
    exists cfg. split; [done|lia].
  - intros i j cfg cfg' n Hi' Hj Happ.
    destruct Hids as [[Heq _]|(cfg0 & Heq & Happ0 & Hlt)]; rewrite Heq in Hi', Hj.
    { by eapply Hdis. }
    apply lookup_app_Some in Hi' as [Hi'|[Hli Hi']];
      apply lookup_app_Some in Hj as [Hj|[Hlj Hj]].
    + by eapply Hdis.
    + apply list_lookup_singleton_Some in Hj as [_ [= <- <-]].
      specialize (Hnum _ _ _ Hi'). rewrite Happ, Happ0 in Hnum. lia.
    + apply list_lookup_singleton_Some in Hi' as [_ [= <- <-]].
      specialize (Hnum _ _ _ Hj). rewrite <- Happ, Happ0 in Hnum. lia.
    + apply list_lookup_singleton_Some in Hi' as [Hi' _].
      apply list_lookup_singleton_Some in Hj as [Hj _]. lia.
  - intros b ws Hb. rewrite Hc in Hb.
    apply lookup_delete_Some in Hb as [Hne Hb].
    destruct (Hown _ _ Hb) as (Hsock & cfg & Hid & Happ).
    split; [done|]. exists cfg. rewrite Hseq by done. split; [by apply Hpre|done].
  - split.
    + intros b ws tm Hb Htmr. rewrite Hc in Hb.
      apply lookup_delete_Some in Hb as [Hne Hb].
      pose proof (Htm _ _ _ Hb Htmr) as Hlive.
      destruct Hi as [->|(ws0 & tm0 & Ha & Htm0 & ->)]; [done|].
      rewrite lookup_delete_ne; [done|].
      intros <-. pose proof (Htm _ _ _ Ha Htm0) as Hlive0.
      rewrite Hlive in Hlive0. injection Hlive0 as Heq.
      assert (a = b); [|done].
      eapply (owner_unique st); [by split|done|done|]. congruence.
    + intros tm sid Hl. rewrite Hn.
      destruct Hi as [Heq|(ws0 & tm0 & _ & _ & Heq)]; rewrite Heq in Hl.
      * by eapply Hfresh.
      * apply lookup_delete_Some in Hl as [_ Hl]. by eapply Hfresh.
Qed.

(** What [close] does when the cache entry is the caller's own, and when
    it is not. *)
Lemma close_owner sid st att ws :
  attempts st !! sid = Some att -> cache st !! appid_of att = Some ws ->
  connectionId ws = sid ->
  cache (close sid st) = delete (appid_of att) (cache st)
  /\ intervals (close sid st) = drop_timer ws (intervals st)
  /\ ids (close sid st) = ids st
  /\ attemptSeq (close sid st) = attemptSeq st
  /\ nextInterval (close sid st) = nextInterval st.
Proof.
  intros Ha Hc <-. rewrite ids_close, attemptSeq_close.
  unfold close. rewrite Ha. unfold_prims. cbn [cache set_attempts]. rewrite Hc.
  rewrite Nat.eqb_refl. unfold drop_timer. by destruct (heartbeatTimer ws).
Qed.

Lemma close_other sid st :
  (forall att ws, attempts st !! sid = Some att ->
     cache st !! appid_of att = Some ws -> connectionId ws <> sid) ->
  footprint (close sid st) = footprint st.
Proof.
  intros Hne. unfold footprint. rewrite ids_close, attemptSeq_close.
  unfold close. destruct (attempts st !! sid) as [att|] eqn:Ha; [|done].
  unfold_prims. cbn [cache set_attempts].
  destruct (cache st !! appid_of att) as [ws|] eqn:Hc; [|done].
  destruct (Nat.eqb_spec (connectionId ws) sid) as [Heq|_]; [|done].
  by destruct (Hne _ _ eq_refl Hc).
Qed.

Lemma close_cases sid st :
  footprint (close sid st) = footprint st
  \/ exists att ws, attempts st !! sid = Some att /\ cache st !! appid_of att = Some ws
                    /\ connectionId ws = sid.
Proof.
  destruct (attempts st !! sid) as [att|] eqn:Ha.
  - destruct (cache st !! appid_of att) as [ws|] eqn:Hc.
    + destruct (decide (connectionId ws = sid)); [right; eauto|].
      left. apply close_other. intros att0 ws0 H1 H2. congruence.
    + left. apply close_other. intros att0 ws0 H1 H2. congruence.
  - left. apply close_other. intros att0 ws0 H1 H2. congruence.
Qed.

Lemma wf_close sid st : wf st -> wf (close sid st).
Proof.
  intros Hwf. destruct (close_cases sid st) as [Hf|(att & ws & Ha & Hc & Hid)].
  - by eapply wf_footprint.
  - destruct (close_owner _ _ _ _ Ha Hc Hid) as (Hc' & Hi & Hids & Hs & Hn).
    eapply (wf_evict st _ (appid_of att)); [done|done| |done| |].
    + rewrite Hi. unfold drop_timer. destruct (heartbeatTimer ws) eqn:?; eauto 10.
    + intros b _. unfold seq_of. by rewrite Hs.
    + left. split; [done|]. unfold seq_of. by rewrite Hs.
Qed.

(** The close of the cached connection at the head of
    [createWebSocketConnection] and in [stopWebSocketConnection]: the entry
    is always its owner's, so it always goes. *)
Lemma close_cached st st1 a :
  wf st -> cache st1 = cache st -> attempts st1 = attempts st ->
  intervals st1 = intervals st ->
  let st2 := match cache st1 !! a with
             | Some ex => close (connectionId ex) st1
             | None => st1
             end in
  cache st2 = delete a (cache st)
  /\ (intervals st2 = intervals st
      \/ exists ws tm, cache st !! a = Some ws /\ heartbeatTimer ws = Some tm
                       /\ intervals st2 = delete tm (intervals st))
  /\ ids st2 = ids st1 /\ attemptSeq st2 = attemptSeq st1
  /\ nextInterval st2 = nextInterval st1.
Proof.
  intros Hwf Hc Ha Hi st2. subst st2. rewrite Hc.
  destruct (cache st !! a) as [ex|] eqn:Hex.
  - destruct (owner_attempt _ _ _ Hwf Hex) as (att & Hatt & Happ & _).
    rewrite <- Ha in Hatt. subst a. rewrite <- Hc in Hex.
    destruct (close_owner _ _ _ _ Hatt Hex eq_refl) as (-> & -> & -> & -> & ->).
    rewrite Hc, Hi. split_and!; try done.
    unfold drop_timer. rewrite Hc in Hex. destruct (heartbeatTimer ex) eqn:?; eauto 10.
  - rewrite delete_id by done. split_and!; auto.
Qed.

Lemma create_effect cfg w st st' sid :
  wf st -> createWebSocketConnection cfg w st = (st', Pending sid) ->
  cache st' = delete (appId cfg) (cache st)
  /\ (intervals st' = intervals st
      \/ exists ws tm, cache st !! appId cfg = Some ws /\ heartbeatTimer ws = Some tm
                       /\ intervals st' = delete tm (intervals st))
  /\ nextInterval st' = nextInterval st
  /\ ids st' = ids st ++ [(cfg, S (seq_of st (appId cfg)))]
  /\ attemptSeq st' = <[appId cfg := S (seq_of st (appId cfg))]> (attemptSeq st)
  /\ sid = length (attempts st).
Proof.
  intros Hwf Heq.
  destruct (create_spec cfg w st) as [[Hr _]|(st'' & Hr & _ & _ & Hids & Hseq)];
    rewrite Hr in Heq; [done|]. injection Heq as -> <-.
  split_and!; try done.
  all: unfold createWebSocketConnection in Hr;
    destruct (String.eqb _ _); [done|]; destruct (negb _); [done|];
    injection Hr as <-;
    destruct (close_cached st
                (set_attemptSeq
                   (<[appId cfg := (default 0 (attemptSeq st !! appId cfg) + 1)%nat]>) st)
                (appId cfg) Hwf eq_refl eq_refl eq_refl)
      as (Hc & Hi & _ & _ & Hn); done.
Qed.

Lemma wf_create cfg w st : wf st -> wf (createWebSocketConnection cfg w st).1.
Proof.
  intros Hwf.
  destruct (createWebSocketConnection cfg w st) as [st' [v|sid]] eqn:Heq; cbn [fst].
  - destruct (create_spec cfg w st) as [[Hr _]|(st'' & Hr & _)]; congruence.
  - destruct (create_effect _ _ _ _ _ Hwf Heq) as (Hc & Hi & Hn & Hids & Hseq & _).
    assert (Hs : seq_of st' (appId cfg) = S (seq_of st (appId cfg))).
    { unfold seq_of at 1. by rewrite Hseq, lookup_insert_eq. }
    eapply (wf_evict st _ (appId cfg)); [done|exact Hc|exact Hi|exact Hn| |].
    + intros b Hb. unfold seq_of at 1. by rewrite Hseq, lookup_insert_ne.
    + right. exists cfg. rewrite Hs. split_and!; [done|done|lia].
Qed.

Lemma wf_stop rev appid st : wf st -> wf (stopWebSocketConnection rev appid st).
Proof.
  intros Hwf. unfold stopWebSocketConnection.
  set (st1 := match rev with Current => _ | Legacy => _ end).
  assert (Hst1 : cache st1 = cache st /\ attempts st1 = attempts st
                 /\ intervals st1 = intervals st /\ nextInterval st1 = nextInterval st
                 /\ attemptSeq st1 = <[appid := S (seq_of st appid)]> (attemptSeq st)).
  { subst st1. destruct rev; cbn; split_and!; try done; unfold seq_of; f_equal; lia. }
  destruct Hst1 as (Hc & Ha & Hi & Hn & Hs).
  destruct (close_cached st st1 appid Hwf Hc Ha Hi) as (Hc' & Hi' & Hids & Hs' & Hn').
  eapply (wf_evict st _ appid); [done|exact Hc'|exact Hi'|congruence| |].
  - intros b Hb. unfold seq_of. by rewrite Hs', Hs, lookup_insert_ne.
  - left. split; [rewrite Hids; unfold ids; by rewrite Ha|].
    unfold seq_of at 2. rewrite Hs', Hs, lookup_insert_eq. cbn. lia.
Qed.

Lemma not_stale st a :
  isStale st a = false <-> attemptSeq st !! appid_of a = Some (attempt a).
Proof.
  unfold isStale. rewrite negb_false_iff. apply bool_decide_eq_true.
Qed.

(** The open listener of the current attempt installs its entry. *)
Lemma wf_install st sid a :
  wf st -> attempts st !! sid = Some a -> isStale st a = false ->
  wf (set_cache (<[appid_of a := mkWS sid None sid]>) st).
Proof.
  intros [Hnum Hdis Hown [Htm Hfresh]] Ha Hst. apply not_stale in Hst.
  split; [done|done| |split].
  - intros b ws Hb. cbn [cache set_cache] in Hb.
    apply lookup_insert_Some in Hb as [[<- <-]|[Hne Hb]]; [|by apply Hown].
    split; [done|]. exists (config a). split; [|done].
    cbn [connectionId]. unfold seq_of. cbn [attemptSeq set_cache]. rewrite Hst.
    cbn. by apply ids_lookup.
  - intros b ws tm Hb Hhb. cbn [cache set_cache intervals] in *.
    apply lookup_insert_Some in Hb as [[<- <-]|[Hne Hb]]; [done|by eapply Htm].
  - done.
Qed.

Lemma heartbeat_effect sid appid i st :
  let st' := setHeartbeatInterval sid appid i st in
  ids st' = ids st /\ attemptSeq st' = attemptSeq st
  /\ nextInterval st' = S (nextInterval st)
  /\ match cache st !! appid with
     | Some ws =>
       cache st' = <[appid := mkWS (ws_socket ws) (Some (nextInterval st)) (connectionId ws)]>
                     (cache st)
       /\ intervals st' = <[nextInterval st := sid]> (drop_timer ws (intervals st))
     | None => cache st' = cache st /\ intervals st' = <[nextInterval st := sid]> (intervals st)
     end.
Proof.
  unfold setHeartbeatInterval, drop_timer. unfold_prims.
  cbn [cache set_attempts].
  destruct (cache st !! appid) as [ws|] eqn:Hc.
  - destruct (heartbeatTimer ws) as [tm|];
      cbn [cache set_intervals set_nextInterval intervals nextInterval set_attempts];
      rewrite Hc; cbn; unfold ids; cbn;
      rewrite fmap_alter_same by (by intros []); done.
  - cbn [cache set_intervals set_nextInterval intervals nextInterval set_attempts].
    rewrite Hc. cbn. unfold ids; cbn. rewrite fmap_alter_same by (by intros []). done.
Qed.

Lemma wf_heartbeat sid appid i st :
  wf st -> (forall ws, cache st !! appid = Some ws -> connectionId ws = sid) ->
  wf (setHeartbeatInterval sid appid i st).
Proof.
  intros Hwf Hsid.
  destruct (heartbeat_effect sid appid i st) as (Hids & Hseq & Hn & Hcase).
  set (st' := setHeartbeatInterval sid appid i st) in *.
  pose proof Hwf as [Hnum Hdis Hown [Htm Hfresh]].
  assert (Hnum' : numbered st') by (by eapply numbered_same).
  assert (Hdis' : distinct st') by (unfold distinct; by rewrite Hids).
  destruct (cache st !! appid) as [ws|] eqn:Hc; destruct Hcase as [Hc' Hi'].
  - split; [done|done| |split].
    + intros b ws' Hb. rewrite Hc' in Hb. unfold seq_of. rewrite Hids, Hseq.
      apply lookup_insert_Some in Hb as [[<- <-]|[Hne Hb]]; [|by apply Hown].
      by apply (Hown appid ws).
    + intros b ws' tm Hb Hhb. rewrite Hc' in Hb. rewrite Hi'.
      apply lookup_insert_Some in Hb as [[<- <-]|[Hne Hb]].
      * cbn in Hhb. injection Hhb as <-. rewrite lookup_insert_eq. cbn.
        f_equal. symmetry. by apply Hsid.
      * pose proof (Htm _ _ _ Hb Hhb) as Hlive.
        rewrite lookup_insert_ne by (apply Hfresh in Hlive; lia).
        unfold drop_timer. destruct (heartbeatTimer ws) as [tm0|] eqn:Htm0; [|done].
        rewrite lookup_delete_ne; [done|]. intros <-.
        pose proof (Htm _ _ _ Hc Htm0) as Hlive0. rewrite Hlive in Hlive0.
        injection Hlive0 as Heq. apply Hne.
        eapply (owner_unique st); [done|done|done|congruence].
    + intros tm sid' Hl. rewrite Hn. rewrite Hi' in Hl.
      apply lookup_insert_Some in Hl as [[<- _]|[_ Hl]]; [lia|].
      unfold drop_timer in Hl. destruct (heartbeatTimer ws).
      * apply lookup_delete_Some in Hl as [_ Hl]. apply Hfresh in Hl. lia.
      * apply Hfresh in Hl. lia.
  - split; [done|done| |split].
    + intros b ws' Hb. rewrite Hc' in Hb. unfold seq_of. rewrite Hids, Hseq.
      by apply Hown.
    + intros b ws' tm Hb Hhb. rewrite Hc' in Hb. rewrite Hi'.
      pose proof (Htm _ _ _ Hb Hhb) as Hlive.
      rewrite lookup_insert_ne by (apply Hfresh in Hlive; lia). done.
    + intros tm sid' Hl. rewrite Hn. rewrite Hi' in Hl.
      apply lookup_insert_Some in Hl as [[<- _]|[_ Hl]]; [lia|].
      apply Hfresh in Hl. lia.
Qed.

Lemma wf_handleWebSocketMessage rev cfg sid data st :
  wf st -> (forall ws, cache st !! appId cfg = Some ws -> connectionId ws = sid) ->
  wf (handleWebSocketMessage rev cfg sid data st).
Proof.
  intros Hwf Hsid. unfold handleWebSocketMessage.
  set (st1 := match f_s data with Some seq => setSeq sid seq st | None => st end).
  assert (Hf : footprint st1 = footprint st).
  { subst st1. destruct (f_s data); [apply footprint_upd_socket|done]. }
  assert (Hwf1 : wf st1) by (by eapply wf_footprint).
  assert (Hsid1 : forall ws, cache st1 !! appId cfg = Some ws -> connectionId ws = sid).
  { injection Hf as -> _ _ _ _. done. }
  destruct (f_op data); try done.
  - by eapply wf_footprint.
  - destruct rev; eapply wf_footprint; try exact Hwf1.
    + rewrite footprint_attemptReconnect. apply footprint_upd_socket.
    + apply footprint_upd_socket.
  - eapply wf_footprint; [apply footprint_upd_socket|done].
  - eapply (wf_footprint (setHeartbeatInterval sid (appId cfg) _ st1)); [done|].
    by apply wf_heartbeat.
Qed.

Lemma wf_callback rev st e :
  wf st -> is_Some (callback e) \/ (exists tm, e = HeartbeatTick tm) ->
  wf (handle rev e st).
Proof.
  intros Hwf [[sid He]|[tm ->]].
  - destruct e; try done; cbn in He; injection He as ->; cbn [handle].
    + (* gateway reply *)
      eapply wf_footprint; [|done]. unfold on_gateway. same_footprint.
    + eapply wf_footprint; [|done]. unfold on_gateway_error. same_footprint.
    + eapply wf_footprint; [|done]. unfold on_timeout. same_footprint.
    + unfold on_open. on_listening st sid; [|done].
      destruct (isStale st a) eqn:Hst.
      * eapply wf_footprint; [|done]. same_footprint.
      * by apply wf_install.
    + unfold on_message. on_listening st sid; [|done].
      destruct (isStale st a); [done|].
      destruct (cache st !! appid_of a) as [current|] eqn:Hc; [|done].
      destruct (Nat.eqb_spec (ws_socket current) sid) as [Hs|]; [|done].
      destruct (Nat.eqb_spec (connectionId current) sid) as [Hid|]; [|done].
      cbn [andb negb].
      apply wf_handleWebSocketMessage.
      * destruct (is_ready_frame data); [|done].
        eapply wf_footprint; [|done].
        rewrite footprint_resolveOnce. apply footprint_upd_socket.
      * intros ws Hws.
        assert (cache st !! appid_of a = Some ws) as Hws'.
        { destruct (is_ready_frame data); [|done].
          revert Hws. unfold_prims. by split_goal. }
        congruence.
    + unfold on_close. on_listening st sid; [|done].
      destruct (isStale st a); [done|].
      assert (wf (resolveOnce sid false (close sid st))).
      { eapply wf_footprint; [apply footprint_resolveOnce|]. by apply wf_close. }
      destruct rev; [|done].
      destruct (_ && _); [|done].
      eapply wf_footprint; [apply footprint_attemptReconnect|done].
    + unfold on_error. on_listening st sid; [|done].
      destruct (isStale st a); [done|].
      eapply wf_footprint; [apply footprint_resolveOnce|]. by apply wf_close.
  - cbn [handle]. eapply wf_footprint; [|done]. unfold on_heartbeat. same_footprint.
Qed.

Lemma wf_step rev st e : wf st -> wf (step rev st e).
Proof.
  intros Hwf. unfold step. eapply wf_footprint; [apply footprint_drain|].
  destruct e as [cfg|appid|sid url|sid|sid|sid|sid data|sid code|sid|tm|rid];
    try (apply wf_callback; eauto; fail); cbn [handle].
  - by apply wf_create.
  - by apply wf_stop.
  - unfold on_reconnect_delay.
    destruct (reconnectTimers st !! rid) as [tm|]; [|done].
    destruct (negb (rt_armed tm)); [done|].
    set (st1 := set_reconnectTimers _ st).
    assert (wf st1) by (apply (wf_footprint st); [reflexivity|done]).
    destruct (negb _); [done|].
    pose proof (wf_create (rt_config tm) (Some (rt_attempt tm)) st1 H) as Hc.
    destruct (createWebSocketConnection _ _ st1) as [st' [v|sid]]; [|done].
    eapply wf_footprint; [apply footprint_reconnect_settled|done].
Qed.

Lemma reachable_wf rev st : reachable rev st -> wf st.
Proof. induction 1; [apply wf_init|by apply wf_step]. Qed.

Lemma spared_footprint st st' a ws :
  footprint st' = footprint st -> cache st !! a = Some ws -> spared st st' a ws.
Proof.
  unfold footprint. intros [= Hc' _ _ Hi' _] Hc. split; [by rewrite Hc'|].
  intros tm _. by rewrite Hi'.
Qed.

Lemma spared_trans st st1 st2 a ws :
  spared st st1 a ws -> spared st1 st2 a ws -> spared st st2 a ws.
Proof.
  intros [_ H1] [H2 H3]. split; [done|]. intros tm Htm. by rewrite H3, H1.
Qed.

Lemma close_spares st sid a ws :
  wf st -> cache st !! a = Some ws -> connectionId ws <> sid ->
  spared st (close sid st) a ws.
Proof.
  intros Hwf Hc Hne.
  destruct (close_cases sid st) as [Hf|(att & ws0 & Ha & Hc0 & Hid)].
  - by apply spared_footprint.
  - destruct (close_owner _ _ _ _ Ha Hc0 Hid) as (Hc' & Hi & _).
    assert (Hab : appid_of att <> a) by (intros <-; congruence).
    split.
    + by rewrite Hc', lookup_delete_ne.
    + intros tm Htm. rewrite Hi. unfold drop_timer.
      destruct (heartbeatTimer ws0) as [tm0|] eqn:Htm0; [|done].
      rewrite lookup_delete_ne; [done|]. intros <-.
      destruct Hwf as [_ _ _ [Hlive _]].
      pose proof (Hlive _ _ _ Hc Htm) as H1. pose proof (Hlive _ _ _ Hc0 Htm0) as H2.
      congruence.
Qed.

Lemma heartbeat_spares st sid appid i a ws :
  wf st -> cache st !! a = Some ws -> appid <> a ->
  spared st (setHeartbeatInterval sid appid i st) a ws.
Proof.
  intros Hwf Hc Hne.
  destruct (heartbeat_effect sid appid i st) as (_ & _ & _ & Hcase).
  pose proof Hwf as [_ _ _ [Hlive Hfresh]].
  assert (Hnew : forall tm, heartbeatTimer ws = Some tm -> nextInterval st <> tm).
  { intros tm Htm. pose proof (Hfresh _ _ (Hlive _ _ _ Hc Htm)). lia. }
  destruct (cache st !! appid) as [ws0|] eqn:Hc0; destruct Hcase as [Hc' Hi'].
  - split.
    + by rewrite Hc', lookup_insert_ne.
    + intros tm Htm. rewrite Hi', lookup_insert_ne by auto.
      unfold drop_timer. destruct (heartbeatTimer ws0) as [tm0|] eqn:Htm0; [|done].
      rewrite lookup_delete_ne; [done|]. intros <-.
      apply Hne. eapply (owner_unique st); [done|done|done|].
      pose proof (Hlive _ _ _ Hc Htm). pose proof (Hlive _ _ _ Hc0 Htm0). congruence.
  - split; [by rewrite Hc'|].
    intros tm Htm. by rewrite Hi', lookup_insert_ne by auto.
Qed.

Lemma handleWebSocketMessage_spares rev cfg sid data st a ws :
  wf st -> cache st !! a = Some ws -> appId cfg <> a ->
  spared st (handleWebSocketMessage rev cfg sid data st) a ws.
Proof.
  intros Hwf Hc Hne. unfold handleWebSocketMessage.
  set (st1 := match f_s data with Some seq => setSeq sid seq st | None => st end).
  assert (Hf : footprint st1 = footprint st).
  { subst st1. destruct (f_s data); [apply footprint_upd_socket|done]. }
  assert (Hwf1 : wf st1) by (by eapply wf_footprint).
  assert (Hc1 : cache st1 !! a = Some ws) by (injection Hf as -> _ _ _ _; done).
  apply (spared_trans st st1); [by apply spared_footprint|].
  destruct (f_op data); try (by apply spared_footprint).
  - destruct rev; apply spared_footprint; try done.
    + rewrite footprint_attemptReconnect. apply footprint_upd_socket.
    + apply footprint_upd_socket.
  - apply spared_footprint; [apply footprint_upd_socket|done].
  - apply (spared_trans _ (setHeartbeatInterval sid (appId cfg)
                             (heartbeat_interval_of (f_d data)) st1)).
    + by apply heartbeat_spares.
    + apply spared_footprint; [done|]. by apply heartbeat_spares.
Qed.

Lemma callback_spares rev st e sid a ws :
  wf st -> cache st !! a = Some ws -> connectionId ws <> sid ->
  callback e = Some sid ->
  spared st (handle rev e st) a ws.
Proof.
  intros Hwf Hc Hne He.
  destruct e; try done; cbn in He; injection He as ->; cbn [handle].
  - apply spared_footprint; [|done]. unfold on_gateway. same_footprint.
  - apply spared_footprint; [|done]. unfold on_gateway_error. same_footprint.
  - apply spared_footprint; [|done]. unfold on_timeout. same_footprint.
  - unfold on_open. on_listening st sid; [|by apply spared_footprint].
    destruct (isStale st a0) eqn:Hst.
    + apply spared_footprint; [|done]. same_footprint.
    + assert (appid_of a0 <> a).
      { intros <-. apply Hne.
        destruct (owner_attempt _ _ _ Hwf Hc) as (att & Hatt & Happ & Hnum).
        apply not_stale in Hst.
        eapply (wf_distinct _ Hwf _ _ (config att) (config a0) (attempt a0)).
        - rewrite (ids_lookup _ _ _ Hatt). unfold key. f_equal. f_equal.
          rewrite Hnum. unfold seq_of. by rewrite Hst.
        - by apply ids_lookup.
        - done. }
      split; [cbn; by rewrite lookup_insert_ne|done].
  - unfold on_message. on_listening st sid; [|by apply spared_footprint].
    destruct (isStale st a0); [by apply spared_footprint|].
    destruct (cache st !! appid_of a0) as [current|] eqn:Hcur; [|by apply spared_footprint].
    destruct (Nat.eqb_spec (ws_socket current) sid) as [Hs|]; [|by apply spared_footprint].
    destruct (Nat.eqb_spec (connectionId current) sid) as [Hid|];
      [|by apply spared_footprint].
    cbn [andb negb].
    assert (appid_of a0 <> a) by (intros <-; congruence).
    set (st1 := if is_ready_frame data then _ else st).
    assert (Hf : footprint st1 = footprint st).
    { subst st1. destruct (is_ready_frame data); [|done].
      rewrite footprint_resolveOnce. apply footprint_upd_socket. }
    apply (spared_trans st st1); [by apply spared_footprint|].
    apply handleWebSocketMessage_spares; [by eapply wf_footprint| |done].
    injection Hf as -> _ _ _ _. done.
  - unfold on_close. on_listening st sid; [|by apply spared_footprint].
    destruct (isStale st a0); [by apply spared_footprint|].
    apply (spared_trans st (close sid st)); [by apply close_spares|].
    apply spared_footprint; [|by apply close_spares].
    destruct rev; [destruct (_ && _)|]; rewrite ?footprint_attemptReconnect;
      apply footprint_resolveOnce.
  - unfold on_error. on_listening st sid; [|by apply spared_footprint].
    destruct (isStale st a0); [by apply spared_footprint|].
    apply (spared_trans st (close sid st)); [by apply close_spares|].
    apply spared_footprint; [apply footprint_resolveOnce|by apply close_spares].
Qed.

(** C6: in every reachable state, when the cache holds the entry [ws] of
    some identity, neither the [close] closure nor any callback of an
    attempt other than the entry's own (a superseded one, say) removes or
    changes that entry, and its heartbeat timer stays live: the entry is
    cleared only through the [close] of the attempt whose [connectionId]
    it carries. *)
Theorem cache_entry_spared_by_other_sessions rev st a ws sid :
  reachable rev st ->
  cache st !! a = Some ws ->
  connectionId ws <> sid ->
  (cache (close sid st) !! a = Some ws
   /\ forall tm, heartbeatTimer ws = Some tm ->
        intervals (close sid st) !! tm = Some (connectionId ws))
  /\ forall e, callback e = Some sid ->
       cache (step rev st e) !! a = Some ws
       /\ forall tm, heartbeatTimer ws = Some tm ->
            intervals (step rev st e) !! tm = Some (connectionId ws).
Proof.
  intros Hreach Hc Hne. pose proof (reachable_wf _ _ Hreach) as Hwf.
  pose proof Hwf as [_ _ _ [Hlive _]].
  split.
  - destruct (close_spares st sid a ws Hwf Hc Hne) as [Hc' Hi].
    split; [done|]. intros tm Htm. rewrite Hi by done. by eapply Hlive.
  - intros e He.
    destruct (callback_spares rev st e sid a ws Hwf Hc Hne He) as [Hc' Hi].
    unfold step. pose proof (footprint_drain (handle rev e st)) as [= -> _ _ -> _].
    split; [done|]. intros tm Htm. rewrite Hi by done. by eapply Hlive.
Qed.

(** *** How a promise settles *)

Lemma evolves_refl ok a : evolves ok a a.
Proof. split; try done. congruence. Qed.

Lemma evolves_trans ok a b c : evolves ok a b -> evolves ok b c -> evolves ok a c.
Proof.
  intros [H1 H2 H3 H4 H5 H6] [G1 G2 G3 G4 G5 G6].
  split; try congruence.
  - intros v Hv. auto.
  - intros Hc. destruct (resolved b) as [v|] eqn:Hb.
    + rewrite (G4 _ eq_refl) in Hc. done.
    + rewrite G5 by done. auto.
  - intros Ha Hc. destruct (resolved b) as [v|] eqn:Hb.
    + rewrite (G4 _ eq_refl) in Hc. injection Hc as ->. auto.
    + auto.
Qed.

Lemma evolves_weaken ok a b : evolves false a b -> evolves ok a b.
Proof. intros [H1 H2 H3 H4 H5 H6]. split; try done. intros Ha Hb. by specialize (H6 Ha Hb). Qed.

Lemma evolving_same ok st st' : attempts st' = attempts st -> evolving ok st st'.
Proof. intros Heq j a Ha. exists a. rewrite Heq. split; [done|apply evolves_refl]. Qed.

Lemma evolving_trans ok st st1 st2 :
  evolving ok st st1 -> evolving ok st1 st2 -> evolving ok st st2.
Proof.
  intros H1 H2 j a Ha. destruct (H1 _ _ Ha) as (b & Hb & Hab).
  destruct (H2 _ _ Hb) as (c & Hc & Hbc). exists c. split; [done|].
  by eapply evolves_trans.
Qed.

Lemma evolving_weaken ok st st' : evolving (fun _ => false) st st' -> evolving ok st st'.
Proof.
  intros H j a Ha. destruct (H _ _ Ha) as (b & Hb & Hab). exists b.
  split; [done|by apply evolves_weaken].
Qed.

Lemma evolving_upd ok sid f st :
  (forall a, evolves (ok sid) a (f a)) -> evolving ok st (upd_attempt sid f st).
Proof.
  intros Hf j a Ha. unfold upd_attempt. cbn [attempts set_attempts].
  destruct (decide (j = sid)) as [->|Hne].
  - exists (f a). rewrite list_lookup_alter_eq, Ha. done.
  - exists a. rewrite list_lookup_alter_ne by done. split; [done|apply evolves_refl].
Qed.

Ltac evolves_fields := split; cbn; intros; try done; congruence.

Lemma evolving_socket ok sid f st : evolving ok st (upd_socket sid f st).
Proof. apply evolving_upd. intros a. evolves_fields. Qed.

Lemma evolving_close ok sid st : evolving ok st (close sid st).
Proof.
  unfold close. destruct (attempts st !! sid); [|by apply evolving_same].
  set (st1 := socket_close sid (removeAllListeners sid st)).
  assert (evolving ok st st1).
  { eapply evolving_trans; apply evolving_socket. }
  destruct (cache st1 !! _) as [ws|]; [|done].
  destruct (Nat.eqb _ _); [|done].
  eapply evolving_trans; [done|]. apply evolving_same. by destruct (heartbeatTimer ws).
Qed.

Lemma evolving_resolveOnce sid v st :
  evolving (fun j => v && Nat.eqb j sid) st (resolveOnce sid v st).
Proof.
  unfold resolveOnce. destruct (attempts st !! sid) as [a|] eqn:Ha; [|by apply evolving_same].
  destruct (resolved a) as [v'|] eqn:Hr; [by apply evolving_same|].
  intros j b Hb. cbn [attempts set_jobs upd_attempt set_attempts].
  destruct (decide (j = sid)) as [->|Hne].
  - rewrite list_lookup_alter_eq, Hb. eexists. split; [done|].
    rewrite Ha in Hb. injection Hb as <-.
    split; cbn; try done; try congruence.
    intros _ [= ->]. by rewrite Nat.eqb_refl.
  - rewrite list_lookup_alter_ne by done. exists b. split; [done|apply evolves_refl].
Qed.

Lemma evolving_resolve_false ok sid st : evolving ok st (resolveOnce sid false st).
Proof. apply evolving_weaken, (evolving_resolveOnce sid false). Qed.

Lemma resolveOnce_lookup sid v st j :
  attempts (resolveOnce sid v st) !! j
  = if decide (j = sid) then settle v <$> attempts st !! j else attempts st !! j.
Proof.
  unfold resolveOnce, settle.
  destruct (attempts st !! sid) as [a|] eqn:Ha.
  - destruct (resolved a) as [v'|] eqn:Hr.
    + destruct (decide (j = sid)) as [->|]; [|done]. by rewrite Ha; cbn; rewrite Hr.
    + cbn [attempts set_jobs upd_attempt set_attempts].
      destruct (decide (j = sid)) as [->|].
      * rewrite list_lookup_alter_eq, Ha. cbn. by rewrite Hr.
      * by rewrite list_lookup_alter_ne.
  - destruct (decide (j = sid)) as [->|]; [|done]. by rewrite Ha.
Qed.

Lemma evolving_timeout ok sid st : evolving ok st (on_timeout sid st).
Proof.
  unfold on_timeout. destruct (attempts st !! sid) as [a|] eqn:Ha; [|by apply evolving_same].
  destruct (connectionTimeout a) eqn:Ht; [|by apply evolving_same].
  intros j b Hb. rewrite resolveOnce_lookup.
  unfold upd_attempt. cbn [attempts set_attempts].
  destruct (decide (j = sid)) as [->|Hne].
  - rewrite list_lookup_alter_eq, Hb. cbn. eexists. split; [done|].
    unfold settle. cbn. destruct (resolved b) eqn:Hr; evolves_fields.
  - rewrite list_lookup_alter_ne by done. exists b. split; [done|apply evolves_refl].
Qed.

Lemma evolving_attemptReconnect ok cfg n st : evolving ok st (attemptReconnect cfg n st).
Proof. apply evolving_same. unfold attemptReconnect. by destruct (_ <=? _)%nat. Qed.

Lemma evolving_reconnect_settled ok cfg n v st :
  evolving ok st (reconnect_settled cfg n v st).
Proof.
  unfold reconnect_settled. destruct v; [by apply evolving_same|].
  apply evolving_attemptReconnect.
Qed.

Lemma evolving_drain ok st : evolving ok st (drain st).
Proof.
  unfold drain. generalize (jobs st). intros q.
  assert (evolving ok st (set_jobs (fun _ => []) st)) as H by (by apply evolving_same).
  revert H. generalize (set_jobs (fun _ => []) st). induction q as [|job q IH]; intros st1 H.
  - done.
  - cbn. apply IH. eapply evolving_trans; [done|].
    unfold run_job. destruct (attempts st1 !! job.1) as [a|]; [|by apply evolving_same].
    destruct (waiter a); [|by apply evolving_same]. apply evolving_reconnect_settled.
Qed.

Lemma evolving_heartbeat ok sid appid i st :
  evolving ok st (setHeartbeatInterval sid appid i st).
Proof.
  unfold setHeartbeatInterval.
  eapply evolving_trans; [apply (evolving_socket ok sid)|].
  apply evolving_same. by split_goal.
Qed.

Lemma evolving_handleWebSocketMessage ok rev cfg sid data st :
  evolving ok st (handleWebSocketMessage rev cfg sid data st).
Proof.
  unfold handleWebSocketMessage.
  set (st1 := match f_s data with Some seq => setSeq sid seq st | None => st end).
  assert (evolving ok st st1).
  { subst st1. destruct (f_s data); [apply evolving_socket|by apply evolving_same]. }
  eapply evolving_trans; [done|].
  destruct (f_op data); try (by apply evolving_same).
  - destruct rev.
    + eapply evolving_trans; [apply evolving_socket|apply evolving_attemptReconnect].
    + apply evolving_socket.
  - apply evolving_socket.
  - eapply evolving_trans; [apply evolving_heartbeat|by apply evolving_same].
Qed.

Lemma evolving_create ok cfg w st : evolving ok st (createWebSocketConnection cfg w st).1.
Proof.
  unfold createWebSocketConnection.
  destruct (String.eqb _ _); [by apply evolving_same|].
  destruct (negb _); [by apply evolving_same|]. cbn [fst].
  match goal with
  | |- evolving _ _ (set_attempts _ ?s) => assert (evolving ok st s) as H
  end.
  { destruct (cache _ !! _).
    - eapply evolving_trans; [|apply evolving_close]. by apply evolving_same.
    - by apply evolving_same. }
  intros j a Ha. destruct (H _ _ Ha) as (b & Hb & Hab). exists b. split; [|done].
  cbn [attempts set_attempts]. by apply lookup_app_l_Some.
Qed.

Lemma on_message_rejected rev sid data st :
  accepts st sid = false -> on_message rev sid data st = st.
Proof.
  unfold accepts, on_message. destruct (listening st sid) as [[a k]|]; [|done].
  destruct (isStale st a); [done|]. cbn [negb andb].
  destruct (cache st !! appid_of a); [|done]. by intros ->.
Qed.

Lemma on_message_accepted rev sid data st :
  accepts st sid = true ->
  exists a, attempts st !! sid = Some a /\
    on_message rev sid data st =
    handleWebSocketMessage rev (config a) sid data
      (if is_ready_frame data then
         resolveOnce sid true
           (upd_socket sid
              (fun k => mkSocket (listeners k) (closeCalled k) true
                          (lastSeq k) (heartbeatInterval k)) st)
       else st).
Proof.
  unfold accepts, on_message. on_listening st sid; [|done].
  exists a. split; [done|].
  destruct (isStale st a); [done|]. cbn [negb andb] in *.
  destruct (cache st !! appid_of a); [|done]. by rewrite H2.
Qed.

Lemma evolving_handle rev st e :
  evolving (observes_ready st e) st (handle rev e st).
Proof.
  destruct e as [cfg|appid|sid url|sid|sid|sid|sid data|sid code|sid|tm|rid];
    cbn [handle].
  - apply evolving_create.
  - unfold stopWebSocketConnection.
    match goal with
    | |- evolving _ _ (match cache ?s !! _ with _ => _ end) =>
      assert (evolving (observes_ready st (Stop appid)) st s) as H
        by (apply evolving_same; by destruct rev)
    end.
    destruct (cache _ !! _); [|done].
    eapply evolving_trans; [done|apply evolving_close].
  - unfold on_gateway. destruct (attempts st !! sid) as [a|]; [|by apply evolving_same].
    destruct (negb _); [by apply evolving_same|].
    set (st1 := upd_attempt sid _ st).
    assert (evolving (observes_ready st (GatewayReply sid url)) st st1) as H1
      by (apply evolving_upd; intros b; evolves_fields).
    eapply evolving_trans; [exact H1|].
    repeat (match goal with |- context [if ?b then _ else _] => destruct b end);
      first [apply evolving_resolve_false | apply evolving_upd; intros b; evolves_fields].
  - unfold on_gateway_error. destruct (attempts st !! sid) as [a|]; [|by apply evolving_same].
    destruct (negb _); [by apply evolving_same|].
    set (st1 := upd_attempt sid _ st).
    assert (evolving (observes_ready st (GatewayError sid)) st st1) as H1
      by (apply evolving_upd; intros b; evolves_fields).
    eapply evolving_trans; [exact H1|].
    destruct (isStale _ _); [by apply evolving_same|apply evolving_resolve_false].
  - apply evolving_timeout.
  - unfold on_open. destruct (listening st sid) as [[a k]|]; [|by apply evolving_same].
    destruct (isStale st a); [|by apply evolving_same].
    eapply evolving_trans; apply evolving_socket.
  - destruct (accepts st sid) eqn:Hacc.
    + destruct (on_message_accepted rev sid data st Hacc) as (a & Ha & ->).
      eapply evolving_trans; [|apply evolving_handleWebSocketMessage].
      destruct (is_ready_frame data) eqn:Hr; [|by apply evolving_same].
      eapply evolving_trans; [apply evolving_socket|].
      intros j b Hb.
      destruct (evolving_resolveOnce sid true _ j b Hb) as (c & Hc & Hbc).
      exists c. split; [done|]. cbn [observes_ready]. rewrite Hr, Hacc.
      cbn [andb] in Hbc. by rewrite !andb_true_r.
    + rewrite on_message_rejected by done. by apply evolving_same.
  - unfold on_close. destruct (listening st sid) as [[a k]|]; [|by apply evolving_same].
    destruct (isStale st a); [by apply evolving_same|].
    eapply evolving_trans; [apply evolving_close|].
    eapply evolving_trans; [apply evolving_resolve_false|].
    destruct rev; [|by apply evolving_same].
    destruct (_ && _); [apply evolving_attemptReconnect|by apply evolving_same].
  - unfold on_error. destruct (listening st sid) as [[a k]|]; [|by apply evolving_same].
    destruct (isStale st a); [by apply evolving_same|].
    eapply evolving_trans; [apply evolving_close|apply evolving_resolve_false].
  - apply evolving_same. unfold on_heartbeat. by split_goal.
  - unfold on_reconnect_delay.
    destruct (reconnectTimers st !! rid) as [tm|]; [|by apply evolving_same].
    destruct (negb (rt_armed tm)); [by apply evolving_same|].
    destruct (negb _); [by apply evolving_same|].
    match goal with
    | |- context [createWebSocketConnection ?c ?w ?s] =>
      pose proof (evolving_create (observes_ready st (ReconnectDelay rid)) c w s) as Hc;
      destruct (createWebSocketConnection c w s) as [st' [v|sid]]
    end; cbn [fst] in Hc.
    + eapply evolving_trans; [|apply evolving_reconnect_settled].
      eapply evolving_trans; [|exact Hc]. by apply evolving_same.
    + eapply evolving_trans; [|exact Hc]. by apply evolving_same.
Qed.

Lemma evolving_step rev st e : evolving (observes_ready st e) st (step rev st e).
Proof.
  unfold step. eapply evolving_trans; [apply evolving_handle|apply evolving_drain].
Qed.

Lemma evolving_run rev evs st :
  forall j a, attempts st !! j = Some a ->
    exists a', attempts (run rev evs st) !! j = Some a'
               /\ forall v, resolved a = Some v -> resolved a' = Some v.
Proof.
  revert st. induction evs as [|e evs IH]; intros st j a Ha; [eauto|].
  destruct (evolving_step rev st e j a Ha) as (b & Hb & Hab).
  destruct (IH _ _ _ Hb) as (c & Hc & Hbc).
  exists c. split; [done|]. intros v Hv. apply Hbc. by apply (ev_settled _ _ _ Hab).
Qed.

(** [resolveOnce] is once: a settled promise keeps its value. *)
Lemma outcome_stable rev evs st sid v :
  outcome st sid = Some v -> outcome (run rev evs st) sid = Some v.
Proof.
  unfold outcome. destruct (attempts st !! sid) as [a|] eqn:Ha; [|done].
  intros Hv. destruct (evolving_run rev evs st sid a Ha) as (b & -> & Hb). auto.
Qed.

Lemma attempts_run_job st job : attempts (run_job st job) = attempts st.
Proof. unfold run_job. unfold_prims. by split_goal. Qed.

Lemma attempts_drain st : attempts (drain st) = attempts st.
Proof. unfold drain. by rewrite (fold_run_job attempts) by apply attempts_run_job. Qed.

Lemma outcome_drain st sid : outcome (drain st) sid = outcome st sid.
Proof. unfold outcome. by rewrite attempts_drain. Qed.

Lemma outcome_evolving ok st st' sid v :
  evolving ok st st' -> outcome st sid = Some v -> outcome st' sid = Some v.
Proof.
  unfold outcome. intros Hev. destruct (attempts st !! sid) as [a|] eqn:Ha; [|done].
  destruct (Hev _ _ Ha) as (b & -> & Hab). intros Hv. by apply (ev_settled _ _ _ Hab).
Qed.

Lemma outcome_resolveOnce st sid v a :
  attempts st !! sid = Some a -> resolved a = None ->
  outcome (resolveOnce sid v st) sid = Some v.
Proof.
  intros Ha Hr. unfold outcome. rewrite resolveOnce_lookup, decide_True by done.
  rewrite Ha. cbn. unfold settle. by rewrite Hr.
Qed.

(** A pending promise settles with [true] exactly at the callback that
    delivers the ready acknowledgment. *)
Lemma step_true_iff rev st e sid a :
  attempts st !! sid = Some a -> resolved a = None ->
  outcome (step rev st e) sid = Some true <-> observes_ready st e sid = true.
Proof.
  intros Ha Hr. split.
  - unfold outcome. destruct (evolving_step rev st e sid a Ha) as (b & -> & Hab).
    intros Hb. by apply (ev_true _ _ _ Hab).
  - destruct e; try done. cbn [observes_ready].
    intros [[->%Nat.eqb_eq Hready]%andb_true_iff Hacc]%andb_true_iff.
    unfold step. rewrite outcome_drain. cbn [handle].
    destruct (on_message_accepted rev sid0 data st Hacc) as (a' & Ha' & ->).
    rewrite Hready.
    eapply outcome_evolving; [apply (evolving_handleWebSocketMessage (fun _ => false))|].
    rewrite Ha in Ha'. injection Ha' as <-.
    eapply outcome_resolveOnce.
    + unfold upd_socket, upd_attempt. cbn [attempts set_attempts].
      by rewrite list_lookup_alter_eq, Ha.
    + done.
Qed.

Lemma run_cons rev e evs st : run rev (e :: evs) st = run rev evs (step rev st e).
Proof. done. Qed.

Lemma run_app rev evs1 evs2 st :
  run rev (evs1 ++ evs2) st = run rev evs2 (run rev evs1 st).
Proof. unfold run. apply fold_left_app. Qed.

Lemma run_true_iff rev evs st sid a :
  attempts st !! sid = Some a -> resolved a = None ->
  outcome (run rev evs st) sid = Some true <-> ready_observed rev sid st evs.
Proof.
  revert st a. induction evs as [|e evs IH]; intros st a Ha Hr.
  - split.
    + unfold outcome. cbn. rewrite Ha, Hr. done.
    + intros (pre & data & post & Heq & _). by destruct pre.
  - rewrite run_cons.
    destruct (evolving_step rev st e sid a Ha) as (b & Hb & Hab).
    pose proof (step_true_iff rev st e sid a Ha Hr) as Hstep.
    assert (Hout : outcome (step rev st e) sid = resolved b)
      by (unfold outcome; by rewrite Hb).
    destruct (resolved b) as [v|] eqn:Hrb.
    + (* settled by this callback *)
      rewrite (outcome_stable rev evs _ sid v Hout).
      split.
      * intros [= ->]. exists [], match e with SocketMessage _ d => d | _ => mkFrame Dispatch (DJson "") None None end, evs.
        apply Hstep in Hout. destruct e; try done. cbn in Hout.
        apply andb_true_iff in Hout as [[->%Nat.eqb_eq Hready]%andb_true_iff Hacc].
        split_and!; [done| |by (unfold outcome; cbn; rewrite Ha)].
        cbn. by rewrite Nat.eqb_refl, Hready, Hacc.
      * intros (pre & data & post & Heq & Hobs & Hpend).
        destruct pre as [|e' pre].
        -- cbn in Heq. injection Heq as -> ->. cbn [run List.fold_left] in Hobs.
           apply Hstep in Hobs. congruence.
        -- cbn in Heq. injection Heq as <- ->. rewrite run_cons in Hpend.
           rewrite (outcome_stable rev pre _ sid v Hout) in Hpend. done.
    + (* still pending *)
      rewrite (IH _ b Hb Hrb). split.
      * intros (pre & data & post & -> & Hobs & Hpend).
        exists (e :: pre), data, post. by rewrite !run_cons.
      * intros (pre & data & post & Heq & Hobs & Hpend).
        destruct pre as [|e' pre].
        -- cbn in Heq. injection Heq as -> ->. cbn [run List.fold_left] in Hobs.
           apply Hstep in Hobs. congruence.
        -- cbn in Heq. injection Heq as <- ->. exists pre, data, post.
           by rewrite !run_cons in *.
Qed.

Lemma create_new cfg w st st' sid :
  createWebSocketConnection cfg w st = (st', Pending sid) ->
  exists l n, attempts st' = l ++ [mkAttempt cfg n None true true w None]
              /\ length l = length (attempts st).
Proof.
  intros Heq.
  destruct (create_spec cfg w st) as [[Hr _]|(st'' & Hr & _ & _ & Hids & _)];
    rewrite Hr in Heq; [done|]. injection Heq as -> <-.
  unfold createWebSocketConnection in Hr.
  destruct (String.eqb _ _); [done|]. destruct (negb _); [done|].
  injection Hr as <-. cbn [attempts set_attempts].
  eexists _, _. split; [done|].
  apply ids_length. destruct (cache _ !! _); [by rewrite ids_close|done].
Qed.

Lemma armed_step rev st e : armed st -> armed (step rev st e).
Proof.
  intros Harm j b Hb Hrb.
  destruct (attempts st !! j) as [a|] eqn:Ha.
  - destruct (evolving_step rev st e j a Ha) as (b' & Hb' & Hab).
    rewrite Hb in Hb'. injection Hb' as <-.
    rewrite (ev_timer _ _ _ Hab) by done. apply (Harm _ _ Ha).
    destruct (resolved a) as [v|] eqn:Hra; [|done].
    rewrite (ev_settled _ _ _ Hab _ Hra) in Hrb. done.
  - apply lookup_ge_None in Ha.
    unfold step in Hb. rewrite attempts_drain in Hb.
    assert (Hnew : forall cfg w st1, length (attempts st1) = length (attempts st) ->
              attempts (createWebSocketConnection cfg w st1).1 !! j = Some b ->
              connectionTimeout b = true).
    { intros cfg w st1 Hlen Hj.
      destruct (createWebSocketConnection cfg w st1) as [st' [v|sid]] eqn:Heq.
      - destruct (create_spec cfg w st1) as [[Hr _]|(st'' & Hr & _)]; [|congruence].
        rewrite Hr in Heq. injection Heq as <- _. cbn in Hj.
        apply lookup_lt_Some in Hj. lia.
      - destruct (create_new _ _ _ _ _ Heq) as (l & n & Hl & Hlen').
        cbn [fst] in Hj. rewrite Hl in Hj.
        apply lookup_app_Some in Hj as [Hj|[_ Hj]].
        + apply lookup_lt_Some in Hj. lia.
        + by apply list_lookup_singleton_Some in Hj as [_ <-]. }
    destruct e as [cfg|appid|sid url|sid|sid|sid|sid data|sid code|sid|tm|rid].
    3-10: match type of Hb with
          | attempts (handle ?r ?e ?s) !! _ = _ =>
            pose proof (ids_callback r e s) as Hids
          end;
      apply lookup_lt_Some in Hb; rewrite (ids_length _ _ (Hids ltac:(eauto))) in Hb; lia.
    + by eapply (Hnew cfg None st).
    + cbn [handle] in Hb. apply lookup_lt_Some in Hb.
      rewrite (ids_length _ _ (stop_ids rev appid st)) in Hb. lia.
    + cbn [handle] in Hb. unfold on_reconnect_delay in Hb.
      destruct (reconnectTimers st !! rid) as [tm|];
        [|apply lookup_lt_Some in Hb; lia].
      destruct (negb (rt_armed tm)); [apply lookup_lt_Some in Hb; lia|].
      destruct (negb _); [apply lookup_lt_Some in Hb; cbn in Hb; lia|].
      match type of Hb with
      | context [createWebSocketConnection ?c ?w ?s] =>
        pose proof (Hnew c w s eq_refl) as Hn;
        destruct (createWebSocketConnection c w s) as [st' [v|sid]]
      end; cbn [fst] in Hn.
      * apply Hn. revert Hb. unfold_prims. by split_goal.
      * by apply Hn.
Qed.

Lemma reachable_armed rev st : reachable rev st -> armed st.
Proof.
  induction 1 as [tokens|st e _ IH]; [|by apply armed_step].
  intros sid a Ha. cbn in Ha. by rewrite lookup_nil in Ha.
Qed.

(** The 10 s timer settles a pending promise with [false]. *)
Lemma timeout_settles rev st sid a :
  armed st -> attempts st !! sid = Some a -> resolved a = None ->
  outcome (step rev st (ConnTimeout sid)) sid = Some false.
Proof.
  intros Harm Ha Hr. unfold step. rewrite outcome_drain. cbn [handle].
  unfold on_timeout. rewrite Ha, (Harm _ _ Ha Hr).
  eapply outcome_resolveOnce.
  - unfold upd_attempt. cbn [attempts set_attempts]. by rewrite list_lookup_alter_eq, Ha.
  - done.
Qed.

Lemma resolved_close sid st j :
  resolved <$> attempts (close sid st) !! j = resolved <$> attempts st !! j.
Proof.
  rewrite <- !list_lookup_fmap. f_equal.
  unfold_prims. split_goal; rewrite ?fmap_alter_same by (by intros []); done.
Qed.

Lemma failure_settles rev st sid a e :
  attempts st !! sid = Some a -> resolved a = None -> isStale st a = false ->
  fails st sid a e ->
  outcome (step rev st e) sid = Some false.
Proof.
  intros Ha Hr Hst Hf. unfold step. rewrite outcome_drain.
  destruct Hf as [(code & -> & [[a' k] Hl])|[[-> [[a' k] Hl]]|[[-> Hg]|(url & -> & Hg & Hmiss)]]];
    cbn [handle].
  - unfold on_close. rewrite Hl. apply listening_Some in Hl as (Ha' & _).
    rewrite Ha in Ha'. injection Ha' as <-. rewrite Hst.
    assert (outcome (resolveOnce sid false (close sid st)) sid = Some false) as Hout.
    { pose proof (resolved_close sid st sid) as Hc. rewrite Ha in Hc.
      destruct (attempts (close sid st) !! sid) as [b|] eqn:Hb; [|done].
      cbn in Hc. injection Hc as Hc. eapply outcome_resolveOnce; [done|congruence]. }
    destruct rev; [|done]. destruct (_ && _); [|done].
    unfold outcome, attemptReconnect in *. by destruct (_ <=? _)%nat.
  - unfold on_error. rewrite Hl. apply listening_Some in Hl as (Ha' & _).
    rewrite Ha in Ha'. injection Ha' as <-. rewrite Hst.
    pose proof (resolved_close sid st sid) as Hc. rewrite Ha in Hc.
    destruct (attempts (close sid st) !! sid) as [b|] eqn:Hb; [|done].
    cbn in Hc. injection Hc as Hc. eapply outcome_resolveOnce; [done|congruence].
  - unfold on_gateway_error. rewrite Ha, Hg. cbn [negb].
    unfold isStale in *. cbn [attemptSeq upd_attempt set_attempts]. rewrite Hst.
    eapply outcome_resolveOnce.
    + unfold upd_attempt. cbn [attempts set_attempts]. by rewrite list_lookup_alter_eq, Ha.
    + done.
  - unfold on_gateway. rewrite Ha, Hg. cbn [negb].
    unfold isStale in *. cbn [attemptSeq upd_attempt set_attempts BotMap]. rewrite Hst.
    assert (outcome (resolveOnce sid false
              (upd_attempt sid (fun a => mkAttempt (config a) (attempt a) (resolved a)
                 (connectionTimeout a) false (waiter a) (socket a)) st)) sid = Some false)
      as Hout.
    { eapply outcome_resolveOnce.
      - unfold upd_attempt. cbn [attempts set_attempts].
        by rewrite list_lookup_alter_eq, Ha.
      - done. }
    destruct Hmiss as [Hu|Ht].
    + by rewrite Hu.
    + destruct (String.eqb _ _); [done|]. by rewrite Ht.
Qed.

(** C5: for an open attempt whose promise is pending, in any reachable
    state: (1) whatever happens next, the promise ends up [true] exactly
    when a Dispatch frame of type READY was observed by the attempt's
    message listener while the promise was still pending, that is, before
    the 10 s timer or anything else settled it; (2) once the 10 s timer
    fires the promise is [false] and stays [false] whatever frames follow;
    (3) a close or error of the socket, a failed gateway request, a reply
    without a URL and a missing access token settle the promise of a
    current attempt with [false]. *)
Theorem open_true_iff_ready_within_timeout rev st sid a :
  reachable rev st -> attempts st !! sid = Some a -> resolved a = None ->
  (forall evs, outcome (run rev evs st) sid = Some true <-> ready_observed rev sid st evs)
  /\ (forall evs, outcome (run rev (ConnTimeout sid :: evs) st) sid = Some false)
  /\ (forall e evs, isStale st a = false -> fails st sid a e ->
        outcome (run rev (e :: evs) st) sid = Some false).
Proof.
  intros Hreach Ha Hr. split_and!.
  - intros evs. by eapply run_true_iff.
  - intros evs. rewrite run_cons. apply outcome_stable.
    eapply timeout_settles; [by eapply reachable_armed|done..].
  - intros e evs Hst Hf. rewrite run_cons. apply outcome_stable.
    by eapply failure_settles.
Qed.

(** *** Automatic reconnection *)


Ltac same_rfoot :=
  unfold rfoot; unfold_prims; split_goal;
  rewrite ?fmap_alter_same by (by intros []); try done.


Lemma rfoot_close sid st : rfoot (close sid st) = rfoot st.
Proof. same_rfoot. Qed.

Lemma rfoot_resolveOnce sid v st : rfoot (resolveOnce sid v st) = rfoot st.
Proof. same_rfoot. Qed.

Lemma rfoot_upd_socket sid f st : rfoot (upd_socket sid f st) = rfoot st.
Proof. same_rfoot. Qed.













(** The delays of the five attempts: 1 s, 2 s, 4 s, 8 s, 16 s. *)
Lemma backoff_table : List.map backoff [0; 1; 2; 3; 4]%nat = [1000; 2000; 4000; 8000; 16000].
Proof. reflexivity. Qed.

(** *** The guards of [createWebSocketConnection] *)

Lemma reachable_run rev evs st : reachable rev st -> reachable rev (run rev evs st).
Proof.
  revert st. induction evs as [|e evs IH]; intros st H; [done|].
  cbn. apply IH. by constructor.
Qed.

(** C10: when the configuration's appId is the string 'default', or its
    event type is not 2, [createWebSocketConnection] answers [false] at once
    and leaves the whole state as it was: the attempt counter is not
    incremented, no gateway request is issued (no open attempt comes to
    exist) and the session cache is not touched.  Both copies of the file
    start with these two guards. *)
Theorem create_refuses_default_and_non_websocket cfg awaited_by st :
  appId cfg = "default" \/ ev_type (event cfg) <> 2 ->
  createWebSocketConnection cfg awaited_by st = (st, Resolved false).
Proof.
  intros H. unfold createWebSocketConnection.
  destruct (String.eqb_spec (appId cfg) "default") as [|Hd]; [done|].
  destruct (Z.eqb_spec (ev_type (event cfg)) 2) as [He|]; [|done].
  by destruct H.
Qed.

(** *** Intents *)

Lemma buildIntents_value cfg :
  buildIntents cfg
  = base_intents + (if guildMode cfg =? 1 then Z.shiftl 1 9 else Z.shiftl 1 30).
Proof. unfold buildIntents. by destruct (guildMode cfg =? 1). Qed.

Ltac same_sent := unfold_handlers; unfold_prims; by split_goal.

Lemma sent_run_job st job : sent (run_job st job) = sent st.
Proof. unfold run_job. unfold_prims. by split_goal. Qed.

Lemma sent_drain st : sent (drain st) = sent st.
Proof. unfold drain. by rewrite (fold_run_job sent) by apply sent_run_job. Qed.

Lemma sent_close sid st : sent (close sid st) = sent st.
Proof. unfold_prims. by split_goal. Qed.

Lemma sent_create cfg w st : sent (createWebSocketConnection cfg w st).1 = sent st.
Proof.
  unfold createWebSocketConnection.
  destruct (String.eqb _ _); [done|]. destruct (negb _); [done|]. cbn.
  destruct (cache st !! appId cfg); [by rewrite sent_close|done].
Qed.

Lemma sent_handleWebSocketMessage rev cfg sid data st :
  sent (handleWebSocketMessage rev cfg sid data st) = sent st
  \/ sent (handleWebSocketMessage rev cfg sid data st)
     = sent st ++ [(sid, OutIdentify (identify rev cfg (BotMap st !! appId cfg)))].
Proof.
  unfold handleWebSocketMessage.
  destruct (f_op data); try (left; unfold_prims; by split_goal).
  right. unfold_prims. by split_goal.
Qed.

Lemma sent_handle rev st e :
  sent (handle rev e st) = sent st
  \/ (exists sid k, sent (handle rev e st) = sent st ++ [(sid, OutHeartbeat k)])
  \/ (exists sid a tok, attempts st !! sid = Some a
        /\ sent (handle rev e st) = sent st ++ [(sid, OutIdentify (identify rev (config a) tok))]).
Proof.
  destruct e as [cfg|appid|sid url|sid|sid|sid|sid data|sid code|sid|tm|rid];
    cbn [handle]; try (left; same_sent).
  - left. apply sent_create.
  - left. unfold stopWebSocketConnection.
    destruct (cache _ !! _); [rewrite sent_close|]; by destruct rev.
  - destruct (accepts st sid) eqn:Hacc; [|left; by rewrite on_message_rejected].
    destruct (on_message_accepted rev sid data st Hacc) as (a & Ha & ->).
    set (st1 := if is_ready_frame data then _ else st).
    assert (Hs : sent st1 = sent st).
    { subst st1. destruct (is_ready_frame data); [|done]. unfold_prims. by split_goal. }
    destruct (sent_handleWebSocketMessage rev (config a) sid data st1) as [->| ->];
      rewrite Hs; eauto 10.
  - unfold on_heartbeat. destruct (intervals st !! tm) as [sid|]; [|by left].
    destruct (attempts st !! sid) as [a|]; [|by left].
    destruct (socket a) as [k|]; [|by left]. right. left. eauto.
  - left. unfold on_reconnect_delay.
    destruct (reconnectTimers st !! rid) as [tm|]; [|done].
    destruct (negb (rt_armed tm)); [done|]. destruct (negb _); [done|].
    match goal with
    | |- context [createWebSocketConnection ?c ?w ?s] =>
      pose proof (sent_create c w s) as Hc;
      destruct (createWebSocketConnection c w s) as [st' [v|sid]]
    end; cbn [fst] in Hc; [|done].
    unfold_prims. revert Hc. by split_goal.
Qed.

Lemma identified_step rev st e : identified rev st -> identified rev (step rev st e).
Proof.
  intros Hid sid d Hin. unfold step in Hin. rewrite sent_drain in Hin.
  assert (Hold : (sid, OutIdentify d) ∈ sent st ->
            exists a tok, attempts (step rev st e) !! sid = Some a
                          /\ d = identify rev (config a) tok).
  { intros Hs. destruct (Hid _ _ Hs) as (a & tok & Ha & ->).
    destruct (evolving_step rev st e sid a Ha) as (b & Hb & Hab).
    exists b, tok. by rewrite (ev_config _ _ _ Hab). }
  destruct (sent_handle rev st e) as [Hs|[(sid' & k & Hs)|(sid' & a & tok & Ha & Hs)]];
    rewrite Hs in Hin; [by apply Hold| |].
  - apply elem_of_app in Hin as [Hin|Hin]; [by apply Hold|].
    by apply list_elem_of_singleton in Hin.
  - apply elem_of_app in Hin as [Hin|Hin]; [by apply Hold|].
    apply list_elem_of_singleton in Hin. injection Hin as -> ->.
    destruct (evolving_step rev st e sid' a Ha) as (b & Hb & Hab).
    exists b, tok. by rewrite (ev_config _ _ _ Hab).
Qed.

Lemma reachable_identified rev st : reachable rev st -> identified rev st.
Proof.
  induction 1 as [tokens|st e _ IH]; [|by apply identified_step].
  intros sid d Hin. cbn in Hin. by apply elem_of_nil in Hin.
Qed.

(** The copy of the handler that calls [buildIntents]: every Identify
    frame it sends carries, for the configuration of the attempt it is sent
    on, the four base bits (1<<0, 1<<1, 1<<12, 1<<25) plus exactly one of
    the two guild text-message bits: 1<<9 when guildMode is 1, 1<<30
    otherwise.  The other copy of the handler sends one literal value
    whatever the configuration. *)
Theorem identify_intents_from_guildMode st sid d :
  reachable Current st -> (sid, OutIdentify d) ∈ sent st ->
  exists a, attempts st !! sid = Some a
    /\ intents d = base_intents
                   + (if guildMode (config a) =? 1 then Z.shiftl 1 9 else Z.shiftl 1 30)
    /\ Z.testbit (intents d) 9 = (guildMode (config a) =? 1)
    /\ Z.testbit (intents d) 30 = negb (guildMode (config a) =? 1)
    /\ forall cfg cfg' tok tok',
         intents (identify Legacy cfg tok) = intents (identify Legacy cfg' tok').
Proof.
  intros Hreach Hin.
  destruct (reachable_identified _ _ Hreach _ _ Hin) as (a & tok & Ha & ->).
  exists a. split; [done|]. cbn [intents identify].
  rewrite buildIntents_value. by destruct (guildMode (config a) =? 1).
Qed.

(** *** The session manager at work *)

Lemma reachable_from_init rev evs tokens : reachable rev (run rev evs (init tokens)).
Proof. apply reachable_run. constructor. Qed.

(** C4: a session that has reached Ready receives an InvalidSession frame.
    The handler closes the socket and schedules nothing; the close event
    the socket then reports for that close (code 1005: the close frame
    carried no status) reaches the close listener, which finds
    [wasReady] set and a code other than 1000 and 1001 and calls
    [attemptReconnect]: the counter goes to 1 and a reconnect is due in
    1000 ms. *)
Theorem invalid_session_close_schedules_reconnect :
  let st := run Current (Samples.to_ready ++ [SocketMessage 0 Samples.invalid_session])
              (init Samples.tokens) in
  let st' := step Current st (SocketClose 0 1005) in
  (closeCalled <$> (attempts st !! 0%nat ≫= socket)) = Some true
  /\ reconnectAttempts st !! "102030" = None
  /\ reconnectTimers st = []
  /\ reconnectAttempts st' !! "102030" = Some 1%nat
  /\ reconnectTimers st' = [mkTimer Samples.bot 1 1000 true].
Proof. vm_compute. done. Qed.

(** The two control frames in the handler itself: Reconnect closes the
    socket and calls [attemptReconnect] with 0, InvalidSession only closes
    the socket. *)
Lemma control_frames_in_handler cfg sid d t st :
  handleWebSocketMessage Current cfg sid (mkFrame Reconnect d t None) st
  = attemptReconnect cfg 0 (socket_close sid st)
  /\ handleWebSocketMessage Current cfg sid (mkFrame InvalidSession d t None) st
     = socket_close sid st.
Proof. done. Qed.

(** C7: the older copy of the handler, for a bot in private-domain mode
    (guildMode 1), answers Hello with an Identify frame whose intents are
    the literal 33558531: the four base bits and neither guild
    text-message bit, where base plus 1<<9 is due. *)
Theorem legacy_identify_sends_literal_intents :
  let st := run Legacy [Open Samples.bot; GatewayReply 0 Samples.gateway_url;
                        SocketOpen 0; SocketMessage 0 Samples.hello]
              (init Samples.tokens) in
  exists d, sent st = [(0%nat, OutIdentify d)]
    /\ guildMode Samples.bot = 1
    /\ intents d <> base_intents + Z.shiftl 1 9
    /\ Z.testbit (intents d) 9 = false /\ Z.testbit (intents d) 30 = false.
Proof.
  eexists. split; [vm_compute; reflexivity|]. vm_compute. split_and!; done.
Qed.



Lemma open_true_iff_ready_within_timeout_witness :
  let st := run Current [Open Samples.bot; GatewayReply 0 Samples.gateway_url; SocketOpen 0]
              (init Samples.tokens) in
  let a := mkAttempt Samples.bot 1 None true false None
             (Some (mkSocket true false false 0 0)) in
  attempts st !! 0%nat = Some a
  /\ outcome (run Current [SocketMessage 0 Samples.hello; SocketMessage 0 Samples.ready] st)
       0 = Some true
  /\ outcome (run Current [ConnTimeout 0; SocketMessage 0 Samples.hello;
                           SocketMessage 0 Samples.ready] st) 0 = Some false.
Proof.
  intros st a.
  assert (Ha : attempts st !! 0%nat = Some a) by (vm_compute; reflexivity).
  destruct (open_true_iff_ready_within_timeout Current st 0 a
              (reachable_from_init Current _ Samples.tokens) Ha eq_refl)
    as (Hiff & Htimeout & _).
  split_and!; [exact Ha| |apply Htimeout].
  apply Hiff. exists [SocketMessage 0 Samples.hello], Samples.ready, [].
  split_and!; [reflexivity|vm_compute; reflexivity|vm_compute; reflexivity].
Defined.

Lemma cache_entry_spared_by_other_sessions_witness :
  let st := run Current Samples.two_attempts (init Samples.tokens) in
  let ws := mkWS 1 (Some 0%nat) 1 in
  cache st !! "102030" = Some ws
  /\ cache (close 0 st) !! "102030" = Some ws
  /\ intervals (close 0 st) !! 0%nat = Some 1%nat
  /\ cache (step Current st (SocketClose 0 1006)) !! "102030" = Some ws.
Proof.
  intros st ws.
  assert (Hc : cache st !! "102030" = Some ws) by (vm_compute; reflexivity).
  assert (Hne : connectionId ws <> 0%nat) by (cbn; lia).
  destruct (cache_entry_spared_by_other_sessions Current st "102030" ws 0
              (reachable_from_init Current _ Samples.tokens) Hc Hne)
    as ((Hclose & Htimer) & Hcb).
  split_and!; [exact Hc|exact Hclose|exact (Htimer 0%nat eq_refl)|].
  exact (proj1 (Hcb (SocketClose 0 1006) eq_refl)).
Defined.

Lemma identify_intents_from_guildMode_witness :
  let st := run Current [Open Samples.bot; GatewayReply 0 Samples.gateway_url;
                         SocketOpen 0; SocketMessage 0 Samples.hello]
              (init Samples.tokens) in
  let d := identify Current Samples.bot (Some "access-token") in
  sent st = [(0%nat, OutIdentify d)]
  /\ exists a, attempts st !! 0%nat = Some a
       /\ intents d = base_intents
                      + (if guildMode (config a) =? 1 then Z.shiftl 1 9 else Z.shiftl 1 30).
Proof.
  intros st d.
  assert (Hs : sent st = [(0%nat, OutIdentify d)]) by (vm_compute; reflexivity).
  split; [exact Hs|].
  assert (Hin : (0%nat, OutIdentify d) ∈ sent st).
  { rewrite Hs. apply list_elem_of_singleton. reflexivity. }
  destruct (identify_intents_from_guildMode st 0 d
              (reachable_from_init Current _ Samples.tokens) Hin) as (a & Ha & Hi & _).
  exists a. split; [exact Ha|exact Hi].
Defined.

Lemma create_refuses_default_and_non_websocket_witness :
  ev_type (event Samples.webhook_bot) <> 2
  /\ createWebSocketConnection Samples.webhook_bot None (init Samples.tokens)
     = (init Samples.tokens, Resolved false).
Proof.
  assert (H : ev_type (event Samples.webhook_bot) <> 2) by (cbn; lia).
  split; [exact H|].
  apply create_refuses_default_and_non_websocket. right. exact H.
Defined.

End GatewayFacts.
(** ** The outbound message composer *)

Module ComposerFacts.
Import Config Composer.

Lemma blind_ret {A} (a : A) : log_blind (ret a).
Proof. by intros w w' H. Qed.

Lemma blind_lift {A} (o : option A) : log_blind (lift o).
Proof. by intros w w' H. Qed.

Lemma blind_logger level msg : log_blind (logger level msg).
Proof. by intros w w' H. Qed.

Lemma blind_bind {A B} (m : M A) (k : A -> M B) :
  log_blind m -> (forall a, log_blind (k a)) -> log_blind (bind m k).
Proof.
  intros Hm Hk w w' H. destruct (Hm w w' H) as [Hr Hw]. unfold bind.
  destruct (m w) as [[a|] w1]; destruct (m w') as [[a'|] w1']; cbn in *; try done.
  injection Hr as <-. by apply Hk.
Qed.

Lemma blind_foldM {A S} (f : S -> A -> M S) l s :
  (forall s x, log_blind (f s x)) -> log_blind (foldM f l s).
Proof.
  intros Hf. revert s. induction l as [|x l IH]; intros s; cbn.
  - apply blind_ret.
  - apply blind_bind; [apply Hf|]. intros s'. apply IH.
Qed.

Ltac blind :=
  repeat first
    [ apply blind_ret | apply blind_lift | apply blind_logger
    | apply blind_bind; [|intros ?]
    | apply blind_foldM; intros ? ?
    | match goal with
      | |- log_blind (match ?x with _ => _ end) => destruct x
      | |- log_blind (let '(_, _) := ?x in _) => destruct x
      end ].

Section Sends.

Variable host : Host.

Lemma blind_sendQQ api target item : log_blind (sendQQ host api target item).
Proof. intros w w' [H1 H2]. unfold sendQQ. cbn. split; [done|]. split; cbn; congruence. Qed.

Lemma blind_sendGuild api target item : log_blind (sendGuild host api target item).
Proof. intros w w' [H1 H2]. unfold sendGuild. cbn. split; [done|]. split; cbn; congruence. Qed.

Lemma blind_hendleText text : log_blind (hendleText host text).
Proof. unfold hendleText. blind. Qed.

Lemma blind_on_text {P} text (draft : Draft P) : log_blind (on_text host text draft).
Proof.
  unfold on_text. apply blind_bind; [apply blind_hendleText|].
  intros [[t qr] q]. blind.
Qed.

Lemma blind_qq_classify contact target draft v :
  log_blind (qq_classify host contact target draft v).
Proof. unfold qq_classify, on_media. destruct v; try apply blind_on_text; blind. Qed.

Lemma blind_guild_classify contact draft v :
  log_blind (guild_classify host contact draft v).
Proof. unfold guild_classify. destruct v; try apply blind_on_text; blind. Qed.

Lemma blind_qq_assemble contact draft : log_blind (qq_assemble host contact draft).
Proof. unfold qq_assemble. blind. Qed.

Lemma blind_qq_deliver contact draft : log_blind (qq_deliver host contact draft).
Proof.
  unfold qq_deliver. destruct (qq_pasmsg contact (pasmsg draft)) as [p f].
  apply blind_foldM. intros raw item. apply blind_bind; [apply blind_sendQQ|].
  intros res. apply blind_ret.
Qed.

Lemma blind_guild_assemble draft : log_blind (guild_assemble host draft).
Proof. unfold guild_assemble, file_form. blind. Qed.

Lemma blind_guild_deliver contact draft : log_blind (guild_deliver host contact draft).
Proof.
  unfold guild_deliver. apply blind_foldM. intros raw item.
  apply blind_bind; [|intros res; apply blind_ret].
  unfold guild_send. destruct (scene contact); apply blind_sendGuild.
Qed.

(** An unsupported element is a debug line and nothing else. *)
Lemma qq_classify_unsupported contact target draft v w :
  qq_unsupported v = true ->
  qq_classify host contact target draft v w
  = (Some draft, add_log ("debug", unsupported_log v) w).
Proof. by destruct v. Qed.

Lemma guild_classify_unsupported contact draft v w :
  guild_unsupported v = true ->
  guild_classify host contact draft v w
  = (Some draft, add_log ("debug", unsupported_log v) w).
Proof. by destruct v. Qed.

Lemma foldM_app {A S} (f : S -> A -> M S) l1 l2 s w :
  foldM f (l1 ++ l2) s w = bind (foldM f l1 s) (foldM f l2) w.
Proof.
  revert s w. induction l1 as [|x l1 IH]; intros s w; cbn; [reflexivity|].
  unfold bind at 1 3. destruct (f s x w) as [[s'|] w'] eqn:Hf.
  - rewrite IH. unfold bind at 2. rewrite Hf. reflexivity.
  - unfold bind. rewrite Hf. reflexivity.
Qed.

(** Dropping an element that only logs changes neither the result of the
    loop nor the wire. *)
Lemma foldM_skip {S} (f : S -> Element -> M S) v entry l1 l2 s w :
  (forall s w, f s v w = (Some s, add_log entry w)) ->
  (forall s x, log_blind (f s x)) ->
  (foldM f (l1 ++ v :: l2) s w).1 = (foldM f (l1 ++ l2) s w).1
  /\ same_wire (foldM f (l1 ++ v :: l2) s w).2 (foldM f (l1 ++ l2) s w).2.
Proof.
  intros Hv Hf. rewrite !foldM_app. unfold bind.
  destruct (foldM f l1 s w) as [[s1|] w1]; [|done].
  cbn [foldM]. unfold bind. rewrite Hv.
  by apply blind_foldM.
Qed.

Lemma bind_skip {A B} (m m' : M A) (k : A -> M B) w :
  (m w).1 = (m' w).1 -> same_wire (m w).2 (m' w).2 -> (forall a, log_blind (k a)) ->
  (bind m k w).1 = (bind m' k w).1 /\ same_wire (bind m k w).2 (bind m' k w).2.
Proof.
  intros Hr Hw Hk. unfold bind.
  destruct (m w) as [[a|] w1]; destruct (m' w) as [[a'|] w1']; cbn in *; try done.
  injection Hr as <-. by apply Hk.
Qed.

Lemma sendQQMsg_skips contact l1 v l2 w :
  qq_unsupported v = true ->
  (sendQQMsg host contact (l1 ++ v :: l2) w).1 = (sendQQMsg host contact (l1 ++ l2) w).1
  /\ same_wire (sendQQMsg host contact (l1 ++ v :: l2) w).2
               (sendQQMsg host contact (l1 ++ l2) w).2.
Proof.
  intros Hv. unfold sendQQMsg. apply bind_skip; [..|apply blind_qq_deliver];
    unfold qq_compose; apply bind_skip; try apply blind_qq_assemble;
    apply (foldM_skip _ v ("debug", unsupported_log v));
    try apply blind_qq_classify; intros; by apply qq_classify_unsupported.
Qed.

Lemma sendGuildMsg_skips contact l1 v l2 w :
  guild_unsupported v = true ->
  (sendGuildMsg host contact (l1 ++ v :: l2) w).1
  = (sendGuildMsg host contact (l1 ++ l2) w).1
  /\ same_wire (sendGuildMsg host contact (l1 ++ v :: l2) w).2
               (sendGuildMsg host contact (l1 ++ l2) w).2.
Proof.
  intros Hv. unfold sendGuildMsg. apply bind_skip; [..|apply blind_guild_deliver];
    unfold guild_compose; apply bind_skip; try apply blind_guild_assemble;
    apply (foldM_skip _ v ("debug", unsupported_log v));
    try apply blind_guild_classify; intros; by apply guild_classify_unsupported.
Qed.

(** The passive-reply closures leave the body of a payload alone. *)
Lemma qq_pasmsg_body contact p item :
  q_kind ((qq_pasmsg contact p).2 item) = q_kind item
  /\ q_arg ((qq_pasmsg contact p).2 item) = q_arg item.
Proof.
  unfold qq_pasmsg. destruct (_ && _); [done|].
  destruct (String.eqb _ _); [done|]. by destruct (pm_type p).
Qed.

Lemma guild_pasmsg_body p item : guild_body (guild_pasmsg p item) = guild_body item.
Proof.
  unfold guild_pasmsg. destruct (String.eqb _ _); [done|].
  by destruct (pm_type p), item.
Qed.

(** With an empty payload list the send loop sends exactly the fallback. *)
Lemma qq_deliver_fallback contact draft w :
  list_ draft = [] ->
  exists item,
    sentQQ (qq_deliver host contact draft w).2
    = sentQQ w ++ [(qq_api contact, peer contact, item)]
    /\ q_kind item = QText /\ q_arg item = unsupported_text
    /\ sentGuild (qq_deliver host contact draft w).2 = sentGuild w.
Proof.
  intros Hl. unfold qq_deliver.
  pose proof (qq_pasmsg_body contact (pasmsg draft) (QQdMsgOptions QText unsupported_text))
    as [Hk Ha].
  destruct (qq_pasmsg contact (pasmsg draft)) as [p f]. cbn [snd] in Hk, Ha.
  cbn [list_ set_pasmsg]. rewrite Hl. cbn [list_ set_list foldM].
  exists (f (QQdMsgOptions QText unsupported_text)).
  unfold bind, sendQQ. destruct (responseQQ host _ _ _); cbn; done.
Qed.

Lemma guild_deliver_fallback contact draft w :
  list_ draft = [] ->
  exists api target item,
    sentGuild (guild_deliver host contact draft w).2 = sentGuild w ++ [(api, target, item)]
    /\ guild_body item = Some (GText, unsupported_text)
    /\ sentQQ (guild_deliver host contact draft w).2 = sentQQ w.
Proof.
  intros Hl. unfold guild_deliver. rewrite Hl. cbn [list_ set_list foldM].
  pose proof (guild_pasmsg_body (pasmsg draft)
                (GJson (GuildMsgOptions GText unsupported_text None))) as Hb.
  unfold bind, guild_send, sendGuild.
  destruct (scene contact); eexists _, _, _;
    destruct (responseGuild host _ _ _); cbn; done.
Qed.

(** C9: in the direct pipeline, on both surfaces, an element whose tag the
    loop has no branch for is one debug log line and nothing else: the send
    with it gives the same result and the same payloads on the wire as the
    send without it.  And when the payload list is empty after the elements
    were classified and assembled, the send loop sends exactly one payload,
    the text "unsupported message type" (in the words of the source). *)
Theorem unsupported_elements_skipped_and_fallback_sent contact v :
  (qq_unsupported v = true ->
     (forall target draft w,
        qq_classify host contact target draft v w
        = (Some draft, add_log ("debug", unsupported_log v) w))
     /\ forall l1 l2 w,
          (sendQQMsg host contact (l1 ++ v :: l2) w).1
          = (sendQQMsg host contact (l1 ++ l2) w).1
          /\ same_wire (sendQQMsg host contact (l1 ++ v :: l2) w).2
                       (sendQQMsg host contact (l1 ++ l2) w).2)
  /\ (guild_unsupported v = true ->
        (forall draft w,
           guild_classify host contact draft v w
           = (Some draft, add_log ("debug", unsupported_log v) w))
        /\ forall l1 l2 w,
             (sendGuildMsg host contact (l1 ++ v :: l2) w).1
             = (sendGuildMsg host contact (l1 ++ l2) w).1
             /\ same_wire (sendGuildMsg host contact (l1 ++ v :: l2) w).2
                          (sendGuildMsg host contact (l1 ++ l2) w).2)
  /\ (forall elements w draft w1,
        qq_compose host contact elements w = (Some draft, w1) -> list_ draft = [] ->
        exists item,
          sentQQ (sendQQMsg host contact elements w).2
          = sentQQ w1 ++ [(qq_api contact, peer contact, item)]
          /\ q_kind item = QText /\ q_arg item = unsupported_text)
  /\ (forall elements w draft w1,
        guild_compose host contact elements w = (Some draft, w1) -> list_ draft = [] ->
        exists api target item,
          sentGuild (sendGuildMsg host contact elements w).2
          = sentGuild w1 ++ [(api, target, item)]
          /\ guild_body item = Some (GText, unsupported_text)).
Proof.
  split_and!.
  - intros Hv. split.
    + intros. by apply qq_classify_unsupported.
    + intros. by apply sendQQMsg_skips.
  - intros Hv. split.
    + intros. by apply guild_classify_unsupported.
    + intros. by apply sendGuildMsg_skips.
  - intros elements w draft w1 Hc Hl. unfold sendQQMsg, bind. rewrite Hc.
    destruct (qq_deliver_fallback contact draft w1 Hl) as (item & H1 & H2 & H3 & _).
    eauto.
  - intros elements w draft w1 Hc Hl. unfold sendGuildMsg, bind. rewrite Hc.
    destruct (guild_deliver_fallback contact draft w1 Hl) as (api & tg & item & H1 & H2 & _).
    eauto 10.
Qed.

(** *** Passive-reply sequence numbers *)

(** [normal.ts]: with a passive-reply id, and outside the wake-up case, the
    closure stamps every payload with the same number, the draft's
    [msg_seq] plus one. *)
Lemma qq_pasmsg_constant contact p item :
  msg_id p <> "" -> is_wakeup p && is_friend contact = false ->
  q_msg_seq ((qq_pasmsg contact p).2 item) = Some (msg_seq p + 1).
Proof.
  intros Hid Hw. unfold qq_pasmsg. rewrite Hw.
  destruct (String.eqb_spec (msg_id p) ""); [done|]. by destruct (pm_type p).
Qed.

(** [markdown.ts]: under the same conditions the closure counts: the k-th
    payload it is called on gets the draft's [msg_seq] plus k. *)
Lemma md_qq_pasmsg_counts contact now p items counter :
  msg_id p <> "" -> is_wakeup p && is_friend contact = false ->
  List.map q_msg_seq (call_each (md_qq_pasmsg contact now p) items counter)
  = List.map (fun k => Some (msg_seq p + counter + Z.of_nat k))
      (List.seq 0 (length items)).
Proof.
  intros Hid Hw. unfold md_qq_pasmsg. rewrite Hw.
  destruct (String.eqb_spec (msg_id p) ""); [done|].
  revert counter. induction items as [|item items IH]; intros counter; [done|].
  cbn [call_each length List.seq List.map]. f_equal.
  - destruct (pm_type p); cbn [q_msg_seq fst]; f_equal; lia.
  - rewrite IH, <- seq_shift, List.map_map. apply List.map_ext. intros k.
    f_equal. lia.
Qed.

End Sends.

(** C1: a passive reply in the direct pipeline, to a group, of one text and
    one image.  Two payloads go out, and both carry sequence number 101,
    the starting number 100 plus one: the numbers are not strictly
    increasing. *)
Theorem normal_sendQQMsg_repeats_msg_seq :
  let r := sendQQMsg Samples.host Samples.group Samples.reply_with_image world0 in
  r.1 = Some ["ok"; "ok"]
  /\ List.map (fun x => (q_kind x.2, q_msg_id x.2, q_msg_seq x.2)) (sentQQ r.2)
     = [(QText, Some "msg-1", Some 101); (QMedia, Some "msg-1", Some 101)].
Proof. vm_compute. done. Qed.

(** The template pipeline on the same elements: the closure it hands to
    the rendering strategy numbers two payloads 100 and 101. *)
Lemma markdown_sendQQMsg_counts_msg_seq :
  match (md_sendQQMsg_prepare Samples.host Samples.group 1700000000000
           Samples.reply_with_image world0).1 with
  | Some (draft, pasmsg) =>
    List.map q_msg_seq
      (call_each pasmsg [QQdMsgOptions QText "hello"; QQdMsgOptions QMedia "file"] 0)
    = [Some 100; Some 101]
  | None => False
  end.
Proof. vm_compute. done. Qed.

(** Two elements the private/group loop has no branch for: one fallback
    payload goes out and two debug lines are logged. *)
Lemma only_unsupported_elements_send_fallback :
  let r := sendQQMsg Samples.host Samples.group [EAt "all"; EFace 1] world0 in
  sentQQ r.2 = [(SendGroupMsg, "group-openid", QQdMsgOptions QText unsupported_text)]
  /\ List.map fst (log r.2) = ["debug"; "debug"].
Proof. vm_compute. done. Qed.

Lemma unsupported_elements_skipped_and_fallback_sent_witness :
  qq_unsupported (EOther "music") = true
  /\ guild_unsupported (EOther "music") = true
  /\ (sendQQMsg Samples.host Samples.group [EText "a"; EOther "music"] world0).1
     = (sendQQMsg Samples.host Samples.group [EText "a"] world0).1
  /\ (sendGuildMsg Samples.host Samples.channel [EText "a"; EOther "music"] world0).1
     = (sendGuildMsg Samples.host Samples.channel [EText "a"] world0).1
  /\ exists item,
       sentQQ (sendQQMsg Samples.host Samples.group [EOther "music"] world0).2
       = [(SendGroupMsg, "group-openid", item)]
       /\ q_kind item = QText /\ q_arg item = unsupported_text.
Proof.
  destruct (unsupported_elements_skipped_and_fallback_sent Samples.host Samples.group
              (EOther "music")) as (Hqq & Hguild & Hfall & _).
  destruct (Hqq eq_refl) as [_ Hq]. destruct (Hguild eq_refl) as [_ Hg].
  split_and!; [reflexivity|reflexivity|exact (proj1 (Hq [EText "a"] [] world0))
              |exact (proj1 (Hg [EText "a"] [] world0))|].
  exact (Hfall [EOther "music"] world0 (initList 100)
           (add_log ("debug", unsupported_log (EOther "music")) world0)
           eq_refl eq_refl).
Defined.

End ComposerFacts.

(** ** Strings as bytes *)

Module StringFacts.
Import Config.

Lemma bytes_of_app s t : bytes_of (s +:+ t) = bytes_of s ++ bytes_of t.
Proof.
  unfold bytes_of. induction s as [|c s IH]; [done|].
  simpl. by rewrite IH.
Qed.

Lemma string_of_bytes_of s : string_of (bytes_of s) = s.
Proof.
  unfold string_of, bytes_of. rewrite List.map_map.
  rewrite (List.map_ext _ id) by (intros c; apply ascii_N_embedding).
  by rewrite List.map_id, string_of_list_ascii_of_string.
Qed.

End StringFacts.

(** ** What [formatConfig] returns *)

Module FormatFacts.
Import Config Store ConfigFacts.

Lemma values_keys (m : list (string * QQBotConfig)) :
  Forall (fun kv => kv.1 = uniq_key kv.2 /\ kv.1 <> "") m ->
  List.map uniq_key (map_values m) = keys m.
Proof.
  unfold map_values, keys.
  induction 1 as [|[k v] m [Hk _] _ IH]; [done|].
  cbn [List.map fst snd] in *. by rewrite IH, Hk.
Qed.

Lemma fold_inv l : uniq_inv (List.fold_left uniq_step l []).
Proof. apply fold_uniq_inv. split; constructor. Qed.

(** What the de-duplication loop keeps has pairwise different keys, hence
    pairwise different appIds. *)
Lemma dedupe_distinct (l : list QQBotConfig) :
  NoDup (List.map uniq_key (dedupe l)) /\ NoDup (List.map appId (dedupe l)).
Proof.
  unfold dedupe. destruct (fold_inv l) as [Hnd Hall].
  set (m := List.fold_left uniq_step _ _) in *.
  assert (Hk : NoDup (List.map uniq_key (map_values m))) by by rewrite values_keys.
  split; [done|].
  apply (NoDup_fmap_1 trim). unfold uniq_key in Hk.
  by rewrite <- list_fmap_compose.
Qed.

(** X1: [formatConfig] returns records whose trimmed appIds are pairwise
    different, so that their appIds are pairwise different too, and none of
    them has an appId that is empty or all white space. *)
Theorem formatConfig_ids_distinct (user : list RawConfig) :
  NoDup (List.map uniq_key (formatConfig user))
  /\ NoDup (List.map appId (formatConfig user))
  /\ Forall (fun y => uniq_key y <> "" /\ appId y <> "") (formatConfig user).
Proof.
  unfold formatConfig.
  destruct (dedupe_distinct (List.map formatItem user)) as [Hk Ha].
  split_and!; [done|done|]. unfold dedupe.
  destruct (fold_inv (List.map formatItem user)) as [Hnd Hall].
  set (m := List.fold_left uniq_step _ _) in *.
  - unfold map_values. apply Forall_fmap. eapply Forall_impl; [exact Hall|].
    intros [k v] [Hkv Hne]; cbn in *. subst k. split; [done|].
    intros Hid. apply Hne. unfold uniq_key. by rewrite Hid.
Qed.

Lemma map_set_elem {V} k (v : V) m k' v' :
  NoDup (keys m) ->
  (k', v') ∈ map_set k v m <-> (k' = k /\ v' = v) \/ (k' <> k /\ (k', v') ∈ m).
Proof.
  unfold keys. induction m as [|[k0 v0] m IH]; intros Hnd; cbn [map_set].
  - rewrite list_elem_of_singleton. split.
    + intros [= -> ->]. by left.
    + intros [[-> ->]|[_ H]]; [done|]. by apply elem_of_nil in H.
  - cbn [List.map fst] in Hnd. apply NoDup_cons in Hnd as [Hk0 Hnd].
    destruct (String.eqb_spec k k0) as [->|Hne]; rewrite !elem_of_cons.
    + split.
      * intros [[= -> ->]|Hin]; [by left|]. right. split; [|by right].
        intros ->. apply Hk0. apply list_elem_of_In, in_map_iff.
        exists (k0, v'). split; [done|]. by apply list_elem_of_In.
      * intros [[-> ->]|[Hne [[= -> ->]|Hin]]]; [by left|done|by right].
    + rewrite (IH Hnd). split.
      * intros [[= -> ->]|[[-> ->]|[Hk Hin]]].
        -- right. split; [done|by left].
        -- by left.
        -- right. split; [done|by right].
      * intros [[-> ->]|[Hk [[= -> ->]|Hin]]].
        -- right. by left.
        -- by left.
        -- right. right. by split.
Qed.

Lemma values_elem (m : list (string * QQBotConfig)) y :
  uniq_inv m -> y ∈ map_values m <-> (uniq_key y, y) ∈ m.
Proof.
  intros [_ Hall]. unfold map_values. split.
  - intros Hy. apply list_elem_of_In, in_map_iff in Hy as ([k v] & <- & Hin).
    apply list_elem_of_In in Hin. cbn.
    eapply Forall_forall in Hall; [|exact Hin]. cbn in Hall.
    destruct Hall as [-> _]. done.
  - intros Hin. apply list_elem_of_In, in_map_iff.
    exists (uniq_key y, y). split; [done|]. by apply list_elem_of_In.
Qed.

(** One turn of the de-duplication loop, seen from the values of the map. *)
Lemma uniq_step_elem m c y :
  uniq_inv m ->
  y ∈ map_values (uniq_step m c)
  <-> (y = c /\ uniq_key c <> "") \/ (y ∈ map_values m /\ uniq_key c <> uniq_key y).
Proof.
  intros Hinv. rewrite (values_elem _ _ (uniq_step_inv m c Hinv)).
  rewrite (values_elem _ _ Hinv). unfold uniq_step.
  destruct (String.eqb_spec (uniq_key c) "") as [He|Hne].
  - split.
    + intros Hin. right. split; [done|]. rewrite He.
      destruct Hinv as [_ Hall]. eapply Forall_forall in Hall; [|exact Hin].
      cbn in Hall. destruct Hall as [_ Hk]. congruence.
    + intros [[_ ?]|[? _]]; done.
  - rewrite map_set_elem by apply Hinv. split.
    + intros [[_ ->]|[Hk Hin]]; [by left|]. right. split; [done|congruence].
    + intros [[-> _]|[Hin Hk]]; [by left|]. right. split; [congruence|done].
Qed.

Lemma fold_uniq_elem l : forall m y,
  uniq_inv m ->
  y ∈ map_values (List.fold_left uniq_step l m)
  <-> (exists pre post, l = pre ++ y :: post /\ uniq_key y <> ""
         /\ Forall (fun x => uniq_key x <> uniq_key y) post)
      \/ (y ∈ map_values m /\ Forall (fun x => uniq_key x <> uniq_key y) l).
Proof.
  induction l as [|c l IH]; intros m y Hinv; cbn [List.fold_left].
  - split.
    + intros Hy. right. by split.
    + intros [(pre & post & Hl & _)|[Hy _]]; [|done].
      by destruct pre.
  - rewrite (IH _ _ (uniq_step_inv m c Hinv)), (uniq_step_elem _ _ _ Hinv). split.
    + intros [(pre & post & -> & Hk & Hpost)|[[[-> Hk]|[Hy Hk]] Hl]].
      * left. by exists (c :: pre), post.
      * left. by exists [], l.
      * right. split; [done|]. by constructor.
    + intros [(pre & post & Hl & Hk & Hpost)|[Hy Hl]].
      * destruct pre as [|c' pre]; cbn in Hl; injection Hl as -> ->.
        -- right. split; [|done]. by left.
        -- left. by exists pre, post.
      * apply Forall_cons in Hl as [Hc Hl]. right. split; [|done]. by right.
Qed.

(** X2: a record is in the result of [formatConfig] exactly when it is
    the formatted form of an input item whose trimmed appId is not empty and
    is borne by no later item: of the items of one identity the last one is
    the one kept, and an item without identity is dropped. *)
Theorem formatConfig_last_item_wins (user : list RawConfig) (y : QQBotConfig) :
  y ∈ formatConfig user
  <-> exists pre item post,
        user = pre ++ item :: post /\ y = formatItem item /\ uniq_key y <> ""
        /\ Forall (fun x => uniq_key (formatItem x) <> uniq_key y) post.
Proof.
  unfold formatConfig, dedupe.
  rewrite fold_uniq_elem by (split; constructor). split.
  - intros [(pre & post & Hl & Hk & Hpost)|[Hy _]]; [|by apply elem_of_nil in Hy].
    apply map_eq_app in Hl as (upre & urest & -> & <- & Hrest).
    apply map_eq_cons in Hrest as (item & upost & -> & <- & <-).
    exists upre, item, upost. split_and!; [done..|].
    rewrite List.Forall_map in Hpost. exact Hpost.
  - intros (pre & item & post & -> & -> & Hk & Hpost). left.
    exists (List.map formatItem pre), (List.map formatItem post).
    rewrite List.map_app. split_and!; [done..|].
    rewrite List.Forall_map. exact Hpost.
Qed.

Lemma or_default_some v d : v <> "" -> or_default (Some v) d = v.
Proof. intros Hv. cbn. by destruct (String.eqb_spec v ""). Qed.

Lemma formatItem_as_raw y : formatted y -> formatItem (as_raw y) = y.
Proof.
  intros (Hp & Hs & Ht & Hw).
  destruct y as [aid sec pa sa ta sb qe ge gm ex re [mm mi mk] [ty url tok] ec].
  cbn [prodApi sandboxApi tokenApi event wsUrl] in *.
  unfold formatItem, as_raw.
  cbn [r_appId r_secret r_prodApi r_sandboxApi r_tokenApi r_sandbox r_qqEnable
       r_guildEnable r_guildMode r_exclude r_regex r_markdown r_event
       r_enableConvert appId secret prodApi sandboxApi tokenApi sandbox qqEnable
       guildEnable guildMode exclude regex markdown event enableConvert
       md_mode md_id md_kv spread chain r_mode r_id r_kv r_type r_wsUrl r_wsToken
       ev_type wsUrl wsToken].
  rewrite !or_default_some by done.
  do 2 f_equal. cbn. by destruct (String.eqb_spec tok "").
Qed.

(** X3: formatting is idempotent: the result of [formatConfig], handed
    back to it with every key written out, comes back unchanged. *)
Theorem formatConfig_idempotent (user : list RawConfig) :
  formatConfig (List.map as_raw (formatConfig user)) = formatConfig user.
Proof.
  unfold formatConfig at 1. rewrite List.map_map.
  rewrite (map_id_on (fun y => formatItem (as_raw y))).
  - apply dedupe_idempotent.
  - apply (dedupe_Forall (fun y => formatItem (as_raw y) = y)).
    apply Forall_forall. intros y Hy.
    apply list_elem_of_In, in_map_iff in Hy as (item & <- & _).
    apply formatItem_as_raw, formatItem_formatted.
Qed.

End FormatFacts.

(** ** The configuration store *)

Module StoreFacts.
Import Config Store ConfigFacts.

Lemma remember_other l : forall m k,
  k ∉ List.map appId l -> remember l m !! k = m !! k.
Proof.
  unfold remember. induction l as [|c l IH]; intros m k Hk; [done|].
  cbn [List.map] in Hk. apply not_elem_of_cons in Hk as [Hne Hk].
  cbn [List.fold_left]. rewrite IH by done. by rewrite lookup_insert_ne.
Qed.

Lemma remember_lookup l : forall m v,
  NoDup (List.map appId l) -> v ∈ l -> remember l m !! appId v = Some v.
Proof.
  induction l as [|c l IH]; intros m v Hnd Hv; [by apply elem_of_nil in Hv|].
  cbn [List.map] in Hnd. apply NoDup_cons in Hnd as [Hc Hnd].
  apply elem_of_cons in Hv as [->|Hv].
  - change (remember (c :: l) m) with (remember l (<[appId c := c]> m)).
    rewrite remember_other by done. apply lookup_insert_eq.
  - change (remember (c :: l) m) with (remember l (<[appId c := c]> m)).
    by apply IH.
Qed.

(** X4: when no list is cached and [config.json] exists, [config()]
    returns the formatted file and leaves every returned record in
    [cacheMap] under its appId: [getConfig] of the appId of a returned record
    gives that very record. *)
Theorem config_remembers_every_bot (user : list RawConfig) (st : State) :
  cache st = None ->
  (config (Present (Some user)) st).1 = Some (formatConfig user)
  /\ forall v, v ∈ formatConfig user ->
       getConfig (appId v) (config (Present (Some user)) st).2 = Some v.
Proof.
  intros Hc. unfold config. rewrite Hc. split; [done|]. intros v Hv.
  unfold getConfig; cbn [snd cacheMap]. apply remember_lookup; [|done].
  apply FormatFacts.dedupe_distinct.
Qed.

Lemma config_remembers_every_bot_witness :
  cache empty = None
  /\ (config (Present (Some Cases.file)) empty).1 = Some [Samples.bot]
  /\ getConfig "102030" (config (Present (Some Cases.file)) empty).2 = Some Samples.bot.
Proof.
  assert (Hf : formatConfig Cases.file = [Samples.bot]) by (vm_compute; reflexivity).
  destruct (config_remembers_every_bot Cases.file empty eq_refl) as [Hr Hget].
  split_and!; [reflexivity|by rewrite Hr, Hf|].
  apply (Hget Samples.bot). rewrite Hf. apply list_elem_of_singleton. reflexivity.
Defined.

(** X5: once [config()] has returned a list, a following call that finds
    the file returns the same list and changes nothing, whatever the file
    holds by then (and even if reading it would throw); a call that finds no
    file has returned the empty list. *)
Theorem config_keeps_first_answer (file : File) (later : option (list RawConfig))
    (st st' : State) (r : list QQBotConfig) :
  config file st = (Some r, st') ->
  config (Present later) st' = (Some r, st')
  /\ (file = Absent -> r = []).
Proof.
  unfold config. destruct file as [|user].
  - intros [= <- <-]. done.
  - destruct (cache st) as [c|] eqn:Hc.
    + intros [= <- <-]. by rewrite Hc.
    + destruct user as [user|]; [|done]. intros [= <- <-]. done.
Qed.

Lemma config_keeps_first_answer_witness :
  let st' := mkStore (Some []) ∅ (Some []) in
  config Absent empty = (Some [], st')
  /\ config (Present (Some Cases.file)) st' = (Some [], st').
Proof.
  intros st'. split; [reflexivity|].
  exact (proj1 (config_keeps_first_answer Absent (Some Cases.file) empty st' []
                  eq_refl)).
Defined.

End StoreFacts.

(** ** More on the gateway session manager *)

Module SessionFacts.
Import Config Gateway GatewayNotions GatewayFacts.

(** X6: in every reachable state, the entry cached for an identity holds
    the socket and the connection id of one and the same open attempt; that
    attempt was made for this identity, carries the identity's current
    attempt number, and is not stale. *)
Theorem cached_connection_is_latest_attempt rev st a ws :
  reachable rev st -> cache st !! a = Some ws ->
  ws_socket ws = connectionId ws
  /\ exists att, attempts st !! connectionId ws = Some att
       /\ appId (config att) = a
       /\ attempt att = seq_of st a
       /\ isStale st att = false.
Proof.
  intros Hreach Hc. pose proof (reachable_wf _ _ Hreach) as Hwf.
  split; [apply (wf_owned _ Hwf _ _ Hc)|].
  destruct (owner_attempt _ _ _ Hwf Hc) as (att & Hatt & Happ & Hn).
  exists att. split_and!; [done..|].
  apply not_stale. rewrite Happ, Hn.
  pose proof (wf_numbered _ Hwf _ _ _ (ids_lookup _ _ _ Hatt)) as [Hge _].
  rewrite Hn in Hge.
  unfold seq_of in *. destruct (attemptSeq st !! a); [done|cbn in Hge; lia].
Qed.

Lemma cached_connection_is_latest_attempt_witness :
  let st := run Current Samples.to_ready (init Samples.tokens) in
  let ws := mkWS 0 (Some 0%nat) 0 in
  cache st !! "102030" = Some ws
  /\ exists att, attempts st !! 0%nat = Some att
       /\ attempt att = seq_of st "102030" /\ isStale st att = false.
Proof.
  intros st ws.
  assert (Hc : cache st !! "102030" = Some ws) by (vm_compute; reflexivity).
  destruct (cached_connection_is_latest_attempt Current st "102030" ws
              (reachable_from_init Current _ Samples.tokens) Hc)
    as (_ & att & Ha & _ & Hseq & Hstale).
  split; [exact Hc|]. exists att. split_and!; [exact Ha|exact Hseq|exact Hstale].
Defined.

Lemma jobs_stop rev appid st : jobs (stopWebSocketConnection rev appid st) = jobs st.
Proof. unfold stopWebSocketConnection. unfold_prims. destruct rev; by split_goal. Qed.

Lemma reconnectAttempts_close sid st :
  reconnectAttempts (close sid st) = reconnectAttempts st.
Proof. pose proof (rfoot_close sid st) as H. unfold rfoot in H. by injection H. Qed.

(** X7: [stopWebSocketConnection], called in a reachable state, removes
    the identity's cache entry and no other, clears the heartbeat timer of
    the connection that was cached, advances the identity's attempt number
    by one and, in the current revision, forgets its reconnect count. *)
Theorem stop_clears_connection rev st appid :
  reachable rev st ->
  let st' := step rev st (Stop appid) in
  cache st' = delete appid (cache st)
  /\ (forall ws tm, cache st !! appid = Some ws -> heartbeatTimer ws = Some tm ->
        intervals st' = delete tm (intervals st))
  /\ seq_of st' appid = S (seq_of st appid)
  /\ (rev = Current -> reconnectAttempts st' !! appid = None).
Proof.
  intros Hreach st'. pose proof (reachable_wf _ _ Hreach) as Hwf.
  assert (Hst' : st' = stopWebSocketConnection rev appid st).
  { subst st'. unfold step. cbn [handle]. apply drain_idle.
    rewrite jobs_stop. by eapply reachable_jobs. }
  rewrite Hst'. clear st' Hst'. unfold stopWebSocketConnection.
  set (st1 := match rev with Current => _ | Legacy => _ end).
  assert (Hst1 : cache st1 = cache st /\ attempts st1 = attempts st
                 /\ intervals st1 = intervals st
                 /\ attemptSeq st1 = <[appid := S (seq_of st appid)]> (attemptSeq st)
                 /\ (rev = Current -> reconnectAttempts st1 !! appid = None)).
  { subst st1. destruct rev; cbn; split_and!; try done;
      try (unfold seq_of; f_equal; lia).
    intros _. apply lookup_delete_eq. }
  destruct Hst1 as (Hc & Ha & Hi & Hs & Hr).
  destruct (close_cached st st1 appid Hwf Hc Ha Hi) as (Hc' & _ & _ & Hs' & _).
  split_and!.
  - exact Hc'.
  - intros ws tm Hws Htm. rewrite Hc, Hws.
    destruct (owner_attempt _ _ _ Hwf Hws) as (att & Hatt & Happ & _).
    rewrite <- Ha in Hatt. subst appid. rewrite <- Hc in Hws.
    destruct (close_owner _ _ _ _ Hatt Hws eq_refl) as (_ & -> & _).
    unfold drop_timer. by rewrite Htm, Hi.
  - unfold seq_of at 1. by rewrite Hs', Hs, lookup_insert_eq.
  - intros Hrev. destruct (cache st1 !! appid); [|by apply Hr].
    rewrite reconnectAttempts_close. by apply Hr.
Qed.

Lemma stop_clears_connection_witness :
  let st := run Current Samples.to_ready (init Samples.tokens) in
  let st' := step Current st (Stop "102030") in
  cache st !! "102030" = Some (mkWS 0 (Some 0%nat) 0)
  /\ cache st' = delete "102030" (cache st)
  /\ intervals st' = delete 0%nat (intervals st)
  /\ seq_of st' "102030" = S (seq_of st "102030")
  /\ reconnectAttempts st' !! "102030" = None.
Proof.
  intros st st'.
  assert (Hc : cache st !! "102030" = Some (mkWS 0 (Some 0%nat) 0))
    by (vm_compute; reflexivity).
  destruct (stop_clears_connection Current st "102030"
              (reachable_from_init Current _ Samples.tokens))
    as (Hcache & Htimer & Hseq & Hrec).
  split_and!; [exact Hc|exact Hcache|exact (Htimer _ 0%nat Hc eq_refl)|exact Hseq
              |exact (Hrec eq_refl)].
Defined.

(** *** Forwarded events *)

Lemma emitted_close sid st : emitted (close sid st) = emitted st.
Proof. unfold_prims. by split_goal. Qed.

Lemma emitted_create cfg w st : emitted (createWebSocketConnection cfg w st).1 = emitted st.
Proof.
  unfold createWebSocketConnection.
  destruct (String.eqb _ _); [done|]. destruct (negb _); [done|]. cbn.
  destruct (cache st !! appId cfg); [by rewrite emitted_close|done].
Qed.

Lemma emitted_handleWebSocketMessage rev cfg sid data st :
  emitted (handleWebSocketMessage rev cfg sid data st)
  = match f_op data with
    | Dispatch => emitted st ++ [(appId cfg, data)]
    | _ => emitted st
    end.
Proof.
  unfold handleWebSocketMessage.
  destruct (f_op data); unfold_prims; by split_goal.
Qed.

Lemma emitted_handle rev st e :
  emitted (handle rev e st) = emitted st
  \/ exists sid a data, e = SocketMessage sid data /\ attempts st !! sid = Some a
       /\ accepts st sid = true /\ f_op data = Dispatch
       /\ emitted (handle rev e st) = emitted st ++ [(appId (config a), data)].
Proof.
  destruct e as [cfg|appid|sid url|sid|sid|sid|sid data|sid code|sid|tm|rid];
    cbn [handle];
    try (left; unfold_handlers; unfold_prims; by split_goal).
  - left. apply emitted_create.
  - left. unfold stopWebSocketConnection.
    destruct (cache _ !! _); [rewrite emitted_close|]; by destruct rev.
  - destruct (accepts st sid) eqn:Hacc; [|left; by rewrite on_message_rejected].
    destruct (on_message_accepted rev sid data st Hacc) as (a & Ha & ->).
    set (st1 := if is_ready_frame data then _ else st).
    assert (Hs : emitted st1 = emitted st).
    { subst st1. destruct (is_ready_frame data); [|done]. unfold_prims. by split_goal. }
    rewrite emitted_handleWebSocketMessage, Hs.
    destruct (f_op data) eqn:Hop; try (by left).
    right. exists sid, a, data. done.
  - left. unfold on_reconnect_delay.
    destruct (reconnectTimers st !! rid) as [tm|]; [|done].
    destruct (negb (rt_armed tm)); [done|]. destruct (negb _); [done|].
    match goal with
    | |- context [createWebSocketConnection ?c ?w ?s] =>
      pose proof (emitted_create c w s) as Hc;
      destruct (createWebSocketConnection c w s) as [st' [v|sid]]
    end; cbn [fst] in Hc; [|done].
    unfold_prims. revert Hc. by split_goal.
Qed.

(** X8: every frame that was handed to the event bus is a Dispatch frame,
    and it was emitted under the identity of an attempt that was made: no
    Hello, Heartbeat, HeartbeatACK, InvalidSession or Reconnect frame is
    ever forwarded. *)
Theorem only_dispatch_frames_forwarded rev st appid frame :
  reachable rev st -> (appid, frame) ∈ emitted st ->
  f_op frame = Dispatch
  /\ exists sid a, attempts st !! sid = Some a /\ appId (config a) = appid.
Proof.
  intros Hreach. revert appid frame.
  induction Hreach as [tokens|st e _ IH]; intros appid frame Hin.
  - cbn in Hin. by apply elem_of_nil in Hin.
  - unfold step in Hin. rewrite emitted_drain in Hin.
    assert (Hkeep : forall sid a, attempts st !! sid = Some a ->
              exists b, attempts (step rev st e) !! sid = Some b
                        /\ appId (config b) = appId (config a)).
    { intros sid a Ha. destruct (evolving_step rev st e sid a Ha) as (b & Hb & Hab).
      exists b. by rewrite (ev_config _ _ _ Hab). }
    assert (Hold : (appid, frame) ∈ emitted st ->
              f_op frame = Dispatch
              /\ exists sid a, attempts (step rev st e) !! sid = Some a
                               /\ appId (config a) = appid).
    { intros Hs. destruct (IH _ _ Hs) as (Hop & sid & a & Ha & Happ).
      split; [done|]. destruct (Hkeep _ _ Ha) as (b & Hb & Hbb).
      exists sid, b. split; [done|congruence]. }
    destruct (emitted_handle rev st e)
      as [Hs|(sid & a & data & -> & Ha & _ & Hop & Hs)];
      rewrite Hs in Hin; [by apply Hold|].
    apply elem_of_app in Hin as [Hin|Hin]; [by apply Hold|].
    apply list_elem_of_singleton in Hin. injection Hin as -> ->.
    split; [done|]. destruct (Hkeep _ _ Ha) as (b & Hb & Hbb). eauto.
Qed.

Lemma only_dispatch_frames_forwarded_witness :
  let st := run Current Samples.to_ready (init Samples.tokens) in
  emitted st = [("102030", Samples.ready)]
  /\ f_op Samples.ready = Dispatch
  /\ exists sid a, attempts st !! sid = Some a /\ appId (config a) = "102030".
Proof.
  intros st.
  assert (He : emitted st = [("102030", Samples.ready)]) by (vm_compute; reflexivity).
  assert (Hin : ("102030", Samples.ready) ∈ emitted st).
  { rewrite He. apply list_elem_of_singleton. reflexivity. }
  split; [exact He|].
  exact (only_dispatch_frames_forwarded Current st "102030" Samples.ready
           (reachable_from_init Current _ Samples.tokens) Hin).
Defined.

(** *** The older copy never reconnects *)

Lemma quiet_rfoot st st' n :
  rfoot st' = rfoot st -> quiet n st ->
  quiet n st'.
Proof. unfold quiet. congruence. Qed.

Lemma rfoot_handleWebSocketMessage_legacy cfg sid data st :
  rfoot (handleWebSocketMessage Legacy cfg sid data st) = rfoot st.
Proof. unfold handleWebSocketMessage. same_rfoot. Qed.

Lemma quiet_handle st e n :
  quiet n st ->
  exists m, quiet m (handle Legacy e st).
Proof.
  intros Hq.
  destruct e as [cfg|appid|sid url|sid|sid|sid|sid data|sid code|sid|tm|rid];
    cbn [handle].
  - unfold createWebSocketConnection.
    destruct (String.eqb _ _); [eauto|]. destruct (negb _); [eauto|]. cbn [fst].
    match goal with
    | |- context [set_attempts _ ?s] => set (s0 := s)
    end.
    assert (rfoot s0 = rfoot st) as Hs.
    { subst s0. destruct (cache _ !! _); [by rewrite rfoot_close|done]. }
    clearbody s0.
    exists (S n). unfold quiet in *. rewrite Hq in Hs. unfold rfoot in Hs. injection Hs as H1 H2 H3.
    unfold rfoot. cbn [reconnectAttempts reconnectTimers attempts set_attempts].
    rewrite H1, H2, fmap_app, H3. cbn. by rewrite <- replicate_S_end.
  - exists n. eapply quiet_rfoot; [|done]. unfold stopWebSocketConnection.
    destruct (cache _ !! _); [by rewrite rfoot_close|done].
  - exists n. eapply quiet_rfoot; [|done]. unfold on_gateway. same_rfoot.
  - exists n. eapply quiet_rfoot; [|done]. unfold on_gateway_error. same_rfoot.
  - exists n. eapply quiet_rfoot; [|done]. unfold on_timeout. same_rfoot.
  - exists n. eapply quiet_rfoot; [|done]. unfold on_open, listening. same_rfoot.
  - exists n. eapply quiet_rfoot; [|done].
    destruct (accepts st sid) eqn:Hacc; [|by rewrite on_message_rejected].
    destruct (on_message_accepted Legacy sid data st Hacc) as (a & Ha & ->).
    rewrite rfoot_handleWebSocketMessage_legacy.
    destruct (is_ready_frame data); [|done].
    rewrite rfoot_resolveOnce. apply rfoot_upd_socket.
  - exists n. eapply quiet_rfoot; [|done]. unfold on_close.
    destruct (listening st sid) as [[a k]|]; [|done].
    destruct (isStale st a); [done|].
    rewrite rfoot_resolveOnce. apply rfoot_close.
  - exists n. eapply quiet_rfoot; [|done]. unfold on_error.
    destruct (listening st sid) as [[a k]|]; [|done].
    destruct (isStale st a); [done|].
    rewrite rfoot_resolveOnce. apply rfoot_close.
  - exists n. eapply quiet_rfoot; [|done]. unfold on_heartbeat. same_rfoot.
  - exists n. unfold on_reconnect_delay.
    assert (reconnectTimers st = []) as -> by (unfold quiet, rfoot in Hq; congruence).
    by rewrite lookup_nil.
Qed.

Lemma quiet_drain st n :
  quiet n st -> quiet n (drain st).
Proof.
  intros Hq. unfold drain.
  assert (Hidle : forall job st1, quiet n st1 ->
                    run_job st1 job = st1).
  { intros job st1 H1. unfold run_job.
    destruct (attempts st1 !! job.1) as [a|] eqn:Ha; [|done].
    assert ((waiter <$> attempts st1) !! job.1 = Some (waiter a)) as Hw
      by (by rewrite list_lookup_fmap, Ha).
    unfold quiet, rfoot in H1. injection H1 as _ _ H1. rewrite H1 in Hw.
    apply lookup_replicate in Hw as [-> _]. done. }
  assert (quiet n (set_jobs (fun _ => []) st)) as H by done.
  revert H. generalize (set_jobs (fun _ => []) st). generalize (jobs st).
  induction l as [|job q IH]; intros st1 H1; [done|].
  cbn [List.fold_left]. rewrite Hidle by done. by apply IH.
Qed.

(** X9: in the older copy of the file nothing ever reconnects on its own:
    in every reachable state no reconnect is counted, none is waiting for
    its delay, and no attempt is awaited by one. *)
Theorem legacy_never_reconnects st :
  reachable Legacy st ->
  reconnectAttempts st = ∅ /\ reconnectTimers st = []
  /\ Forall (fun a => waiter a = None) (attempts st).
Proof.
  intros Hreach.
  assert (exists n, quiet n st) as [n Hq].
  { induction Hreach as [tokens|st e _ [n IH]]; [by exists 0%nat|].
    destruct (quiet_handle st e n IH) as [m Hm]. exists m.
    unfold step. by apply quiet_drain. }
  unfold quiet, rfoot in Hq. injection Hq as Hc Ht Hw. split_and!; [done..|].
  apply Forall_forall. intros a Ha.
  apply list_elem_of_lookup in Ha as [i Hi].
  assert ((waiter <$> attempts st) !! i = Some (waiter a)) as Hl
    by (by rewrite list_lookup_fmap, Hi).
  rewrite Hw in Hl. by apply lookup_replicate in Hl as [-> _].
Qed.

Lemma legacy_never_reconnects_witness :
  let st := run Legacy (Samples.to_ready ++ [SocketClose 0 1006]) (init Samples.tokens) in
  cache st !! "102030" = None
  /\ reconnectAttempts st = ∅ /\ reconnectTimers st = []
  /\ Forall (fun a => waiter a = None) (attempts st).
Proof.
  intros st. split; [vm_compute; reflexivity|].
  exact (legacy_never_reconnects st (reachable_from_init Legacy _ Samples.tokens)).
Defined.

(** *** Heartbeats *)

Lemma upd_socket_lookup sid f st a k :
  attempts st !! sid = Some a -> socket a = Some k ->
  attempts (upd_socket sid f st) !! sid = Some (with_socket f a)
  /\ socket (with_socket f a) = Some (f k).
Proof.
  intros Ha Hk. unfold upd_socket, upd_attempt. cbn [attempts set_attempts].
  rewrite list_lookup_alter_eq, Ha. split; [done|].
  unfold with_socket. cbn. by rewrite Hk.
Qed.

Ltac same_sfoot :=
  unfold sfoot; unfold_prims; split_goal;
  rewrite ?fmap_alter_same by (by intros [? ? ? ? ? ? []]); try done.

Lemma sfoot_close_call sid st : sfoot (socket_close sid st) = sfoot st.
Proof. same_sfoot. Qed.

Lemma sfoot_heartbeat sid appid i st : sfoot (setHeartbeatInterval sid appid i st) = sfoot st.
Proof. same_sfoot. Qed.

Lemma sfoot_resolveOnce sid v st : sfoot (resolveOnce sid v st) = sfoot st.
Proof. same_sfoot. Qed.

Lemma sfoot_attemptReconnect cfg n st : sfoot (attemptReconnect cfg n st) = sfoot st.
Proof. same_sfoot. Qed.

Lemma sfoot_handler rev cfg sid data st s :
  f_s data = Some s ->
  sfoot (handleWebSocketMessage rev cfg sid data st) = sfoot (setSeq sid s st).
Proof.
  intros Hs. unfold handleWebSocketMessage. rewrite Hs.
  destruct (f_op data); try done.
  - destruct rev; [rewrite sfoot_attemptReconnect|]; apply sfoot_close_call.
  - apply sfoot_close_call.
  - cbn [attempts set_sent]. apply sfoot_heartbeat.
Qed.

Lemma sfoot_setSeq sid s st a k :
  attempts st !! sid = Some a -> socket a = Some k ->
  sfoot (setSeq sid s st) !! sid = Some (Some s).
Proof.
  intros Ha Hk. unfold setSeq.
  destruct (upd_socket_lookup sid
              (fun k => mkSocket (listeners k) (closeCalled k) (isReady k) s
                          (heartbeatInterval k)) st a k Ha Hk) as [Hl Hs].
  unfold sfoot. rewrite list_lookup_fmap, Hl. cbn [fmap option_fmap option_map].
  by rewrite Hs.
Qed.

Lemma sfoot_drain st : sfoot (drain st) = sfoot st.
Proof. unfold sfoot. by rewrite attempts_drain. Qed.

(** X10: when the message listener of a socket accepts a frame that
    carries a sequence number [s], the next tick of a heartbeat timer of
    that socket sends one Heartbeat frame whose payload is [s]. *)
Theorem heartbeat_carries_last_sequence rev st sid data s tm :
  accepts st sid = true -> f_s data = Some s ->
  let st1 := step rev st (SocketMessage sid data) in
  intervals st1 !! tm = Some sid ->
  sent (step rev st1 (HeartbeatTick tm)) = sent st1 ++ [(sid, OutHeartbeat s)].
Proof.
  intros Hacc Hs st1 Htm.
  assert (Hseq : sfoot st1 !! sid = Some (Some s)).
  { subst st1. unfold step. rewrite sfoot_drain. cbn [handle].
    destruct (on_message_accepted rev sid data st Hacc) as (a & Ha & ->).
    rewrite (sfoot_handler _ _ _ _ _ s Hs).
    unfold accepts in Hacc. destruct (listening st sid) as [[a' k]|] eqn:Hl; [|done].
    apply listening_Some in Hl as (Ha' & Hk & _). rewrite Ha in Ha'. injection Ha' as <-.
    destruct (is_ready_frame data).
    - destruct (upd_socket_lookup sid
                  (fun k => mkSocket (listeners k) (closeCalled k) true (lastSeq k)
                              (heartbeatInterval k)) st a k Ha Hk) as [Hl Hk'].
      pose proof (resolveOnce_lookup sid true (upd_socket sid
                  (fun k => mkSocket (listeners k) (closeCalled k) true (lastSeq k)
                              (heartbeatInterval k)) st) sid) as Hr.
      rewrite decide_True, Hl in Hr by done. cbn in Hr.
      eapply sfoot_setSeq; [exact Hr|].
      unfold settle. destruct (resolved _); exact Hk'.
    - by eapply sfoot_setSeq. }
  unfold sfoot in Hseq. rewrite list_lookup_fmap in Hseq.
  destruct (attempts st1 !! sid) as [a1|] eqn:Ha1; [|done].
  cbn in Hseq. destruct (socket a1) as [k1|] eqn:Hk1; [|done].
  cbn in Hseq. injection Hseq as Hseq.
  unfold step. rewrite sent_drain. cbn [handle]. unfold on_heartbeat.
  by rewrite Htm, Ha1, Hk1, Hseq.
Qed.

Lemma heartbeat_carries_last_sequence_witness :
  let st := run Current Cases.to_hello (init Samples.tokens) in
  let st1 := step Current st (SocketMessage 0 Samples.ready) in
  accepts st 0 = true
  /\ intervals st1 !! 0%nat = Some 0%nat
  /\ sent (step Current st1 (HeartbeatTick 0)) = sent st1 ++ [(0%nat, OutHeartbeat 1)].
Proof.
  intros st st1.
  assert (Ha : accepts st 0 = true) by (vm_compute; reflexivity).
  assert (Hi : intervals st1 !! 0%nat = Some 0%nat) by (vm_compute; reflexivity).
  split_and!; [exact Ha|exact Hi|].
  exact (heartbeat_carries_last_sequence Current st 0 Samples.ready 1 0 Ha eq_refl Hi).
Defined.

(** *** What a true outcome stands for *)




(** *** The connection timer *)

Ltac same_tfoot :=
  unfold tfoot; unfold_prims; split_goal;
  rewrite ?fmap_alter_same by (by intros []); try done.

Lemma timer_tfoot st st' : tfoot st' = tfoot st -> timer_ok st -> timer_ok st'.
Proof.
  unfold timer_ok. intros Heq Hok i a Ha.
  assert (tfoot st' !! i = Some (resolved a, connectionTimeout a)) as Hl
    by (unfold tfoot; by rewrite list_lookup_fmap, Ha).
  rewrite Heq in Hl. unfold tfoot in Hl. rewrite list_lookup_fmap in Hl.
  destruct (attempts st !! i) as [b|] eqn:Hb; [|done].
  cbn in Hl. injection Hl as <- <-. by eapply Hok.
Qed.

Lemma tfoot_close sid st : tfoot (close sid st) = tfoot st.
Proof. same_tfoot. Qed.

Lemma tfoot_upd_socket sid f st : tfoot (upd_socket sid f st) = tfoot st.
Proof. same_tfoot. Qed.

Lemma tfoot_attemptReconnect cfg n st : tfoot (attemptReconnect cfg n st) = tfoot st.
Proof. same_tfoot. Qed.

Lemma tfoot_reconnect_settled cfg n v st : tfoot (reconnect_settled cfg n v st) = tfoot st.
Proof. same_tfoot. Qed.

Lemma tfoot_heartbeat sid appid i st : tfoot (setHeartbeatInterval sid appid i st) = tfoot st.
Proof. same_tfoot. Qed.

Lemma tfoot_handler rev cfg sid data st :
  tfoot (handleWebSocketMessage rev cfg sid data st) = tfoot st.
Proof. unfold handleWebSocketMessage. same_tfoot. Qed.

Lemma tfoot_drain st : tfoot (drain st) = tfoot st.
Proof.
  unfold drain.
  rewrite (fold_run_job (fun st => tfoot st)); [done|].
  intros st1 job. unfold run_job. split_goal; try done. apply tfoot_reconnect_settled.
Qed.

Lemma timer_resolveOnce sid v st : timer_ok st -> timer_ok (resolveOnce sid v st).
Proof.
  intros Hok i a. rewrite resolveOnce_lookup.
  destruct (decide (i = sid)) as [->|]; [|apply Hok].
  destruct (attempts st !! sid) as [b|] eqn:Hb; [|done].
  cbn. intros [= <-]. unfold settle.
  destruct (resolved b) eqn:Hr; [by apply (Hok sid)|]. cbn. done.
Qed.

Lemma timer_create cfg w st :
  timer_ok st -> timer_ok (createWebSocketConnection cfg w st).1.
Proof.
  intros Hok. unfold createWebSocketConnection.
  destruct (String.eqb _ _); [done|]. destruct (negb _); [done|]. cbn [fst].
  match goal with
  | |- context [set_attempts _ ?s] => set (s0 := s)
  end.
  assert (timer_ok s0) as Hok0.
  { subst s0. destruct (cache _ !! _); [|done].
    eapply timer_tfoot; [apply tfoot_close|done]. }
  clearbody s0. cbn [attempts set_attempts].
  intros i a [Hl|[_ Hl]]%lookup_app_Some; [by eapply Hok0|].
  apply list_lookup_singleton_Some in Hl as [_ <-]. done.
Qed.

Lemma timer_handle rev st e : timer_ok st -> timer_ok (handle rev e st).
Proof.
  intros Hok.
  destruct e as [cfg|appid|sid url|sid|sid|sid|sid data|sid code|sid|tm|rid];
    cbn [handle].
  - by apply timer_create.
  - unfold stopWebSocketConnection.
    destruct (cache _ !! _); [|by destruct rev].
    eapply timer_tfoot; [apply tfoot_close|]. by destruct rev.
  - unfold on_gateway. destruct (attempts st !! sid) as [a|] eqn:Ha; [|done].
    destruct (negb (gatewayPending a)); [done|].
    set (st1 := upd_attempt sid _ st).
    assert (timer_ok st1) as Hok1.
    { eapply timer_tfoot; [|exact Hok]. subst st1. same_tfoot. }
    destruct (isStale st1 a); [by apply timer_resolveOnce|].
    destruct (String.eqb _ _); [by apply timer_resolveOnce|].
    destruct (String.eqb _ _); [by apply timer_resolveOnce|].
    eapply timer_tfoot; [|exact Hok1]. same_tfoot.
  - unfold on_gateway_error. destruct (attempts st !! sid) as [a|] eqn:Ha; [|done].
    destruct (negb (gatewayPending a)); [done|].
    set (st1 := upd_attempt sid _ st).
    assert (timer_ok st1) as Hok1.
    { eapply timer_tfoot; [|exact Hok]. subst st1. same_tfoot. }
    destruct (isStale st1 a); [done|]. by apply timer_resolveOnce.
  - unfold on_timeout. destruct (attempts st !! sid) as [a|] eqn:Ha; [|done].
    destruct (connectionTimeout a) eqn:Ht; [|done].
    pose proof (proj1 (Hok _ _ Ha) Ht) as Hr.
    intros i b. rewrite resolveOnce_lookup.
    unfold upd_attempt. cbn [attempts set_attempts].
    destruct (decide (i = sid)) as [->|Hne].
    + rewrite list_lookup_alter_eq, Ha. cbn. intros [= <-].
      unfold settle. cbn. rewrite Hr. cbn. done.
    + rewrite list_lookup_alter_ne by done. apply Hok.
  - eapply timer_tfoot; [|exact Hok]. unfold on_open, listening. same_tfoot.
  - destruct (accepts st sid) eqn:Hacc; [|by rewrite on_message_rejected].
    destruct (on_message_accepted rev sid data st Hacc) as (a & Ha & ->).
    eapply timer_tfoot; [apply tfoot_handler|].
    destruct (is_ready_frame data); [|done].
    apply timer_resolveOnce. eapply timer_tfoot; [apply tfoot_upd_socket|done].
  - unfold on_close. destruct (listening st sid) as [[a k]|]; [|done].
    destruct (isStale st a); [done|].
    assert (timer_ok (resolveOnce sid false (close sid st))) as H1.
    { apply timer_resolveOnce. eapply timer_tfoot; [apply tfoot_close|done]. }
    destruct rev; [|done]. destruct (_ && _); [|done].
    eapply timer_tfoot; [apply tfoot_attemptReconnect|done].
  - unfold on_error. destruct (listening st sid) as [[a k]|]; [|done].
    destruct (isStale st a); [done|].
    apply timer_resolveOnce. eapply timer_tfoot; [apply tfoot_close|done].
  - eapply timer_tfoot; [|exact Hok]. unfold on_heartbeat. same_tfoot.
  - unfold on_reconnect_delay.
    destruct (reconnectTimers st !! rid) as [tm|] eqn:Htm; [|done].
    destruct (negb (rt_armed tm)); [done|].
    set (st1 := set_reconnectTimers _ st).
    assert (timer_ok st1) as Hok1 by done.
    destruct (negb _); [done|].
    pose proof (timer_create (rt_config tm) (Some (rt_attempt tm)) st1 Hok1) as Hc.
    destruct (createWebSocketConnection _ _ st1) as [st' [v|sid]]; cbn [fst] in Hc;
      [|done].
    eapply timer_tfoot; [apply tfoot_reconnect_settled|done].
Qed.

(** X12: in every reachable state the 10 s connection timer of an attempt
    is armed exactly while the attempt's promise is not settled: settling
    clears it, and nothing else does. *)
Theorem timer_armed_exactly_while_pending rev st sid a :
  reachable rev st -> attempts st !! sid = Some a ->
  (connectionTimeout a = true <-> resolved a = None).
Proof.
  intros Hreach. revert sid a.
  induction Hreach as [tokens|st e _ IH]; intros sid a.
  - cbn. by rewrite lookup_nil.
  - unfold step. apply (timer_tfoot (handle rev e st)); [apply tfoot_drain|].
    by apply timer_handle.
Qed.

Lemma timer_armed_exactly_while_pending_witness :
  let st := run Current Cases.to_hello (init Samples.tokens) in
  let a := mkAttempt Samples.bot 1 None true false None
             (Some (mkSocket true false false 0 30000)) in
  attempts st !! 0%nat = Some a
  /\ (connectionTimeout a = true <-> resolved a = None).
Proof.
  intros st a.
  assert (Ha : attempts st !! 0%nat = Some a) by (vm_compute; reflexivity).
  split; [exact Ha|].
  exact (timer_armed_exactly_while_pending Current st 0 a
           (reachable_from_init Current _ Samples.tokens) Ha).
Defined.

End SessionFacts.

(** ** Image type detection *)

Module ImageFacts.
Import Config Images StringFacts.

Lemma extension_known p ext : extension p = Some ext -> ext ∈ extensions.
Proof.
  unfold extension. intros H. apply List.find_some in H as [H _].
  by apply list_elem_of_In.
Qed.

(** X13: whatever the bytes and the path, [detectImageType] answers with
    one of five pairs of a file name and a content type, and the two always
    agree. *)
Theorem detectImageType_range (buffer : list N) (filePath : option string) :
  detectImageType buffer filePath ∈ image_types.
Proof.
  unfold detectImageType.
  destruct (match filePath with Some p => _ | None => None end) as [ext|] eqn:He.
  - assert (ext ∈ extensions) as Hin.
    { destruct filePath as [p|]; [|done].
      destruct (String.eqb p ""); [done|]. by eapply extension_known. }
    unfold extensions in Hin. repeat (apply elem_of_cons in Hin as [->|Hin]);
      [cbn; unfold image_types; set_solver..|by apply elem_of_nil in Hin].
  - unfold image_types. repeat case_match; set_solver.
Qed.

Lemma starts_with_app p l : starts_with p (p ++ l) = true.
Proof. induction p as [|a p IH]; [done|]. cbn. by rewrite N.eqb_refl, IH. Qed.

Lemma toLowerCase_app s t : toLowerCase (s +:+ t) = toLowerCase s ++ toLowerCase t.
Proof. unfold toLowerCase. by rewrite bytes_of_app, List.map_app. Qed.

(** X14: a path that ends in a dot and one of the five extensions, in any
    mix of capitals, decides the answer: the bytes of the buffer are not
    looked at. *)
Theorem detectImageType_extension_first (buffer : list N) (stem name ext : string) :
  ext ∈ extensions -> toLowerCase name = bytes_of ext ->
  detectImageType buffer (Some (stem +:+ "." +:+ name))
  = ("image." +:+ ext, default "image/jpeg" (mimeMap ext)).
Proof.
  intros Hin Hname. unfold detectImageType.
  assert (String.eqb (stem +:+ "." +:+ name) "" = false) as ->.
  { apply String.eqb_neq. by destruct stem. }
  assert (extension (stem +:+ "." +:+ name) = Some ext) as ->.
  { unfold extension, ends_with. rewrite !toLowerCase_app, Hname.
    rewrite !List.rev_app_distr.
    unfold extensions in *.
    repeat (apply elem_of_cons in Hin as [->|Hin]);
      [reflexivity..|by apply elem_of_nil in Hin]. }
  done.
Qed.

Lemma detectImageType_extension_first_witness :
  detectImageType [255%N; 216%N; 255%N] (Some "photo.PNG") = ("image.png", "image/png").
Proof.
  assert (Hin : "png" ∈ extensions).
  { unfold extensions. do 2 apply list_elem_of_further. apply list_elem_of_here. }
  exact (detectImageType_extension_first [255%N; 216%N; 255%N] "photo" "PNG" "png"
           Hin eq_refl).
Defined.

End ImageFacts.

(** ** More on the outbound message composer *)

Module DeliveryFacts.
Import Config Composer ComposerParts ComposerFacts.

(** *** Composition hands nothing to the platform *)

Lemma same_wire_refl w : same_wire w w.
Proof. by split. Qed.

Lemma same_wire_trans w1 w2 w3 : same_wire w1 w2 -> same_wire w2 w3 -> same_wire w1 w3.
Proof. intros [H1 H2] [H3 H4]. split; congruence. Qed.

Lemma silent_ret {A} (a : A) : silent (ret a).
Proof. intros w. apply same_wire_refl. Qed.

Lemma silent_lift {A} (o : option A) : silent (lift o).
Proof. intros w. apply same_wire_refl. Qed.

Lemma silent_logger level msg : silent (logger level msg).
Proof. intros w. by split. Qed.

Lemma silent_bind {A B} (m : M A) (k : A -> M B) :
  silent m -> (forall a, silent (k a)) -> silent (bind m k).
Proof.
  intros Hm Hk w. unfold bind. specialize (Hm w).
  destruct (m w) as [[a|] w1]; cbn in *; [|done].
  eapply same_wire_trans; [apply Hk|done].
Qed.

Lemma silent_foldM {A S} (f : S -> A -> M S) l s :
  (forall s x, silent (f s x)) -> silent (foldM f l s).
Proof.
  intros Hf. revert s. induction l as [|x l IH]; intros s; cbn.
  - apply silent_ret.
  - apply silent_bind; [apply Hf|]. intros s'. apply IH.
Qed.

Ltac solve_silent :=
  repeat first
    [ apply silent_ret | apply silent_lift | apply silent_logger
    | apply silent_bind; [|intros ?]
    | apply silent_foldM; intros ? ?
    | match goal with
      | |- silent (match ?x with _ => _ end) => destruct x
      | |- silent (let '(_, _) := ?x in _) => destruct x
      end ].

Lemma silent_on_text {P} host text (draft : Draft P) : silent (on_text host text draft).
Proof.
  unfold on_text. apply silent_bind; [unfold hendleText; solve_silent|].
  intros [[t qr] q]. solve_silent.
Qed.

Lemma silent_qq_compose host contact elements : silent (qq_compose host contact elements).
Proof.
  unfold qq_compose. apply silent_bind.
  - apply silent_foldM. intros d v. unfold qq_classify, on_media.
    destruct v; try apply silent_on_text; solve_silent.
  - intros d. unfold qq_assemble. solve_silent.
Qed.

Lemma silent_guild_compose host contact elements :
  silent (guild_compose host contact elements).
Proof.
  unfold guild_compose. apply silent_bind.
  - apply silent_foldM. intros d v. unfold guild_classify.
    destruct v; try apply silent_on_text; solve_silent.
  - intros d. unfold guild_assemble, file_form. solve_silent.
Qed.

(** X15: the loop over the elements and the assembly of the payloads hand
    nothing to the platform, on either surface; when they throw, the send
    throws with nothing sent. *)
Theorem composition_sends_nothing host contact elements w :
  same_wire (qq_compose host contact elements w).2 w
  /\ same_wire (guild_compose host contact elements w).2 w
  /\ ((qq_compose host contact elements w).1 = None ->
        (sendQQMsg host contact elements w).1 = None
        /\ same_wire (sendQQMsg host contact elements w).2 w)
  /\ ((guild_compose host contact elements w).1 = None ->
        (sendGuildMsg host contact elements w).1 = None
        /\ same_wire (sendGuildMsg host contact elements w).2 w).
Proof.
  pose proof (silent_qq_compose host contact elements w) as Hq.
  pose proof (silent_guild_compose host contact elements w) as Hg.
  split_and!; [done|done| |].
  - unfold sendQQMsg, bind. destruct (qq_compose host contact elements w) as [[d|] w1];
      [done|]. by intros _.
  - unfold sendGuildMsg, bind.
    destruct (guild_compose host contact elements w) as [[d|] w1]; [done|]. by intros _.
Qed.

Lemma composition_sends_nothing_witness :
  let elements := [EText "a"; EImage "a.png"] in
  (qq_compose Cases.offline_host Samples.group elements world0).1 = None
  /\ (sendQQMsg Cases.offline_host Samples.group elements world0).1 = None
  /\ same_wire (sendQQMsg Cases.offline_host Samples.group elements world0).2 world0
  /\ (guild_compose Cases.offline_host Samples.channel elements world0).1 = None
  /\ (sendGuildMsg Cases.offline_host Samples.channel elements world0).1 = None
  /\ same_wire (sendGuildMsg Cases.offline_host Samples.channel elements world0).2 world0.
Proof.
  intros elements.
  assert (Hq : (qq_compose Cases.offline_host Samples.group elements world0).1 = None)
    by (vm_compute; reflexivity).
  assert (Hg : (guild_compose Cases.offline_host Samples.channel elements world0).1 = None)
    by (vm_compute; reflexivity).
  destruct (composition_sends_nothing Cases.offline_host Samples.group elements world0)
    as (_ & _ & Hqq & _).
  destruct (composition_sends_nothing Cases.offline_host Samples.channel elements world0)
    as (_ & _ & _ & Hguild).
  destruct (Hqq Hq) as [Hq1 Hq2]. destruct (Hguild Hg) as [Hg1 Hg2].
  split_and!; [exact Hq|exact Hq1|exact Hq2|exact Hg|exact Hg1|exact Hg2].
Defined.

(** *** The send loop *)

Lemma send_loop_cons host api target item (items : list SendQQMsg) raw w :
  foldM (fun rawData item =>
           res <- sendQQ host api target item ;; ret (rawData ++ [res]))
    (item :: items) raw w
  = let w1 := mkWorld (log w) (sentQQ w ++ [(api, target, item)]) (sentGuild w) in
    match responseQQ host api target item with
    | Some res =>
      foldM (fun rawData item =>
               res <- sendQQ host api target item ;; ret (rawData ++ [res]))
        items (raw ++ [res]) w1
    | None => (None, w1)
    end.
Proof.
  cbn [foldM]. unfold bind, sendQQ, ret. cbn zeta.
  by destruct (responseQQ host api target item).
Qed.

Lemma send_loop host api target (items : list SendQQMsg) : forall raw w,
  let respond := responseQQ host api target in
  let r := foldM (fun rawData item =>
                    res <- sendQQ host api target item ;; ret (rawData ++ [res]))
             items raw w in
  r.1 = (fun l => raw ++ l) <$> mapM respond items
  /\ sentQQ r.2
     = sentQQ w ++ List.map (fun i => (api, target, i))
                     (attempted (fun i => bool_decide (is_Some (respond i))) items)
  /\ sentGuild r.2 = sentGuild w /\ log r.2 = log w.
Proof.
  induction items as [|item items IH]; intros raw w; cbn zeta.
  - cbn. by rewrite !app_nil_r.
  - rewrite send_loop_cons. cbn zeta. cbn [attempted mapM]. unfold mbind, option_bind.
    destruct (responseQQ host api target item) as [res|] eqn:Hres.
    + specialize (IH (raw ++ [res])
                    (mkWorld (log w) (sentQQ w ++ [(api, target, item)]) (sentGuild w))).
      cbn zeta in IH.
      set (r := foldM _ items (raw ++ [res]) _) in *.
      destruct IH as (H1 & H2 & H3 & H4).
      rewrite bool_decide_true by (by eexists).
      cbn [sentQQ sentGuild log List.map] in *.
      split_and!; [|by rewrite H2, <- app_assoc|done|done].
      rewrite H1. destruct (mapM _ items) as [l|]; cbn; [|done]. by rewrite <- app_assoc.
    + rewrite bool_decide_false by (by intros [? ?]). cbn. done.
Qed.

Lemma foldM_map {A B S} (f : S -> B -> M S) (g : A -> B) l : forall s w,
  foldM (fun s x => f s (g x)) l s w = foldM f (List.map g l) s w.
Proof.
  induction l as [|x l IH]; intros s w; [done|].
  cbn [foldM List.map]. unfold bind.
  destruct (f s (g x) w) as [[s'|] w']; [apply IH|done].
Qed.

(** X16: the send loop of the private/group surface hands over the
    payloads in order, each stamped by the passive-reply closure, and stops
    at the first one the platform refuses: the send returns every response
    when all are accepted and throws otherwise, and what reached the
    platform is the payloads up to and including the first refused one. *)
Theorem send_loop_stops_at_first_refusal host contact (draft : Draft SendQQMsg) w :
  let stamp := (qq_pasmsg contact (pasmsg draft)).2 in
  let respond := responseQQ host (qq_api contact) (peer contact) in
  let payloads := match list_ draft with
                  | [] => [QQdMsgOptions QText unsupported_text]
                  | items => items
                  end in
  let r := qq_deliver host contact draft w in
  r.1 = mapM respond (List.map stamp payloads)
  /\ sentQQ r.2
     = sentQQ w ++ List.map (fun i => (qq_api contact, peer contact, i))
                     (attempted (fun i => bool_decide (is_Some (respond i)))
                        (List.map stamp payloads))
  /\ sentGuild r.2 = sentGuild w /\ log r.2 = log w.
Proof.
  cbn zeta. unfold qq_deliver.
  destruct (qq_pasmsg contact (pasmsg draft)) as [p stamp]. cbn [snd].
  set (payloads := match list_ draft with [] => _ | _ => _ end).
  assert (Hp : list_ (match list_ (set_pasmsg p draft) with
                      | [] => set_list [QQdMsgOptions QText unsupported_text]
                                (set_pasmsg p draft)
                      | _ => set_pasmsg p draft
                      end) = payloads).
  { subst payloads. destruct draft as [c i iu fs pm r k b m mt l]. cbn. by destruct l. }
  rewrite Hp. clearbody payloads. clear Hp.
  rewrite (foldM_map (fun rawData item =>
                        res <- sendQQ host (qq_api contact) (peer contact) item ;;
                        ret (rawData ++ [res])) stamp).
  destruct (send_loop host (qq_api contact) (peer contact) (List.map stamp payloads) [] w)
    as (H1 & H2 & H3 & H4).
  cbn zeta in *. rewrite H1, H2, H3, H4. split_and!; try done.
  by destruct (mapM _ _).
Qed.

(** *** The message a send refers to *)

Lemma on_text_pasmsg {P} host text (draft d' : Draft P) w w' :
  on_text host text draft w = (Some d', w') -> pasmsg d' = pasmsg draft.
Proof.
  unfold on_text, bind. destruct (hendleText host text w) as [[[[t qr] q]|] w1]; [|done].
  destruct (truthy qr); [by intros [= <- _]|].
  destruct q as [[|q0 more]|]; by intros [= <- _].
Qed.

Lemma on_media_pasmsg host contact target v file draft d' w w' :
  on_media host contact target v file draft w = (Some d', w') -> pasmsg d' = pasmsg draft.
Proof.
  unfold on_media, bind, lift, ret.
  destruct (if startsWith "http" file then _ else _) as [[url|] w1]; [|done].
  destruct (uploadMedia host _ _ _ _); [|done]. by intros [= <- _].
Qed.

Lemma push_form_pasmsg {P} v (draft : Draft P) : pasmsg (push_form v draft) = pasmsg draft.
Proof. by destruct v. Qed.

Lemma qq_classify_reference host contact target draft v d' w w' :
  qq_classify host contact target draft v w = (Some d', w') ->
  pasmsg d' = qq_reference contact (pasmsg draft) v.
Proof.
  destruct v; cbn [qq_classify qq_reference];
    try (by intros H; apply on_text_pasmsg in H);
    try (by intros H; apply on_media_pasmsg in H);
    try (by intros [= <- _]; rewrite ?push_form_pasmsg).
  destruct (String.eqb (msg_id (pasmsg draft)) ""); by intros [= <- _].
Qed.

Lemma qq_loop_reference host contact target elements : forall draft d' w w',
  foldM (qq_classify host contact target) elements draft w = (Some d', w') ->
  pasmsg d' = List.fold_left (qq_reference contact) elements (pasmsg draft).
Proof.
  induction elements as [|v l IH]; intros draft d' w w'; cbn [foldM List.fold_left].
  - by intros [= <- _].
  - unfold bind. destruct (qq_classify host contact target draft v w) as [[d1|] w1] eqn:Hv;
      [|done].
    intros H. apply IH in H. by rewrite H, (qq_classify_reference _ _ _ _ _ _ _ _ Hv).
Qed.

Lemma reference_seq contact l : forall p,
  msg_seq (List.fold_left (qq_reference contact) l p) = msg_seq p.
Proof.
  induction l as [|v l IH]; intros p; [done|]. cbn [List.fold_left]. rewrite IH.
  destruct v; try done; cbn.
  - by destruct (String.eqb _ _).
  - unfold qq_on_pasmsg. by destruct (_ && _).
Qed.

Lemma reference_type contact l : forall p,
  pm_type (List.fold_left (qq_reference contact) l p) = SrcEvent
  <-> pm_type p = SrcEvent \/ existsb from_event l = true.
Proof.
  induction l as [|v l IH]; intros p; cbn [List.fold_left existsb].
  - split; [by left|]. by intros [?|?].
  - rewrite IH. rewrite orb_true_iff.
    assert (pm_type (qq_reference contact p v) = SrcEvent
            <-> pm_type p = SrcEvent \/ from_event v = true) as ->; [|tauto].
    destruct v; cbn; try (split; [by left|by intros [?|?]]).
    + destruct (String.eqb _ _); cbn; split; try (by left); by intros [?|?].
    + unfold qq_on_pasmsg. destruct (_ && _), source; cbn; split; auto;
        by intros [?|?].
Qed.

Lemma reference_kept contact l : forall p,
  existsb is_pasmsg l = false -> msg_id p <> "" ->
  msg_id (List.fold_left (qq_reference contact) l p) = msg_id p.
Proof.
  induction l as [|v l IH]; intros p Hl Hp; [done|].
  cbn [existsb] in Hl. apply orb_false_iff in Hl as [Hv Hl].
  cbn [List.fold_left].
  assert (qq_reference contact p v = p) as ->; [|by apply IH].
  destruct v; try done. cbn. by destruct (String.eqb_spec (msg_id p) "").
Qed.

Lemma reference_untouched contact l : forall p,
  existsb is_pasmsg l = false -> existsb is_reply l = false ->
  List.fold_left (qq_reference contact) l p = p.
Proof.
  induction l as [|v l IH]; intros p Hl Hr; [done|].
  cbn [existsb] in Hl, Hr. apply orb_false_iff in Hl as [Hv Hl].
  apply orb_false_iff in Hr as [Hv' Hr].
  cbn [List.fold_left]. rewrite <- (IH p Hl Hr) at 2. f_equal. by destruct v.
Qed.

(** X17: which message a private/group send refers to once its loop is
    through: the sequence number is the initial one; the reference is to an
    event exactly when some [pasmsg] element came from an event; the last
    [pasmsg] element, when it has an id and is not a wake-up to a friend,
    gives the id; and without any [pasmsg] element the first [reply]
    element gives it, when it has one. *)
Theorem passive_reference_of_a_send host contact elements w draft w' :
  foldM (qq_classify host contact (qq_target contact)) elements (initList (seq0 host)) w
  = (Some draft, w') ->
  let p := pasmsg draft in
  msg_seq p = seq0 host
  /\ (pm_type p = SrcEvent <-> existsb from_event elements = true)
  /\ (forall pre id source wakeup post,
        elements = pre ++ EPasmsg id source wakeup :: post ->
        existsb is_pasmsg post = false ->
        wakeup && is_friend contact = false -> id <> "" ->
        msg_id p = id)
  /\ (forall pre messageId post,
        existsb is_pasmsg elements = false ->
        elements = pre ++ EReply messageId :: post ->
        existsb is_reply pre = false -> messageId <> "" ->
        msg_id p = messageId).
Proof.
  intros Hloop p. subst p. rewrite (qq_loop_reference _ _ _ _ _ _ _ _ Hloop).
  cbn [pasmsg initList]. split_and!.
  - by rewrite reference_seq.
  - rewrite reference_type. cbn. split; [by intros [?|?]|by right].
  - intros pre id source wakeup post -> Hpost Hw Hid.
    rewrite fold_left_app. cbn [List.fold_left qq_reference].
    rewrite reference_kept; try done; unfold qq_on_pasmsg; by rewrite Hw.
  - intros pre m post Hnone -> Hpre Hm.
    rewrite existsb_app in Hnone. apply orb_false_iff in Hnone as [Hnp Hnq].
    cbn [existsb is_pasmsg orb] in Hnq.
    rewrite fold_left_app, (reference_untouched contact pre) by done.
    cbn [List.fold_left qq_reference msg_id String.eqb].
    by rewrite reference_kept.
Qed.

Lemma passive_reference_of_a_send_witness :
  match foldM (qq_classify Samples.host Samples.group (qq_target Samples.group))
          Samples.reply_with_image (initList (seq0 Samples.host)) world0 with
  | (Some draft, _) =>
    msg_id (pasmsg draft) = "msg-1" /\ msg_seq (pasmsg draft) = 100
    /\ pm_type (pasmsg draft) = SrcMsg
  | (None, _) => False
  end.
Proof.
  destruct (foldM (qq_classify Samples.host Samples.group (qq_target Samples.group))
              Samples.reply_with_image (initList (seq0 Samples.host)) world0)
    as [[draft|] w'] eqn:H; [|vm_compute in H; discriminate].
  destruct (passive_reference_of_a_send Samples.host Samples.group
              Samples.reply_with_image world0 draft w' H) as (Hseq & Htype & Hlast & _).
  split_and!.
  - apply (Hlast [] "msg-1" SrcMsg false [EText "hello"; EImage "http://x/y.png"]);
      [reflexivity|reflexivity|reflexivity|discriminate].
  - exact Hseq.
  - destruct (pm_type (pasmsg draft)); [reflexivity|].
    discriminate (proj1 Htype eq_refl).
Defined.

(** *** The payload list of a guild send *)






(** *** The template pipeline *)

(** X19: unless the send is a wake-up to a friend, the passive-reply
    closure of the template pipeline numbers the payloads it is called on
    with consecutive sequence numbers: from [Date.now() % 0xFFFFFFFF] when
    there is no message id, from the reference's [msg_seq] when there is
    one. *)
Theorem template_pipeline_numbers_payloads contact now p items :
  is_wakeup p && is_friend contact = false ->
  let base := if String.eqb (msg_id p) "" then now mod 4294967295 else msg_seq p in
  List.map q_msg_seq (call_each (md_qq_pasmsg contact now p) items 0)
  = List.map (fun k => Some (base + Z.of_nat k)) (List.seq 0 (length items)).
Proof.
  intros Hw base.
  assert (Hgen : forall counter,
    List.map q_msg_seq (call_each (md_qq_pasmsg contact now p) items counter)
    = List.map (fun k => Some (base + counter + Z.of_nat k)) (List.seq 0 (length items))).
  { subst base. unfold md_qq_pasmsg. rewrite Hw.
    destruct (String.eqb (msg_id p) "");
      (induction items as [|item items IH]; intros counter; [done|];
       cbn [call_each length List.seq List.map]; f_equal;
       [try destruct (pm_type p); cbn [q_msg_seq fst]; f_equal; lia
       |rewrite IH, <- seq_shift, List.map_map; apply List.map_ext; intros k;
        f_equal; lia]). }
  rewrite Hgen. apply List.map_ext. intros k. f_equal. lia.
Qed.

Lemma template_pipeline_numbers_payloads_witness :
  List.map q_msg_seq
    (call_each (md_qq_pasmsg Samples.group 8589934595
                  (mkPasmsg SrcMsg "" 100 false))
       [QQdMsgOptions QText "a"; QQdMsgOptions QMedia "b"; QQdMsgOptions QText "c"] 0)
  = [Some 5; Some 6; Some 7].
Proof.
  exact (template_pipeline_numbers_payloads Samples.group 8589934595
           (mkPasmsg SrcMsg "" 100 false)
           [QQdMsgOptions QText "a"; QQdMsgOptions QMedia "b"; QQdMsgOptions QText "c"]
           eq_refl).
Defined.

Lemma blind_md_qq_classify host contact target draft v :
  log_blind (md_qq_classify host contact target draft v).
Proof.
  unfold md_qq_classify, on_media. destruct v; blind.
Qed.

Lemma blind_md_guild_classify host contact draft v :
  log_blind (md_guild_classify host contact draft v).
Proof. unfold md_guild_classify. destruct v; blind. Qed.

(** X20: an element the loops of the template pipeline have no branch for
    changes neither the draft that is prepared nor what is sent; an [at]
    element in a group is the exception that is both added to the content
    and logged as unsupported. *)
Theorem template_pipeline_skips_unsupported host contact now v :
  (md_qq_unsupported v = true ->
     forall l1 l2 w,
       (md_sendQQMsg_prepare host contact now (l1 ++ v :: l2) w).1
       = (md_sendQQMsg_prepare host contact now (l1 ++ l2) w).1
       /\ same_wire (md_sendQQMsg_prepare host contact now (l1 ++ v :: l2) w).2
                    (md_sendQQMsg_prepare host contact now (l1 ++ l2) w).2)
  /\ (md_guild_unsupported v = true ->
        forall l1 l2 w,
          (md_sendGuildMsg_prepare host contact (l1 ++ v :: l2) w).1
          = (md_sendGuildMsg_prepare host contact (l1 ++ l2) w).1
          /\ same_wire (md_sendGuildMsg_prepare host contact (l1 ++ v :: l2) w).2
                       (md_sendGuildMsg_prepare host contact (l1 ++ l2) w).2)
  /\ (forall targetId target draft w,
        is_friend contact = false ->
        exists text,
          md_qq_classify host contact target draft (EAt targetId) w
          = (Some (push_content text draft),
             add_log ("debug", unsupported_log (EAt targetId)) w)).
Proof.
  split_and!.
  - intros Hv l1 l2 w. unfold md_sendQQMsg_prepare.
    apply bind_skip; [..|intros d; apply blind_ret];
      apply (foldM_skip _ v ("debug", unsupported_log v));
      try (intros; apply blind_md_qq_classify); intros; by destruct v.
  - intros Hv l1 l2 w. unfold md_sendGuildMsg_prepare.
    apply bind_skip; [..|intros d; apply blind_ret];
      apply (foldM_skip _ v ("debug", unsupported_log v));
      try (intros; apply blind_md_guild_classify); intros; by destruct v.
  - intros targetId target draft w Hf. cbn [md_qq_classify]. rewrite Hf.
    eexists. reflexivity.
Qed.

Lemma template_pipeline_skips_unsupported_witness :
  md_qq_unsupported (EFace 1) = true
  /\ md_guild_unsupported (EVideo "v.mp4") = true
  /\ (md_sendQQMsg_prepare Samples.host Samples.group 0 [EText "a"; EFace 1] world0).1
     = (md_sendQQMsg_prepare Samples.host Samples.group 0 [EText "a"] world0).1
  /\ (md_sendGuildMsg_prepare Samples.host Samples.channel [EText "a"; EVideo "v.mp4"]
        world0).1
     = (md_sendGuildMsg_prepare Samples.host Samples.channel [EText "a"] world0).1.
Proof.
  destruct (template_pipeline_skips_unsupported Samples.host Samples.group 0 (EFace 1))
    as (Hqq & _ & _).
  destruct (template_pipeline_skips_unsupported Samples.host Samples.channel 0
              (EVideo "v.mp4")) as (_ & Hguild & _).
  split_and!; [reflexivity|reflexivity
              |exact (proj1 (Hqq eq_refl [EText "a"] [] world0))
              |exact (proj1 (Hguild eq_refl [EText "a"] [] world0))].
Defined.

End DeliveryFacts.

(** ** Bot instances *)

Module BotFacts.
Import Config Bots.

Lemma tidy_init : tidy init.
Proof. intros a. unfold listeners_of. cbn. by rewrite !lookup_empty. Qed.

(** What the state of another identity goes through in one call: its
    instance and its listeners stay, and the registry only grows. *)
Lemma createBot_other net bot st a :
  a <> appId bot ->
  botInstances (createBot net bot st).2 !! a = botInstances st !! a
  /\ listeners_of (createBot net bot st).2 a = listeners_of st a
  /\ exists more, registry (createBot net bot st).2 = registry st ++ more.
Proof.
  intros Hne. unfold createBot, failed, listeners_of.
  repeat case_match; cbn;
    rewrite ?lookup_insert_ne, ?lookup_delete_ne by done;
    (split_and!; [done|done|]);
    first [by exists []; rewrite app_nil_r | by eexists].
Qed.

Lemma createBot_self net bot st :
  tidy st ->
  match botInstances (createBot net bot st).2 !! appId bot with
  | Some inst =>
    listeners_of (createBot net bot st).2 (appId bot) = [client inst]
    /\ registered inst = true
    /\ exists t, registeredType inst = Some t
                 /\ (t, client inst) ∈ registry (createBot net bot st).2
  | None => listeners_of (createBot net bot st).2 (appId bot) = []
  end.
Proof.
  intros Htidy. specialize (Htidy (appId bot)).
  unfold createBot, listeners_of in *.
  destruct (ev_type (event bot) =? 0) eqn:H0.
  { cbn. by rewrite !lookup_delete_eq. }
  destruct (botInstances st !! appId bot) as [existing|] eqn:Hex.
  - destruct Htidy as (_ & Hreg & t & Ht & Hin).
    destruct (ev_type (event bot) =? 2); cbn;
      rewrite !lookup_insert_eq, ?lookup_delete_eq; cbn; eauto.
  - assert (Hgone : forall s, listeners s = listeners st ->
              botInstances (failed (appId bot) s).2 !! appId bot = None
              /\ default [] (listeners (failed (appId bot) s).2 !! appId bot) = []).
    { intros s Hs. unfold failed. cbn. by rewrite !lookup_delete_eq. }
    destruct (token net); cbn [negb];
      [|by destruct (Hgone (call (GetAccessToken (appId bot) (secret bot)) st) eq_refl)
           as [-> ->]].
    destruct (me net) as [data|];
      [|by destruct (Hgone (call (GetMe (appId bot))
                             (call (GetAccessToken (appId bot) (secret bot)) st)) eq_refl)
           as [-> ->]].
    destruct (String.eqb (me_id data) "");
      [by destruct (Hgone (call (GetMe (appId bot))
                             (call (GetAccessToken (appId bot) (secret bot)) st)) eq_refl)
           as [-> ->]|].
    destruct (if String.eqb (me_share_url data) "" then _ else _) as [qq|];
      [|by destruct (Hgone (call (GetMe (appId bot))
                             (call (GetAccessToken (appId bot) (secret bot)) st)) eq_refl)
           as [-> ->]].
    destruct (ev_type (event bot) =? 2); [destruct (ws net); cbn [negb]|].
    + cbn. rewrite !lookup_insert_eq. cbn. rewrite Htidy. cbn.
      split_and!; [done|done|]. eexists. split; [done|].
      apply elem_of_app. right. by apply list_elem_of_singleton.
    + cbn. by rewrite Hex.
    + cbn. rewrite !lookup_insert_eq. cbn. rewrite Htidy. cbn.
      split_and!; [done|done|]. eexists. split; [done|].
      apply elem_of_app. right. by apply list_elem_of_singleton.
Qed.

Lemma tidy_createBot net bot st : tidy st -> tidy (createBot net bot st).2.
Proof.
  intros Htidy a. destruct (decide (a = appId bot)) as [->|Hne].
  - by apply createBot_self.
  - destruct (createBot_other net bot st a Hne) as (-> & -> & more & ->).
    specialize (Htidy a). destruct (botInstances st !! a) as [inst|]; [|done].
    destruct Htidy as (H1 & H2 & t & Ht & Hin). split_and!; [done|done|].
    exists t. split; [done|]. apply elem_of_app. by left.
Qed.

(** X21: after any number of [createBot] calls made one after the other,
    an identity that has an instance has exactly one event listener, the
    one of the instance's client, and the instance is marked registered
    with a type under which that client was registered; an identity without
    an instance has no listener. *)
Theorem one_listener_per_registered_bot (l : list (Net * QQBotConfig)) (appId : string) :
  match botInstances (run l init) !! appId with
  | Some inst =>
    listeners_of (run l init) appId = [client inst]
    /\ registered inst = true
    /\ exists t, registeredType inst = Some t /\ (t, client inst) ∈ registry (run l init)
  | None => listeners_of (run l init) appId = []
  end.
Proof.
  assert (tidy (run l init)) as H; [|apply H].
  unfold run. generalize tidy_init. generalize init.
  induction l as [|c l IH]; intros st Hst; [done|].
  cbn [List.fold_left]. apply IH. by apply tidy_createBot.
Qed.

(** X22: one call of [createBot] either leaves the registrations as they
    are, or registers one new client: this happens only when the identity
    had no instance, the bot is not switched off and, in WebSocket mode, the
    connection came up; the client is built from this configuration and is
    the one stored in the instance. *)
Theorem registerBot_only_for_a_new_connected_bot net bot st :
  let st' := (createBot net bot st).2 in
  registry st' = registry st
  \/ (botInstances st !! appId bot = None
      /\ ev_type (event bot) <> 0
      /\ (ev_type (event bot) = 2 -> ws net = true)
      /\ exists c,
           clients st' !! length (clients st) = Some c
           /\ kind c = createClient bot /\ _config c = bot /\ selfId c = appId bot
           /\ registry st'
              = registry st ++ [(if ev_type (event bot) =? 2 then WebSocketClient else Http,
                                 length (clients st))]
           /\ botInstances st' !! appId bot
              = Some (mkInstance (length (clients st)) bot true
                        (Some (if ev_type (event bot) =? 2 then WebSocketClient
                               else Http)))).
Proof.
  cbn zeta. unfold createBot, failed.
  destruct (Z.eqb_spec (ev_type (event bot)) 0) as [H0|H0]; [by left|].
  destruct (botInstances st !! appId bot) as [existing|] eqn:Hex.
  { left. by destruct (ev_type (event bot) =? 2). }
  destruct (token net); cbn [negb]; [|by left].
  destruct (me net) as [data|]; [|by left].
  destruct (String.eqb (me_id data) ""); [by left|].
  destruct (if String.eqb (me_share_url data) "" then _ else _) as [qq|]; [|by left].
  destruct (Z.eqb_spec (ev_type (event bot)) 2) as [H2|H2].
  - destruct (ws net) eqn:Hws; cbn [negb]; [|by left].
    right. split_and!; [done..|]. eexists. cbn.
    rewrite lookup_insert_eq, lookup_app_r, Nat.sub_diag by done. cbn. done.
  - right. split_and!; [done..|]. eexists. cbn.
    rewrite lookup_insert_eq, lookup_app_r, Nat.sub_diag by done. cbn. done.
Qed.

(** X23: when [createBot] throws, the identity had no instance and has
    none afterwards, it has no listener left, nothing was registered, and
    the instances and listeners of every other identity are as before. *)
Theorem createBot_throw_leaves_nothing net bot st :
  (createBot net bot st).1 = Threw ->
  let st' := (createBot net bot st).2 in
  botInstances st !! appId bot = None
  /\ botInstances st' !! appId bot = None
  /\ listeners_of st' (appId bot) = []
  /\ registry st' = registry st
  /\ forall a, a <> appId bot ->
       botInstances st' !! a = botInstances st !! a
       /\ listeners_of st' a = listeners_of st a.
Proof.
  intros Hthrew st'.
  assert (Hother : forall a, a <> appId bot ->
            botInstances st' !! a = botInstances st !! a
            /\ listeners_of st' a = listeners_of st a).
  { intros a Hne. destruct (createBot_other net bot st a Hne) as (? & ? & _). done. }
  subst st'. revert Hthrew Hother. unfold createBot, failed, listeners_of.
  repeat case_match; cbn; try done; intros _ Hother;
    rewrite ?lookup_delete_eq; done.
Qed.

Lemma createBot_throw_leaves_nothing_witness :
  let r := createBot Cases.no_token Samples.bot init in
  r.1 = Threw
  /\ botInstances r.2 !! "102030" = None
  /\ listeners_of r.2 "102030" = []
  /\ registry r.2 = [].
Proof.
  intros r.
  assert (H : (createBot Cases.no_token Samples.bot init).1 = Threw) by reflexivity.
  destruct (createBot_throw_leaves_nothing Cases.no_token Samples.bot init H)
    as (_ & Hi & Hl & Hr & _).
  split_and!; [exact H|exact Hi|exact Hl|exact Hr].
Defined.

(** X24: [createBot] for an identity that has an instance returns
    normally, keeps the client object and its registration, and stores the
    new configuration in the instance; the client takes the new address and
    secret, while the adapter class it was built as and the configuration
    it captured stay those of its creation. *)
Theorem update_keeps_the_client net bot st inst c :
  botInstances st !! appId bot = Some inst -> ev_type (event bot) <> 0 ->
  clients st !! client inst = Some c ->
  let st' := (createBot net bot st).2 in
  (createBot net bot st).1 = Returned
  /\ botInstances st' !! appId bot
     = Some (mkInstance (client inst) bot (registered inst) (registeredType inst))
  /\ registry st' = registry st
  /\ listeners_of st' (appId bot) = [client inst]
  /\ exists c', clients st' !! client inst = Some c'
       /\ kind c' = kind c /\ _config c' = _config c
       /\ address c' = api_url bot /\ adapter_secret c' = secret bot.
Proof.
  intros Hex H0 Hc. cbn zeta. unfold createBot, listeners_of.
  destruct (Z.eqb_spec (ev_type (event bot)) 0) as [|_]; [done|]. rewrite Hex.
  destruct (ev_type (event bot) =? 2); cbn;
    rewrite !lookup_insert_eq, lookup_delete_eq, list_lookup_alter_eq, Hc; cbn;
    split_and!; try done; by eexists.
Qed.

Lemma update_keeps_the_client_witness :
  let st := (createBot Cases.online Samples.webhook_bot init).2 in
  let st' := (createBot Cases.online Cases.markdown_bot st).2 in
  botInstances st !! "102030" = Some (mkInstance 0 Samples.webhook_bot true (Some Http))
  /\ createClient Cases.markdown_bot = RawMarkdown
  /\ botInstances st' !! "102030" = Some (mkInstance 0 Cases.markdown_bot true (Some Http))
  /\ registry st' = registry st
  /\ exists c', clients st' !! 0%nat = Some c'
       /\ kind c' = Normal /\ _config c' = Samples.webhook_bot.
Proof.
  intros st st'.
  set (inst := mkInstance 0 Samples.webhook_bot true (Some Http)).
  assert (Hi : botInstances st !! appId Cases.markdown_bot = Some inst)
    by (vm_compute; reflexivity).
  assert (He : ev_type (event Cases.markdown_bot) <> 0) by (cbn; lia).
  destruct (clients st !! client inst) as [c|] eqn:Hc; [|vm_compute in Hc; discriminate].
  assert (Hk : kind c = Normal /\ _config c = Samples.webhook_bot).
  { vm_compute in Hc. injection Hc as <-. split; reflexivity. }
  destruct (update_keeps_the_client Cases.online Cases.markdown_bot st inst c Hi He Hc)
    as (_ & Hinst & Hreg & _ & c' & Hc' & Hkind & Hcfg & _).
  split_and!; [exact Hi|reflexivity|exact Hinst|exact Hreg|].
  exists c'. split_and!; [exact Hc'|by rewrite Hkind, (proj1 Hk)|by rewrite Hcfg, (proj2 Hk)].
Defined.

End BotFacts.

(** ** The settings page *)

Module WebUIFacts.
Import Config Store WebUI ConfigFacts StringFacts FormatFacts.

Lemma dedupe_elem l y :
  y ∈ dedupe l
  <-> exists pre post, l = pre ++ y :: post /\ uniq_key y <> ""
        /\ Forall (fun x => uniq_key x <> uniq_key y) post.
Proof.
  unfold dedupe. rewrite fold_uniq_elem by (split; constructor). split.
  - intros [H|[H _]]; [done|by apply elem_of_nil in H].
  - intros H. by left.
Qed.

Lemma dedupe_sub l y : y ∈ dedupe l -> y ∈ l /\ uniq_key y <> "".
Proof.
  intros (pre & post & -> & Hk & _)%dedupe_elem. split; [|done].
  apply elem_of_app. right. by left.
Qed.



Section Saved.
Variable Number : string -> JsNumber.

Lemma collect_elem items y :
  y ∈ collect Number items
  <-> exists item, item ∈ items /\ required item = true /\ y = record_of Number item.
Proof.
  unfold collect. rewrite list_elem_of_In, in_map_iff. split.
  - intros (item & <- & Hin). apply filter_In in Hin as [Hin Hr].
    exists item. by rewrite list_elem_of_In.
  - intros (item & Hin & Hr & ->). exists item. split; [done|].
    apply filter_In. by rewrite <- list_elem_of_In.
Qed.

Lemma record_formatted item : formatted (record_of Number item).
Proof. unfold formatted, record_of. cbn. done. Qed.

Lemma one_of_in allowed n : (0 ∈ allowed) -> one_of allowed n ∈ allowed.
Proof. intros H0. destruct n as [z| |]; cbn; try done. by case_bool_decide. Qed.

Lemma guildMode_of_range x : guildMode_of x ∈ [0; 1].
Proof.
  unfold guildMode_of.
  destruct (match x with Str _ => _ | Num _ => _ end) as [[|[| |]|]| |];
    set_solver.
Qed.

Lemma processedRegex_nonempty l :
  Forall (fun r => r.1 <> "" /\ r.2 <> "") (processedRegex l).
Proof.
  unfold processedRegex. apply Forall_forall. intros r Hr.
  apply list_elem_of_In, filter_In in Hr as [_ Hr].
  apply andb_true_iff in Hr as [H1 H2].
  split; apply String.eqb_neq; by apply negb_true_iff.
Qed.

(** X25: the records [save] hands to [writeConfig] have pairwise different
    trimmed appIds, a non-empty appId and secret, a guild mode of 0 or 1, a
    markdown mode among 0, 1, 3, 4, 5, an event type among 0, 1, 2, regex
    pairs without an empty side, the built-in endpoints, and no
    [enableConvert]. *)
Theorem save_normalises (items : list Item) :
  let def := getDefaultConfig in
  NoDup (List.map uniq_key (dedupe (collect Number items)))
  /\ Forall (fun y =>
       appId y <> "" /\ secret y <> "" /\ trim (appId y) <> ""
       /\ guildMode y ∈ [0; 1]
       /\ md_mode (markdown y) ∈ [0; 1; 3; 4; 5]
       /\ ev_type (event y) ∈ [0; 1; 2]
       /\ Forall (fun r => r.1 <> "" /\ r.2 <> "") (regex y)
       /\ prodApi y = prodApi def /\ sandboxApi y = sandboxApi def
       /\ tokenApi y = tokenApi def
       /\ wsUrl (event y) = wsUrl (event def) /\ wsToken (event y) = wsToken (event def)
       /\ enableConvert y = None)
     (dedupe (collect Number items)).
Proof.
  intros def. split.
  - apply dedupe_distinct.
  - apply Forall_forall. intros y Hy. apply dedupe_sub in Hy as [Hy Hk].
    apply collect_elem in Hy as (item & _ & Hreq & ->).
    unfold required in Hreq. apply andb_true_iff in Hreq as [Ha Hs].
    apply negb_true_iff, String.eqb_neq in Ha, Hs.
    cbn [record_of appId secret guildMode markdown md_mode event ev_type regex
         prodApi sandboxApi tokenApi wsUrl wsToken enableConvert].
    split_and!; try done.
    + apply guildMode_of_range.
    + apply one_of_in. set_solver.
    + apply one_of_in. set_solver.
    + apply processedRegex_nonempty.
Qed.

Lemma write_deduped l :
  Forall formatted l ->
  writeConfig (List.map as_raw (dedupe l)) = cleanConfigForWrite (dedupe l).
Proof.
  intros Hl. unfold writeConfig, formatConfig. rewrite List.map_map.
  rewrite (map_id_on (fun y => formatItem (as_raw y))).
  - by rewrite dedupe_idempotent.
  - apply (dedupe_Forall (fun y => formatItem (as_raw y) = y)).
    eapply Forall_impl; [exact Hl|]. intros y. apply formatItem_as_raw.
Qed.

Lemma save_written items file :
  (save Number items).2 = Some file ->
  file = cleanConfigForWrite (dedupe (collect Number items))
  /\ success (save Number items).1 = true
  /\ message (save Number items).1
     = "成功保存 " +:+ pretty (length (List.filter required items)) +:+ " 个配置项".
Proof.
  unfold save.
  destruct (collect Number items) as [|d0 data] eqn:Hdata; [done|].
  destruct (dedupe (d0 :: data)) as [|f0 final] eqn:Hfinal; [done|].
  cbn [snd fst success message]. intros [= <-]. split_and!; [|done|].
  - change (as_raw f0 :: List.map as_raw final) with (List.map as_raw (f0 :: final)).
    rewrite <- Hfinal, <- Hdata. apply write_deduped.
    apply Forall_forall. intros y Hy.
    apply collect_elem in Hy as (item & _ & _ & ->). apply record_formatted.
  - unfold collect in Hdata. apply (f_equal length) in Hdata.
    rewrite length_map in Hdata. by rewrite Hdata.
Qed.

(** X26: what [save] writes reads back, through [formatConfig], as exactly
    the de-duplicated records it collected, and the file names none of the
    endpoint keys. *)
Theorem save_then_load (items : list Item) (file : list RawConfig) :
  (save Number items).2 = Some file ->
  file = cleanConfigForWrite (dedupe (collect Number items))
  /\ formatConfig file = dedupe (collect Number items)
  /\ Forall (fun r =>
       r_prodApi r = None /\ r_sandboxApi r = None /\ r_tokenApi r = None
       /\ forall e, r_event r = Some e -> r_wsUrl e = None /\ r_wsToken e = None)
     file.
Proof.
  intros Hs. destruct (save_written items file Hs) as (-> & _ & _).
  split_and!; [done| |].
  - unfold formatConfig, cleanConfigForWrite. rewrite List.map_map.
    rewrite (map_id_on (fun y => formatItem (cleanItem y))).
    + apply dedupe_idempotent.
    + apply (dedupe_Forall (fun y => formatItem (cleanItem y) = y)).
      apply Forall_forall. intros y Hy.
      apply collect_elem in Hy as (item & _ & _ & ->).
      apply formatItem_cleanItem, record_formatted.
  - unfold cleanConfigForWrite. rewrite List.Forall_map.
    apply Forall_forall. intros y Hy. apply dedupe_sub in Hy as [Hy _].
    apply collect_elem in Hy as (item & _ & _ & ->).
    cbn. split_and!; try done. intros e.
    unfold cleanEvent. cbn. destruct (_ && _); [done|]. by intros [= <-].
Qed.


End Saved.

Lemma save_then_load_witness :
  match (save Cases.Number Cases.items).2 with
  | Some file =>
    formatConfig file = dedupe (collect Cases.Number Cases.items)
    /\ formatConfig file = [Samples.bot]
  | None => False
  end.
Proof.
  destruct (save Cases.Number Cases.items).2 as [file|] eqn:H;
    [|vm_compute in H; discriminate].
  destruct (save_then_load Cases.Number Cases.items file H) as (_ & Hload & _).
  split; [exact Hload|]. rewrite Hload. vm_compute. reflexivity.
Defined.

(** *** The regex field *)

Lemma bytes_of_nonempty s : s <> "" -> bytes_of s <> [].
Proof. by destruct s. Qed.

Lemma ws_len_plain a l : (a < 128)%N -> ws1 a = false -> ws_len (a :: l) = 0%nat.
Proof.
  intros Ha H1. unfold ws_len. rewrite H1.
  assert (forall k, (128 <= k)%N -> (a =? k)%N = false) as Hk
    by (intros k Hk; apply N.eqb_neq; lia).
  destruct l as [|b [|c l]]; [done| |]; unfold ws2, ws3;
    rewrite !Hk by lia; done.
Qed.

(** A piece that holds no white space still holds none when an ASCII
    character that is not white space follows it. *)
Lemma ws_len_before_plain x rest (d : N) :
  x <> [] -> ws_len x = 0%nat -> (d < 128)%N ->
  ws_len (x ++ d :: rest) = 0%nat.
Proof.
  intros Hx H0 Hd.
  assert (forall k, (128 <= k)%N -> (d =? k)%N = false) as Hk
    by (intros k Hk; apply N.eqb_neq; lia).
  assert (forall k, (128 <= k)%N -> (k <=? d)%N = false) as Hl
    by (intros k Hk'; apply N.leb_gt; lia).
  destruct x as [|a [|b [|c x]]]; [done| | |].
  - cbn in H0 |- *. destruct (ws1 a); [done|].
    unfold ws2. rewrite Hk by lia. rewrite andb_false_r.
    destruct rest as [|c rest]; [done|]. unfold ws3.
    rewrite !Hk by lia. rewrite !andb_false_r. done.
  - cbn in H0 |- *. destruct (ws1 a); [done|]. destruct (ws2 a b); [done|].
    unfold ws3. rewrite !Hk, !Hl by lia. rewrite !andb_false_r. done.
  - exact H0.
Qed.

Lemma trimStart_keep l : ws_len l = 0%nat -> trimStart l = l.
Proof.
  destruct l as [|a [|b [|c l]]]; cbn; [done| | |].
  - by destruct (ws1 a).
  - destruct (ws1 a); [done|]. by destruct (ws2 a b).
  - destruct (ws1 a); [done|]. destruct (ws2 a b); [done|]. by destruct (ws3 a b c).
Qed.

Lemma trimEndRev_keep l : trimEndRev (62%N :: l) = 62%N :: l.
Proof.
  destruct l as [|b [|c l]]; cbn; [done| |]; unfold ws2, ws3; cbn;
    rewrite ?andb_false_r; done.
Qed.

Lemma trim_keep l :
  ws_len l = 0%nat -> (exists l', l = l' ++ [62%N]) ->
  string_of (List.rev (trimEndRev (List.rev (trimStart l)))) = string_of l.
Proof.
  intros H0 [l' ->]. rewrite trimStart_keep by done.
  rewrite List.rev_app_distr. cbn [List.rev app]. rewrite trimEndRev_keep.
  cbn [List.rev]. by rewrite List.rev_involutive.
Qed.

(** A piece without white space is scanned through. *)
Lemma split_word w : forall rest r cur,
  w <> [] ->
  (forall n, (n < length w)%nat -> ws_len (drop n w ++ rest) = 0%nat) ->
  split_go (w ++ rest) 0 r cur = split_go rest 0 false (List.rev w ++ cur).
Proof.
  induction w as [|a w IH]; intros rest r cur Hne Hfree; [done|].
  pose proof (Hfree 0%nat ltac:(cbn; lia)) as H0. cbn [drop] in H0.
  change ((a :: w) ++ rest) with (a :: (w ++ rest)) in *.
  cbn [split_go]. rewrite H0. cbn [List.rev]. rewrite <- app_assoc. cbn [app].
  destruct w as [|b w]; [done|].
  apply IH; [done|]. intros n Hn. apply (Hfree (S n)). cbn in *. lia.
Qed.

Lemma split_space rest cur :
  split_go (32%N :: rest) 0 false cur = List.rev cur :: split_go rest 0 true [].
Proof. done. Qed.

(** The shown form of a word: [<], the word, [>]. *)
Lemma shown_word_free word rest :
  (forall n, ws_len (drop n word) = 0%nat) ->
  forall n, (n < length (60%N :: word ++ [62%N]))%nat ->
    ws_len (drop n (60%N :: word ++ [62%N]) ++ rest) = 0%nat.
Proof.
  intros Hfree n Hn. destruct n as [|n].
  - by apply ws_len_plain.
  - cbn [drop]. cbn [length] in Hn. rewrite length_app in Hn. cbn in Hn.
    destruct (decide (n < length word)%nat) as [Hlt|Hge].
    + rewrite drop_app_le by lia. rewrite <- app_assoc. cbn [app].
      apply ws_len_before_plain; [|apply Hfree|done].
      intros Hnil. apply (f_equal length) in Hnil. rewrite length_drop in Hnil.
      cbn in Hnil. lia.
    + assert (n = length word) as -> by lia.
      rewrite drop_app_length. by apply ws_len_plain.
Qed.

Lemma strip_shown word : strip_angle (60%N :: word ++ [62%N]) = word.
Proof.
  unfold strip_angle. cbn. rewrite List.rev_app_distr. cbn.
  apply List.rev_involutive.
Qed.

Lemma processRegex_shown reg rep :
  no_space reg -> no_space rep ->
  processRegex (regex_field (reg, rep)) = (reg, rep).
Proof.
  intros Hreg Hrep. unfold processRegex, regex_field. cbn [fst snd].
  set (R := bytes_of reg). set (P := bytes_of rep).
  assert (Hb : bytes_of ("<" +:+ reg +:+ "> <" +:+ rep +:+ ">")
               = (60%N :: R ++ [62%N]) ++ 32%N :: (60%N :: P ++ [62%N])).
  { rewrite !bytes_of_app. subst R P. cbn. rewrite <- !app_assoc. done. }
  assert (Ht : trim ("<" +:+ reg +:+ "> <" +:+ rep +:+ ">")
               = "<" +:+ reg +:+ "> <" +:+ rep +:+ ">").
  { unfold trim. rewrite Hb. rewrite trim_keep.
    - by rewrite <- Hb, string_of_bytes_of.
    - by apply ws_len_plain.
    - exists ((60%N :: R ++ [62%N]) ++ 32%N :: 60%N :: P).
      by rewrite <- !app_assoc. }
  rewrite Ht, Hb. unfold split_ws.
  rewrite split_word; [|done|by apply shown_word_free].
  rewrite split_space, app_nil_r, List.rev_involutive.
  rewrite <- (app_nil_r (60%N :: P ++ [62%N])) at 1.
  rewrite split_word; [|done|by apply shown_word_free].
  cbn [split_go]. rewrite app_nil_r, List.rev_involutive.
  cbn [join_sp]. rewrite !strip_shown. subst R P.
  by rewrite !string_of_bytes_of.
Qed.

(** X28: a regex pair whose sides are not empty and hold no white space
    is read back by [save] from the form in which [components] shows
    it. *)
Theorem regex_field_roundtrip (reg rep : string) :
  reg <> "" -> rep <> "" -> no_space reg -> no_space rep ->
  processRegex (regex_field (reg, rep)) = (reg, rep)
  /\ processedRegex [regex_field (reg, rep)] = [(reg, rep)].
Proof.
  intros Hr Hp Hreg Hrep. pose proof (processRegex_shown reg rep Hreg Hrep) as H.
  split; [done|]. unfold processedRegex. cbn [List.map List.filter]. rewrite H.
  cbn [fst snd].
  apply String.eqb_neq in Hr, Hp. by rewrite Hr, Hp.
Qed.

Lemma regex_field_roundtrip_witness :
  regex_field ("^/", "#") = "<^/> <#>"
  /\ processRegex "<^/> <#>" = ("^/", "#")
  /\ processedRegex ["<^/> <#>"] = [("^/", "#")].
Proof.
  assert (H1 : no_space "^/").
  { intros n. do 3 (destruct n as [|n]; [reflexivity|]). reflexivity. }
  assert (H2 : no_space "#").
  { intros n. do 2 (destruct n as [|n]; [reflexivity|]). reflexivity. }
  assert (Hreg : "^/" <> "") by discriminate.
  assert (Hrep : "#" <> "") by discriminate.
  split; [reflexivity|].
  exact (regex_field_roundtrip "^/" "#" Hreg Hrep H1 H2).
Defined.

(** *** Showing and saving *)

Lemma map_set_map {V} (f : V -> V) k v (m : list (string * V)) :
  map_set k (f v) (List.map (fun kv => (kv.1, f kv.2)) m)
  = List.map (fun kv => (kv.1, f kv.2)) (map_set k v m).
Proof.
  induction m as [|[k' v'] m IH]; [done|].
  cbn. destruct (String.eqb k k'); [done|]. cbn. by rewrite IH.
Qed.

(** The de-duplication loop goes through a change of the records that
    keeps their keys. *)
Lemma dedupe_map (f : QQBotConfig -> QQBotConfig) l :
  (forall y, uniq_key (f y) = uniq_key y) ->
  dedupe (List.map f l) = List.map f (dedupe l).
Proof.
  intros Hf. unfold dedupe, map_values.
  assert (H : forall m,
    List.fold_left uniq_step (List.map f l) (List.map (fun kv => (kv.1, f kv.2)) m)
    = List.map (fun kv => (kv.1, f kv.2)) (List.fold_left uniq_step l m)).
  { induction l as [|c l IH]; intros m; [done|].
    cbn [List.map List.fold_left]. rewrite <- IH. f_equal.
    unfold uniq_step. rewrite Hf. destruct (String.eqb (uniq_key c) ""); [done|].
    apply map_set_map. }
  specialize (H []). cbn [List.map] in H. rewrite H, !List.map_map. done.
Qed.

Lemma processedRegex_shown l :
  Forall (fun r => r.1 <> "" /\ r.2 <> "" /\ no_space r.1 /\ no_space r.2) l ->
  processedRegex (List.map regex_field l) = l.
Proof.
  unfold processedRegex. induction 1 as [|[reg rep] l (H1 & H2 & H3 & H4) _ IH]; [done|].
  cbn [List.map fst snd] in *. rewrite processRegex_shown by done.
  cbn [List.filter fst snd].
  apply String.eqb_neq in H1, H2. rewrite H1, H2. cbn. by rewrite IH.
Qed.

Section Shown.
Variable Number : string -> JsNumber.
Hypothesis Number_digit :
  forall z, z ∈ [0; 1; 2; 3; 4; 5] -> Number (pretty z) = JInt z.

Lemma one_of_shown allowed z :
  z ∈ allowed -> Forall (fun a => a ∈ [0; 1; 2; 3; 4; 5]) allowed ->
  one_of allowed (numeric Number (Str (pretty z))) = z.
Proof.
  intros Hz Hsub. cbn [numeric].
  rewrite Number_digit by by eapply Forall_forall in Hsub.
  cbn [one_of]. by rewrite bool_decide_eq_true_2.
Qed.

Lemma record_of_item_of y :
  enterable y -> record_of Number (item_of y) = built_in y.
Proof.
  intros (_ & Hg & Hm & He & Hr).
  destruct y as [aid sec pa sa ta sb qe ge gm ex re [mm mi mk] [ty url tok] ec].
  cbn [guildMode markdown md_mode event ev_type regex] in *.
  unfold record_of, item_of, built_in.
  cbn [i_appId i_secret i_sandbox i_qqEnable i_guildEnable i_guildMode i_exclude
       i_regex i_markdownMode i_markdownId i_markdownKv i_eventType
       appId secret sandbox qqEnable guildEnable guildMode exclude regex markdown
       event md_mode md_id md_kv ev_type].
  rewrite processedRegex_shown by done.
  rewrite !one_of_shown by (try done; repeat constructor).
  f_equal.
  unfold guildMode_of, or_zero.
  repeat (apply elem_of_cons in Hg as [->|Hg]); [done|done|by apply elem_of_nil in Hg].
Qed.

Lemma collect_shown cfg :
  Forall (fun y => enterable y /\ uniq_key y <> "") cfg ->
  collect Number (List.map item_of cfg) = List.map built_in cfg.
Proof.
  unfold collect. induction 1 as [|y cfg [Hy Hk] _ IH]; [done|].
  cbn [List.map List.filter].
  assert (required (item_of y) = true) as ->.
  { unfold required, item_of. cbn [i_appId i_secret].
    apply andb_true_iff. split; apply negb_true_iff, String.eqb_neq.
    - intros Ha. apply Hk. unfold uniq_key. by rewrite Ha.
    - apply Hy. }
  cbn [List.map]. by rewrite IH, record_of_item_of.
Qed.

(** X29: opening the settings page and saving what it shows: when every
    bot of [config()] has values the fields of the page can hold, and
    [Number] reads the digits 0 to 5, [save] writes a file that loads as
    the same bots in the same order, with the five endpoint values set to
    the built-in ones and [enableConvert] gone; bots that had the built-in
    endpoints and no [enableConvert] load unchanged. *)
Theorem shown_then_saved (user : list RawConfig) :
  formatConfig user <> [] ->
  Forall enterable (formatConfig user) ->
  exists file,
    (save Number (List.map item_of (formatConfig user))).2 = Some file
    /\ formatConfig file = List.map built_in (formatConfig user)
    /\ (Forall (fun y => built_in y = y) (formatConfig user) ->
          formatConfig file = formatConfig user).
Proof.
  intros Hne Hall.
  assert (Hc : collect Number (List.map item_of (formatConfig user))
               = List.map built_in (formatConfig user)).
  { apply collect_shown. apply Forall_forall. intros y Hy. split.
    - by eapply Forall_forall in Hall.
    - unfold formatConfig in Hy. by apply dedupe_sub in Hy as [_ Hk]. }
  assert (Hd : dedupe (List.map built_in (formatConfig user))
               = List.map built_in (formatConfig user)).
  { rewrite dedupe_map by done. unfold formatConfig. by rewrite dedupe_idempotent. }
  assert (Hf : Forall formatted (List.map built_in (formatConfig user))).
  { rewrite List.Forall_map. apply Forall_forall. intros y _. by cbn. }
  exists (cleanConfigForWrite (List.map built_in (formatConfig user))).
  assert (Hload : formatConfig (cleanConfigForWrite (List.map built_in (formatConfig user)))
                  = List.map built_in (formatConfig user)).
  { unfold formatConfig at 1, cleanConfigForWrite. rewrite List.map_map.
    rewrite (map_id_on (fun y => formatItem (cleanItem y))); [exact Hd|].
    eapply Forall_impl; [exact Hf|]. intros y. apply formatItem_cleanItem. }
  split_and!; [|exact Hload|].
  - unfold save. rewrite Hc, Hd.
    destruct (List.map built_in (formatConfig user)) as [|b bs] eqn:Hb.
    { destruct (formatConfig user); [done|discriminate]. }
    cbn [snd]. f_equal. rewrite <- Hd. apply write_deduped. exact Hf.
  - intros Hid. rewrite Hload. apply map_id_on. exact Hid.
Qed.

End Shown.

Lemma shown_then_saved_witness :
  exists file,
    (save Cases.Number (List.map item_of (formatConfig Cases.file))).2 = Some file
    /\ formatConfig file = formatConfig Cases.file.
Proof.
  assert (HN : forall z, z ∈ [0; 1; 2; 3; 4; 5] -> Cases.Number (pretty z) = JInt z).
  { intros z Hz. repeat (apply elem_of_cons in Hz as [->|Hz]); [reflexivity..|].
    by apply elem_of_nil in Hz. }
  assert (Hf : formatConfig Cases.file = [Samples.bot]) by (vm_compute; reflexivity).
  assert (Hne : formatConfig Cases.file <> []) by (rewrite Hf; discriminate).
  assert (H1 : no_space "^/").
  { intros n. do 3 (destruct n as [|n]; [reflexivity|]). reflexivity. }
  assert (H2 : no_space "#").
  { intros n. do 2 (destruct n as [|n]; [reflexivity|]). reflexivity. }
  assert (Hall : Forall enterable (formatConfig Cases.file)).
  { rewrite Hf. constructor; [|constructor]. unfold enterable. cbn.
    split_and!; [discriminate|repeat constructor..|].
    constructor; [|constructor]. cbn. split_and!; [discriminate|discriminate|done|done]. }
  destruct (shown_then_saved Cases.Number HN Cases.file Hne Hall)
    as (file & Hs & _ & Hid).
  exists file. split; [exact Hs|]. apply Hid.
  rewrite Hf. constructor; [reflexivity|constructor].
Defined.

End WebUIFacts.
